(** * POD-PINN, 2D lid-driven cavity: the reduced-order model of LidDriven.py

    A shallow embedding of [pythonNN/2DLidDriven/LidDriven.py] (the class
    [CustomedEqs] and the residual of [CustomedNet.loss_Eqs]) and the
    properties of it that the specification states.

    Numbers.  NumPy's float64 arrays are modelled by lists of real numbers:
    arithmetic is exact, rounding and overflow are not modelled.  Where a
    property is about the special values of IEEE arithmetic (a division by
    zero gives an infinity, not an exception) the same code is run over
    [xreal], the reals extended with the two infinities and NaN; and where
    it is about a value that is exact only after rounding, over [f64], the
    sets of binary64 numbers an expression may take when every operation
    is rounded to nearest.

    Arrays.  A one-dimensional array is a [list R], a two-dimensional one a
    list of rows, and so on.  Index assignment [a[i,j] = x] is [set2], a
    slice assignment is [assign_block], a [for i in range(n)] loop is
    [for_range].  The array functions are total: on arrays whose shapes do
    not fit, where NumPy raises a shape error, they cut to the common shape
    or read 0.  The failures the specification speaks about are explicit:
    the exception of [GetError], the check of [np.matmul] in it, and
    [np.stack] of no array in [GetPredFields].

    Effects.  [print], the files written and the exceptions are explicit:
    a method of the object is a function from the object to a [Res], which
    carries the object afterwards, the events emitted in order, and either
    the exception raised or the value returned.

    Outside of the source file: [scipy.optimize.fsolve] and the loss
    function of the network are parameters; the Chebyshev grid and
    differentiation matrices (../tools/Chebyshev.py) are attributes of the
    object. *)

From Stdlib Require Import String.
From Stdlib Require Import Reals Lra Lia List ZArith NArith Bool Arith Psatz.
From Stdlib Require Import Ratan Machin AltSeries.
Import ListNotations.

#[local] Open Scope R_scope.

(** ** The constant the code uses for pi *)

(** [3.14159265359], written out in [getJac] and [getGrid]. *)
Definition PI_CODE : R := 3.14159265359.

(** Partial sums of the arctangent series, to bound pi by Machin's formula. *)
Definition atan_sum (x : R) (n : nat) : R := sum_f_R0 (tg_alt (Ratan_seq x)) n.

(** ** Numeric backends *)

(** [getJac] and [getGrid] are written once and run on NumPy arrays or on
    torch tensors: the element type and its arithmetic are a parameter, and
    so are [cos] and [sin] (arguments of the Python functions). *)
Class Backend (T : Type) : Type := {
  lit : R -> T;            (* a Python float literal *)
  add : T -> T -> T;
  sub : T -> T -> T;
  mul : T -> T -> T;
  div : T -> T -> T;
  neg : T -> T
}.

#[export] Instance RBackend : Backend R := {
  lit := fun r => r;
  add := Rplus;
  sub := Rminus;
  mul := Rmult;
  div := Rdiv;
  neg := Ropp
}.

(** *** IEEE special values *)

(** A float64 without rounding: a real number, an infinity or NaN.  Zero is
    not signed: a division of a nonzero number by zero takes the sign of the
    numerator, as it does for the [+0.0] that [sin] returns at [0.0]. *)
Inductive xreal : Type :=
| XFin (r : R)
| XPInf
| XNInf
| XNaN.

Definition is_finite (x : xreal) : bool :=
  match x with XFin _ => true | _ => false end.

Definition is_inf (x : xreal) : bool :=
  match x with XPInf | XNInf => true | _ => false end.

(** Sign of a real: [Lt] negative, [Eq] zero, [Gt] positive. *)
Definition Rsign (r : R) : comparison :=
  if Rlt_dec r 0 then Lt else if Rlt_dec 0 r then Gt else Eq.

Definition xinf_of_sign (c : comparison) : xreal :=
  match c with Lt => XNInf | Gt => XPInf | Eq => XNaN end.

Definition flip_sign (c : comparison) : comparison :=
  match c with Lt => Gt | Gt => Lt | Eq => Eq end.

Definition xneg (x : xreal) : xreal :=
  match x with
  | XFin r => XFin (- r)
  | XPInf => XNInf
  | XNInf => XPInf
  | XNaN => XNaN
  end.

Definition xadd (x y : xreal) : xreal :=
  match x, y with
  | XNaN, _ | _, XNaN => XNaN
  | XFin a, XFin b => XFin (a + b)
  | XPInf, XNInf | XNInf, XPInf => XNaN
  | XPInf, _ | _, XPInf => XPInf
  | XNInf, _ | _, XNInf => XNInf
  end.

Definition xsub (x y : xreal) : xreal := xadd x (xneg y).

Definition xmul (x y : xreal) : xreal :=
  match x, y with
  | XNaN, _ | _, XNaN => XNaN
  | XFin a, XFin b => XFin (a * b)
  | XFin a, XPInf | XPInf, XFin a => xinf_of_sign (Rsign a)
  | XFin a, XNInf | XNInf, XFin a => xinf_of_sign (flip_sign (Rsign a))
  | XPInf, XPInf | XNInf, XNInf => XPInf
  | XPInf, XNInf | XNInf, XPInf => XNInf
  end.

Definition xdiv (x y : xreal) : xreal :=
  match x, y with
  | XNaN, _ | _, XNaN => XNaN
  | XFin a, XFin b =>
      match Rsign b with
      | Eq => xinf_of_sign (Rsign a)       (* x/0: an infinity, 0/0: NaN *)
      | _ => XFin (a / b)
      end
  | XFin _, _ => XFin 0
  | XPInf, XFin b =>
      match Rsign b with Lt => XNInf | _ => XPInf end
  | XNInf, XFin b =>
      match Rsign b with Lt => XPInf | _ => XNInf end
  | _, _ => XNaN
  end.

Definition xlift (f : R -> R) (x : xreal) : xreal :=
  match x with XFin r => XFin (f r) | _ => XNaN end.

#[export] Instance XBackend : Backend xreal := {
  lit := XFin;
  add := xadd;
  sub := xsub;
  mul := xmul;
  div := xdiv;
  neg := xneg
}.

(** ** Array primitives *)

Section Arrays.
Context {T : Type}.

(** [m[:, a:b]] *)
Definition slice_cols (a b : nat) (m : list (list T)) : list (list T) :=
  map (fun row => firstn (b - a) (skipn a row)) m.

(** [m[a:b]] (rows) *)
Definition slice_rows (a b : nat) (m : list (list T)) : list (list T) :=
  firstn (b - a) (skipn a m).

(** An elementwise operation on arrays of one shape. *)
Fixpoint zip_with {A B C : Type} (f : A -> B -> C) (l : list A) (l' : list B)
  : list C :=
  match l, l' with
  | x :: t, y :: t' => f x y :: zip_with f t t'
  | _, _ => []
  end.

Definition emap (f : T -> T) (m : list (list T)) : list (list T) :=
  map (map f) m.

Definition emap2 (f : T -> T -> T) (m m' : list (list T)) : list (list T) :=
  zip_with (zip_with f) m m'.

(** [cat((m1, m2, ...), axis=1)]: the rows are joined. *)
Fixpoint cat_axis1 (ms : list (list (list T))) : list (list T) :=
  match ms with
  | [] => []
  | [m] => m
  | m :: rest => zip_with (@app T) m (cat_axis1 rest)
  end.
End Arrays.

(** ** CoordinateMap: [getJac] *)

Section CoordinateMap.
Context {T : Type} {B : Backend T}.
Variables cos sin : T -> T.

Definition xCoef : R := 1 / 2.
Definition yCoef : R := 1 / 2.

(** [Theta = alpha[:,1:2]/180*3.14159265359] *)
Definition Theta_of (alpha : list (list T)) : list (list T) :=
  emap (fun a => mul (div a (lit 180)) (lit PI_CODE)) (slice_cols 1 2 alpha).

Definition getJac (alpha : list (list T))
  : list (list T) * list (list T) * list (list T) * list (list T) :=
  let Theta := Theta_of alpha in
  let Jac11 := emap (fun th => mul (lit (1 / xCoef)) (add (mul th (lit 0)) (lit 1))) Theta in
  let Jac12 := emap (fun th => mul (lit 0) th) Theta in
  let Jac21 := emap (fun th => div (div (neg (cos th)) (sin th)) (lit xCoef)) Theta in
  let Jac22 := emap (fun th => div (lit (1 / yCoef)) (sin th)) Theta in
  (Jac11, Jac12, Jac21, Jac22).
End CoordinateMap.

(** ** NumPy arrays of reals *)

Definition vec : Type := list R.
Definition grid : Type := list (list R).      (* a 2-D array *)
Definition tensor3 : Type := list grid.
Definition tensor4 : Type := list tensor3.

Definition NVAR : nat := 3.       (* unknown variables: p, u, v *)
Definition NVARLOAD : nat := 6.   (* loaded variables: p, u, v, t, omega, psi *)

(** [np.zeros] *)
Definition zeros1 (n : nat) : vec := repeat 0 n.
Definition zeros2 (n m : nat) : grid := repeat (zeros1 m) n.
Definition zeros3 (n m k : nat) : tensor3 := repeat (zeros2 m k) n.
Definition zeros4 (n m k l : nat) : tensor4 := repeat (zeros3 m k l) n.

(** [l[i] = f(l[i])]; the loops below only write inside the shape that
    [np.zeros] allocated, where Python raises no IndexError. *)
Fixpoint upd {A : Type} (i : nat) (f : A -> A) (l : list A) : list A :=
  match l, i with
  | [], _ => []
  | x :: t, O => f x :: t
  | x :: t, S i' => x :: upd i' f t
  end.

Definition set1 (i : nat) (x : R) : vec -> vec := upd i (fun _ => x).
Definition set2 (a b : nat) (x : R) : grid -> grid := upd a (set1 b x).
Definition set3 (t a b : nat) (x : R) : tensor3 -> tensor3 := upd t (set2 a b x).
Definition set4 (t a b c : nat) (x : R) : tensor4 -> tensor4 := upd t (set3 a b c x).

Definition get1 (v : vec) (i : nat) : R := nth i v 0.
Definition get2 (g : grid) (a b : nat) : R := get1 (nth a g []) b.
Definition get3 (t : tensor3) (i a b : nat) : R := get2 (nth i t []) a b.

(** [for i in range(n): s = body(i, s)] *)
Definition for_range {St : Type} (n : nat) (body : nat -> St -> St) (s : St) : St :=
  fold_left (fun acc i => body i acc) (seq 0 n) s.

(** [enumerate]: the elements with their indices. *)
Definition imap {A B : Type} (f : nat -> A -> B) (l : list A) : list B :=
  zip_with f (seq 0 (length l)) l.

(** [base[r0:r1, c0:c1] = src], [src] indexed from the corner of the block. *)
Definition assign_block (r0 r1 c0 c1 : nat) (src : nat -> nat -> R) (base : grid)
  : grid :=
  imap (fun a row =>
          imap (fun b x =>
                  if (r0 <=? a)%nat && (a <? r1)%nat && (c0 <=? b)%nat && (b <? c1)%nat
                  then src (a - r0)%nat (b - c0)%nat else x) row) base.

(** [v[start::step]] *)
Definition strided (start step : nat) (v : vec) : vec :=
  map (fun k => nth (start + k * step) v 0)
      (seq 0 ((length v - start + (step - 1)) / step)).

(** [np.reshape(v, (r, c))] *)
Definition reshape2 (r c : nat) (v : vec) : grid :=
  map (fun a => firstn c (skipn (a * c) v)) (seq 0 r).

Definition ncols (m : grid) : nat := length (hd [] m).
Definition column (j : nat) (m : grid) : vec := map (fun row => nth j row 0) m.

(** [m.T] *)
Definition transpose (m : grid) : grid :=
  map (fun j => column j m) (seq 0 (ncols m)).

Definition dot (a b : vec) : R := fold_left Rplus (zip_with Rmult a b) 0.

(** [np.matmul] of two 2-D arrays. *)
Definition matmul (a b : grid) : grid :=
  map (fun row => map (fun j => dot row (column j b)) (seq 0 (ncols b))) a.

(** [g.sum()] *)
Definition sum_all (g : grid) : R := fold_left Rplus (concat g) 0.

Definition gadd : grid -> grid -> grid := emap2 Rplus.
Definition gsub : grid -> grid -> grid := emap2 Rminus.
Definition gmul : grid -> grid -> grid := emap2 Rmult.
Definition gscale (c : R) : grid -> grid := emap (Rmult c).

Declare Scope grid_scope.
Delimit Scope grid_scope with G.
Infix ".*" := gmul (at level 40, left associativity) : grid_scope.
Infix ".+" := gadd (at level 50, left associativity) : grid_scope.
Infix ".-" := gsub (at level 50, left associativity) : grid_scope.
Infix "*:" := gscale (at level 40, left associativity) : grid_scope.

(** ** The object: the attributes of [CustomedEqs] *)

Record CustomedEqs : Type := mkEqs {
  FieldShape : nat * nat;
  parameters : grid;
  design_space : grid;
  ValidationParameters : grid;
  ValidationSamples : grid;
  Modes : grid;
  M : nat;
  (* Chebyshev2D, of ../tools/Chebyshev.py: its grid and its differentiation
     matrices are attributes computed once by the constructor *)
  Chby_xc : grid;
  Chby_yc : grid;
  dxp : grid;
  dyp : grid;
  dx : grid;
  dy : grid;
  projections : grid;
  proj_mean : grid;          (* shape (1, M) *)
  proj_std : grid;           (* shape (1, M) *)
  Interior : grid;
  Boundary : grid;
  uBC : grid;
  InteriorShape : nat * nat;
  Beqs : tensor3;
  Bbc : grid;
  Aeqs : tensor4;
  Abc : tensor3
}.

(** The attributes that describe the design space and the validation set. *)
Definition with_design (p ds vp vs : grid) (s : CustomedEqs) : CustomedEqs :=
  mkEqs (FieldShape s) p ds vp vs (Modes s) (M s) (Chby_xc s) (Chby_yc s)
        (dxp s) (dyp s) (dx s) (dy s) (projections s) (proj_mean s) (proj_std s)
        (Interior s) (Boundary s) (uBC s) (InteriorShape s)
        (Beqs s) (Bbc s) (Aeqs s) (Abc s).

(** [self.Beqs, self.Bbc = ...; self.Aeqs, self.Abc = ...] *)
Definition with_reduced (b : tensor3 * grid) (a : tensor4 * tensor3)
  (s : CustomedEqs) : CustomedEqs :=
  mkEqs (FieldShape s) (parameters s) (design_space s) (ValidationParameters s)
        (ValidationSamples s) (Modes s) (M s) (Chby_xc s) (Chby_yc s)
        (dxp s) (dyp s) (dx s) (dy s) (projections s) (proj_mean s) (proj_std s)
        (Interior s) (Boundary s) (uBC s) (InteriorShape s)
        (fst b) (snd b) (fst a) (snd a).

(** [Interior = np.zeros(FieldShape); Interior[1:-1,1:-1] = 1] *)
Definition Interior_of (shape : nat * nat) : grid :=
  let '(Nx, Ny) := shape in
  assign_block 1 (Nx - 1) 1 (Ny - 1) (fun _ _ => 1) (zeros2 Nx Ny).

(** [Boundary = 1 - Interior] *)
Definition Boundary_of (interior : grid) : grid := emap (fun x => 1 - x) interior.

Section Methods.
Variable self : CustomedEqs.

Definition Mode2Field (Vec : vec) : grid * grid * grid :=
  let '(Nx, Ny) := FieldShape self in
  let '(ir, ic) := InteriorShape self in
  let interior_of (var : nat) : grid :=
    let block := reshape2 ir ic (strided var NVAR Vec) in
    assign_block 1 (Nx - 1) 1 (Ny - 1) (fun a b => get2 block a b)
                 (zeros2 Nx Ny) in
  (interior_of 0%nat, interior_of 1%nat, interior_of 2%nat).

Definition Compute_d_dxc (phi : grid) : grid := matmul (dx self) phi.
Definition Compute_d_dyc (phi : grid) : grid :=
  transpose (matmul (dy self) (transpose phi)).
Definition Compute_dp_dxc (phi : grid) : grid := matmul (dxp self) phi.
Definition Compute_dp_dyc (phi : grid) : grid :=
  transpose (matmul (dyp self) (transpose phi)).
Definition Compute_d_dxc2 (phi : grid) : grid := Compute_d_dxc (Compute_d_dxc phi).
Definition Compute_d_dyc2 (phi : grid) : grid := Compute_d_dyc (Compute_d_dyc phi).
Definition Compute_d_dxcyc (phi : grid) : grid := Compute_d_dyc (Compute_d_dxc phi).
Definition Compute_d_d1 (phi : grid) : grid * grid :=
  (Compute_d_dxc phi, Compute_d_dyc phi).
Definition Compute_d_d1p (phi : grid) : grid * grid :=
  (Compute_dp_dxc phi, Compute_dp_dyc phi).
Definition Compute_d_d2 (phi : grid) : grid * grid * grid :=
  (Compute_d_dxc2 phi, Compute_d_dyc2 phi, Compute_d_dxcyc phi).

(** The inner product of the loops: [( self.Interior*(g) ).sum()]. *)
Definition isum (g : grid) : R := sum_all (Interior self .* g)%G.

Definition getA : tensor4 * tensor3 :=
  let m := M self in
  let '(uBCxc, uBCyc) := Compute_d_d1 (uBC self) in
  for_range m (fun j acc =>
    let '(pj, uj, vj) := Mode2Field (column j (Modes self)) in
    let '(ujxc, ujyc) := Compute_d_d1 uj in
    let '(vjxc, vjyc) := Compute_d_d1 vj in
    for_range m (fun k acc =>
      let '(pk, uk, vk) := Mode2Field (column k (Modes self)) in
      for_range m (fun i acc =>
        let '(pi, ui, vi) := Mode2Field (column i (Modes self)) in
        let '(Aeqs, Abc) := acc in
        let Aeqs := set4 0 k i j (isum (ui .* ujxc .* uk .+ ui .* vjxc .* vk)%G) Aeqs in
        let Aeqs := set4 1 k i j (isum (ui .* ujyc .* uk .+ ui .* vjyc .* vk)%G) Aeqs in
        let Aeqs := set4 2 k i j (isum (vi .* ujxc .* uk .+ vi .* vjxc .* vk)%G) Aeqs in
        let Aeqs := set4 3 k i j (isum (vi .* ujyc .* uk .+ vi .* vjyc .* vk)%G) Aeqs in
        let Abc := set3 0 k i (isum (ui .* uBCxc .* uk)%G) Abc in
        let Abc := set3 1 k i (isum (ui .* uBCyc .* uk)%G) Abc in
        let Abc := set3 2 k i (isum (vi .* uBCxc .* uk)%G) Abc in
        let Abc := set3 3 k i (isum (vi .* uBCyc .* uk)%G) Abc in
        (Aeqs, Abc)) acc) acc)
    (zeros4 4 m m m, zeros3 4 m m).

Definition getB : tensor3 * grid :=
  let m := M self in
  let '(uBCxc, uBCyc) := Compute_d_d1 (uBC self) in
  let '(uBCxc2, uBCyc2, uBCxcyc) := Compute_d_d2 (uBC self) in
  for_range m (fun j acc =>
    let '(pj, uj, vj) := Mode2Field (column j (Modes self)) in
    let '(ujxc, ujyc) := Compute_d_d1 uj in
    let '(vjxc, vjyc) := Compute_d_d1 vj in
    let '(pjxc, pjyc) := Compute_d_d1p pj in
    let '(ujxc2, ujyc2, ujxcyc) := Compute_d_d2 uj in
    let '(vjxc2, vjyc2, vjxcyc) := Compute_d_d2 vj in
    for_range m (fun i acc =>
      let '(pi, ui, vi) := Mode2Field (column i (Modes self)) in
      let '(Beqs, Bbc) := acc in
      let Beqs := set3 0 i j (isum (ujxc .* pi .+ pjxc .* ui)%G) Beqs in
      let Beqs := set3 1 i j (isum (ujyc .* pi .+ pjyc .* ui)%G) Beqs in
      let Beqs := set3 2 i j (isum (vjxc .* pi .+ pjxc .* vi)%G) Beqs in
      let Beqs := set3 3 i j (isum (vjyc .* pi .+ pjyc .* vi)%G) Beqs in
      let Beqs := set3 4 i j (- isum (ujxc2 .* ui .+ vjxc2 .* vi)%G) Beqs in
      let Beqs := set3 5 i j (- isum (ujyc2 .* ui .+ vjyc2 .* vi)%G) Beqs in
      let Beqs := set3 6 i j (- isum (ujxcyc .* ui .+ vjxcyc .* vi)%G) Beqs in
      let Bbc := set2 0 i (isum (uBCxc .* pi)%G) Bbc in
      let Bbc := set2 1 i (isum (uBCyc .* pi)%G) Bbc in
      let Bbc := set2 2 i (isum (0 *: pi)%G) Bbc in
      let Bbc := set2 3 i (isum (0 *: pi)%G) Bbc in
      let Bbc := set2 4 i (- isum (uBCxc2 .* ui)%G) Bbc in
      let Bbc := set2 5 i (- isum (uBCyc2 .* ui)%G) Bbc in
      let Bbc := set2 6 i (- isum (uBCxcyc .* ui)%G) Bbc in
      (Beqs, Bbc)) acc)
    (zeros3 7 m m, zeros2 7 m).
End Methods.

(** The end of [__init__]: the reduced tensors are built and stored. *)
Definition init_reduced (s : CustomedEqs) : CustomedEqs :=
  let b := getB s in
  let s1 := with_reduced b (Aeqs s, Abc s) s in
  with_reduced b (getA s1) s1.

(** ** CoordinateMap on NumPy arrays: [getGrid], [getABCoef] *)

(** [g * c] for [c] of shape (n, 1): one factor for all of [g] when n = 1,
    else one factor per row. *)
Definition bcast_col (f : R -> R -> R) (g c : grid) : grid :=
  match c with
  | [[x]] => emap (fun y => f y x) g
  | _ => zip_with (fun row cr => map (fun y => f y (nth 0 cr 0)) row) g c
  end.

Section CoordinateMapR.
Variable self : CustomedEqs.
Variables cos sin : R -> R.

Definition getGrid (alpha : grid) : grid * grid :=
  let xc := Chby_xc self in
  let yc := Chby_yc self in
  let Theta := Theta_of alpha in
  let xp := (emap (fun x => x * xCoef) xc
             .+ bcast_col Rmult (emap (fun y => y * yCoef) yc) (emap cos Theta))%G in
  let yp := bcast_col Rmult (emap (fun y => y * yCoef) yc) (emap sin Theta) in
  (xp, yp).

Definition getABCoef (alpha : grid) : grid * grid :=
  let v := emap (fun a => 1 / a) (slice_cols 0 1 alpha) in
  let '(Jac11, Jac12, Jac21, Jac22) := getJac cos sin alpha in
  let sq := emap (fun x => x ^ 2) in
  let Acoef := cat_axis1 [Jac11; Jac12; Jac21; Jac22] in
  let BCoef := cat_axis1 [Jac11; Jac12; Jac21; Jac22;
                          v .* (sq Jac11 .+ sq Jac21);
                          v .* (sq Jac12 .+ sq Jac22);
                          2 *: v .* (Jac11 .* Jac12 .+ Jac21 .* Jac22)]%G in
  (Acoef, BCoef).
End CoordinateMapR.

(** ** Effects *)

Inductive exn : Type :=
| Exception (msg : string)      (* [raise Exception(msg)] *)
| ValueError.                   (* NumPy: shapes not aligned, nothing to stack *)

Inductive event : Type :=
| PrintCase (i : nat) (a0 a1 err : R)
    (* 'Case %d: (%f,%f) can only reach to an error of %f' *)
| PrintArray (v : vec)
| PrintErrors (p u v total : R)           (* "Errors=[%f,%f,%f],%f" *)
| PrintRelax (it : N) (m : R)             (* '%8d, dpsi=%e' *)
| WritePlt (filename : string) (icase Ny Nx : nat) (lines : list (list R))
| SaveMat (filename : string) (Fields : tensor4).

Record Res (A : Type) : Type := mkRes {
  obj : CustomedEqs;            (* the object afterwards *)
  out : list event;             (* what was printed and written, in order *)
  val : exn + A                 (* the exception raised or the value returned *)
}.
Arguments mkRes {A}.
Arguments obj {A}.
Arguments out {A}.
Arguments val {A}.

Definition Py (A : Type) : Type := CustomedEqs -> Res A.

Definition ret {A : Type} (a : A) : Py A := fun s => mkRes s [] (inr a).

Definition bind {A B : Type} (c : Py A) (k : A -> Py B) : Py B :=
  fun s =>
    let r := c s in
    match val r with
    | inl e => mkRes (obj r) (out r) (inl e)
    | inr a => let r' := k a (obj r) in
               mkRes (obj r') (out r ++ out r') (val r')
    end.

Definition get_self : Py CustomedEqs := fun s => mkRes s [] (inr s).
Definition raise {A : Type} (e : exn) : Py A := fun s => mkRes s [] (inl e).
Definition emit (e : event) : Py unit := fun s => mkRes s [e] (inr tt).

Declare Scope py_scope.
Delimit Scope py_scope with py.
Notation "x <- c ;; k" := (bind c (fun x => k))
  (at level 61, c at next level, right associativity) : py_scope.
Notation "c ;; k" := (bind c (fun _ => k))
  (at level 61, right associativity) : py_scope.

(** [for i in range(n)] with effects, the loop variable counted from [i0]. *)
Fixpoint for_rangeM {St : Type} (n i0 : nat) (body : nat -> St -> Py St) (s : St)
  : Py St :=
  match n with
  | O => ret s
  | S n' => (s' <- body i0 s ;; for_rangeM n' (S i0) body s')%py
  end.

(** ** Comparisons of floats *)

Definition Rltb (x y : R) : bool := if Rlt_dec x y then true else false.
Definition Rgtb (x y : R) : bool := if Rgt_dec x y then true else false.
Definition Reqb (x y : R) : bool := if Req_dec_T x y then true else false.

(** ** More of NumPy *)

(** [np.linalg.norm] of a 1-D array, and along [axis=1]. *)
Definition norm2 (v : vec) : R := sqrt (fold_left Rplus (map (fun x => x * x) v) 0).
Definition norm_axis1 (g : grid) : vec := map norm2 g.

(** [v.min()], [v.max()]: of a non-empty array (NumPy raises on an empty one). *)
Definition vmin (v : vec) : R :=
  match v with [] => 0 | h :: t => fold_left Rmin t h end.
Definition vmax (v : vec) : R :=
  match v with [] => 0 | h :: t => fold_left Rmax t h end.

(** [np.where(v == x)[0][0]]: the first index at which [v] is [x]. *)
Fixpoint first_index (x : R) (v : vec) : nat :=
  match v with
  | [] => O
  | h :: t => if Reqb h x then O else S (first_index x t)
  end.

(** [l.sum(axis=0)] of a list of arrays of one shape. *)
Definition sum_axis0 {A : Type} (addA : A -> A -> A) (zero : A) (l : list A) : A :=
  match l with
  | [] => zero
  | h :: t => fold_left addA t h
  end.

Definition vadd : vec -> vec -> vec := zip_with Rplus.
Definition vsub : vec -> vec -> vec := zip_with Rminus.
Definition vscale (c : R) : vec -> vec := map (Rmult c).
Definition tadd3 : tensor3 -> tensor3 -> tensor3 := zip_with gadd.
Definition tscale3 (c : R) : tensor3 -> tensor3 := map (gscale c).

(** [x[:,None]]: a 1-D array as a column; [m.squeeze()] of a column or of
    a one-row array back to 1-D. *)
Definition as_column (x : vec) : grid := map (fun a => [a]) x.
Definition squeeze_column (m : grid) : vec := column 0 m.
Definition squeeze_row (m : grid) : vec := nth 0 m [].

(** [v.mean()] *)
Definition vmean (v : vec) : R := fold_left Rplus v 0 / INR (length v).

(** [np.matmul] with its check that the inner dimensions agree. *)
Definition np_matmul (a b : grid) : Py grid :=
  if forallb (fun row => (length row =? length b)%nat) a
  then ret (matmul a b)
  else raise ValueError.

(** ** GalerkinSolver: [POD_Gfsolve] *)

Definition Newton_iterMax : nat := 100.
Definition Newton_eps : R := 1E-6.

Section Solver.
(** [scipy.optimize.fsolve]: the residual function and the starting point
    to the point it stops at. *)
Variable fsolve : (vec -> vec) -> vec -> vec.

Section WithSelf.
Variable self : CustomedEqs.

Definition compute_eAe (A : tensor3) (e : grid) : grid :=
  let tmp := map (fun Ak => matmul (transpose e) Ak) A in
  map (fun m => squeeze_column m) (map (fun t => matmul t e) tmp).

Definition eqs (x : vec) (A : tensor3) (B : grid) (source : grid) : vec :=
  let lamda := as_column x in
  let lamda := (lamda .* transpose (proj_std self) .+ transpose (proj_mean self))%G in
  let err := (compute_eAe A lamda .+ matmul B lamda .- source)%G in
  squeeze_column err.

(** [alpha[i:i+1,0:2]] *)
Definition alpha_row (alpha : grid) (i : nat) : grid :=
  slice_cols 0 2 (slice_rows i (i + 1) alpha).

(** The matrices of the reduced system at one parameter row. *)
Definition assemble (alphai : grid) : tensor3 * grid * grid :=
  let '(AiCoeff, BiCoeff) := getABCoef cos sin alphai in
  let AiCoeff := squeeze_row AiCoeff in
  let BiCoeff := squeeze_row BiCoeff in
  let m := M self in
  let Ai := sum_axis0 tadd3 (zeros3 m m m) (zip_with tscale3 AiCoeff (Aeqs self)) in
  let Bi := (sum_axis0 gadd (zeros2 m m) (zip_with gscale AiCoeff (Abc self))
             .+ sum_axis0 gadd (zeros2 m m) (zip_with gscale BiCoeff (Beqs self)))%G in
  let sourcei :=
    as_column (map Ropp (sum_axis0 vadd (zeros1 m) (zip_with vscale BiCoeff (Bbc self)))) in
  (Ai, Bi, sourcei).

(** The distances of [alphai] to the training parameters, in the design
    space scaled to the unit box. *)
Definition distances (alphai : grid) : vec :=
  let extent := zip_with Rminus (squeeze_row (slice_rows 1 2 (design_space self)))
                                (squeeze_row (slice_rows 0 1 (design_space self))) in
  let dis := map (fun p => zip_with Rdiv (zip_with Rminus (squeeze_row alphai) p) extent)
                 (parameters self) in
  norm_axis1 dis.

(** The initial guess, before it is normalized: shape (1, M). *)
Definition initial_guess (alphai : grid) (i : nat) (lamda_init : option grid) : grid :=
  match lamda_init with
  | None =>
      let dis := distances alphai in
      let ind := first_index (vmin dis) dis in
      transpose (slice_cols ind (ind + 1) (slice_rows 0 (M self) (projections self)))
  | Some l => slice_rows i (i + 1) l
  end.

(** One pass of the loop of [POD_Gfsolve], up to the residual check. *)
Definition solve_case (alpha : grid) (lamda_init : option grid) (i : nat)
  : grid * vec * R :=
  let alphai := alpha_row alpha i in
  let '(Ai, Bi, sourcei) := assemble alphai in
  let lamda0 := initial_guess alphai i lamda_init in
  let lamda0 := ((lamda0 .- proj_mean self)%G) in
  let lamda0 := emap2 Rdiv lamda0 (proj_std self) in
  let lamdasol := fsolve (fun x => eqs x Ai Bi sourcei) (squeeze_row lamda0) in
  let err := norm2 (eqs lamdasol Ai Bi sourcei) in
  (alphai, lamdasol, err).

(** [lamdasol[None,:]*self.proj_std + self.proj_mean], as the row stored. *)
Definition denormalize (lamdasol : vec) : vec :=
  squeeze_row ([lamdasol] .* proj_std self .+ proj_mean self)%G.
End WithSelf.

Definition POD_Gfsolve (alpha : grid) (lamda_init : option grid) : Py grid :=
  (self <- get_self ;;
   let n := length alpha in
   let lamda := zeros2 n (M self) in
   for_rangeM n 0 (fun i lamda =>
     let '(alphai, lamdasol, err) := solve_case self alpha lamda_init i in
     (if Rgtb err Newton_eps
      then emit (PrintCase i (get2 alphai 0 0) (get2 alphai 0 1) err)
      else ret tt) ;;
     ret (upd i (fun _ => denormalize self lamdasol) lamda)) lamda)%py.
End Solver.

(** ** FieldReconstructor: [GetError], [GetPredFields] *)

(** [g[:, nvar::NVAR]] *)
Definition cols_strided (nvar : nat) (g : grid) : grid := map (strided nvar NVAR) g.

(** [g[:, j] = col] *)
Definition set_column (j : nat) (col : vec) (g : grid) : grid :=
  zip_with (fun row x => set1 j x row) g col.

Definition GetError (lamda : grid) : Py (vec * R) :=
  (self <- get_self ;;
   let Nvalidation := length (ValidationParameters self) in
   if negb (Nvalidation =? length lamda)%nat
   then raise (Exception "The number of lamda should be equal to validation parameters")
   else
     phi_pred <- np_matmul lamda (transpose (Modes self)) ;;
     let phi_Num := transpose (ValidationSamples self) in
     let Error :=
       for_range NVAR (fun nvar Error =>
         set_column nvar
           (zip_with Rdiv
              (norm_axis1 (cols_strided nvar phi_Num .- cols_strided nvar phi_pred)%G)
              (norm_axis1 (cols_strided nvar phi_Num)))
           Error) (zeros2 Nvalidation NVAR) in
     (* Error.mean(axis=0) *)
     let Errorpuv := map (fun j => vmean (column j Error)) (seq 0 NVAR) in
     let Errortotal :=
       zip_with Rdiv (norm_axis1 (phi_Num .- phi_pred)%G) (norm_axis1 phi_Num) in
     emit (PrintArray Errortotal) ;;
     let Errortotal := vmean Errortotal in
     emit (PrintErrors (get1 Errorpuv 0) (get1 Errorpuv 1) (get1 Errorpuv 2) Errortotal) ;;
     ret (Errorpuv, Errortotal))%py.

(** [g * c] for a scalar [c] on the right. *)
Definition gtimes (g : grid) (c : R) : grid := emap (fun x => x * c) g.

(** [np.abs(g).max()] *)
Definition absmax (g : grid) : R := vmax (map Rabs (concat g)).

(** The number of passes of the relaxation loop, [int(1E8)]. *)
Definition relax_budget : nat := N.to_nat 100000000.

Section Relaxation.
Variable self : CustomedEqs.
Variables J11 J12 J21 J22 : R.      (* [J11[icase]], ... *)
Variable omegai : grid.
Variable dt : R.

(** [dpsi] of one pass, after the mask [self.Interior] is applied. *)
Definition relax_dpsi (psii : grid) : grid :=
  let '(psi_xc2, psi_yc2, psi_xcyc) := Compute_d_d2 self psii in
  let dpsi := (gtimes psi_xc2 (J11 ^ 2 + J21 ^ 2)
               .+ gtimes psi_yc2 (J12 ^ 2 + J22 ^ 2)
               .+ gtimes psi_xcyc (2 * J11 * J12 + 2 * J21 * J22)
               .- omegai)%G in
  (dpsi .* Interior self)%G.

(** [psii = psii + dpsi*dt] *)
Definition relax_step (psii : grid) : grid :=
  (psii .+ gtimes (relax_dpsi psii) dt)%G.

(** [for it in range(budget)] from pass [it] on, with its [break]. *)
Fixpoint relax (budget : nat) (it : N) (psii : grid) : Py grid :=
  match budget with
  | O => ret psii
  | S budget' =>
      let dpsi := relax_dpsi psii in
      let psii := (psii .+ gtimes dpsi dt)%G in
      ((if (it mod 10000 =? 0)%N
        then emit (PrintRelax it (absmax dpsi))
        else ret tt) ;;
       if Rltb (absmax dpsi) 1E-8
       then ret psii
       else relax budget' (it + 1)%N psii)%py
  end.

(** The iterates of the relaxation: [relax_iter k psi] after [k] passes. *)
Fixpoint relax_iter (k : nat) (psii : grid) : grid :=
  match k with
  | O => psii
  | S k' => relax_iter k' (relax_step psii)
  end.

(** The test of the [break] at the pass that starts from iterate [j]. *)
Definition relax_converged (psi0 : grid) (j : nat) : bool :=
  Rltb (absmax (relax_dpsi (relax_iter j psi0))) 1E-8.
End Relaxation.

(** What one pass of the loop over the cases of [GetPredFields] computes
    before the relaxation: the grid, the fields, the vorticity, the entries
    of the Jacobian at this case and the time step. *)
Record case_data : Type := mkCase {
  c_xp : grid;
  c_yp : grid;
  c_p : grid;
  c_u : grid;
  c_v : grid;
  c_omega : grid;
  c_J11 : R;
  c_J12 : R;
  c_J21 : R;
  c_J22 : R;
  c_hx : R;
  c_hy : R;
  c_dt : R
}.

Definition case_setup (self : CustomedEqs) (alpha phi_pred : grid)
  (J : grid * grid * grid * grid) (icase : nat) : case_data :=
  let '(J11, J12, J21, J22) := J in
  let alphai := slice_rows icase (icase + 1) alpha in
  let '(pi, ui, vi) := Mode2Field self (nth icase phi_pred []) in
  let ui := (ui .+ uBC self)%G in
  let '(ui_xc, ui_yc) := Compute_d_d1 self ui in
  let '(vi_xc, vi_yc) := Compute_d_d1 self vi in
  let '(xp, yp) := getGrid self cos sin alphai in
  let hx := Rabs (get2 xp 0 0 - get2 xp 1 0) in
  let hy := Rabs (get2 yp 0 0 - get2 yp 0 1) in
  let j11 := get2 J11 icase 0 in
  let j12 := get2 J12 icase 0 in
  let j21 := get2 J21 icase 0 in
  let j22 := get2 J22 icase 0 in
  let omegai := (gtimes ui_xc j21 .+ gtimes ui_yc j22
                 .- gtimes vi_xc j11 .- gtimes vi_yc j12)%G in
  let dt := 0.5 * Rmin hx hy ^ 2 in
  mkCase xp yp pi ui vi omegai j11 j12 j21 j22 hx hy dt.

(** The lines of the [.plt] file of one case. *)
Definition plt_lines (Nx Ny : nat) (c : case_data) (psii : grid) : list (list R) :=
  flat_map (fun j =>
    map (fun i => [get2 (c_xp c) i j; get2 (c_yp c) i j; get2 (c_p c) i j;
                   get2 (c_u c) i j; get2 (c_v c) i j; get2 (c_omega c) i j;
                   get2 psii i j])
        (seq 0 Nx)) (seq 0 Ny).

(** One pass of the loop over the cases of [GetPredFields]. *)
Definition pred_case (self : CustomedEqs) (alpha phi_pred : grid)
  (J : grid * grid * grid * grid) (filename : string)
  (icase : nat) (Fields : tensor4) : Py tensor4 :=
  let c := case_setup self alpha phi_pred J icase in
  let psii := (0 *: c_omega c)%G in
  (psii <- relax self (c_J11 c) (c_J12 c) (c_J21 c) (c_J22 c) (c_omega c) (c_dt c)
                 relax_budget 0 psii ;;
   let '(Nx, Ny) := FieldShape self in
   emit (WritePlt filename icase Ny Nx (plt_lines Nx Ny c psii)) ;;
   ret (Fields ++ [[c_xp c; c_yp c; c_p c; c_u c; c_v c; c_omega c; psii]]))%py.

(** [np.stack(tuple(arrays), axis=0)]: needs at least one array. *)
Definition np_stack (arrays : tensor4) : Py tensor4 :=
  match arrays with
  | [] => raise ValueError
  | _ => ret arrays
  end.

(** [GetPredFields]: the batch [lamda] has one column per mode and no more
    rows than [alpha]; otherwise NumPy raises in [np.matmul] or at
    [J11[icase]], which is not modelled here. *)
Definition GetPredFields (alpha lamda : grid) (filename : string) : Py tensor4 :=
  (self <- get_self ;;
   let Ncase := length lamda in
   let phi_pred := matmul lamda (transpose (Modes self)) in
   let J := getJac cos sin alpha in
   Fields <- for_rangeM Ncase 0 (pred_case self alpha phi_pred J filename) [] ;;
   Fields <- np_stack Fields ;;
   emit (SaveMat filename Fields) ;;
   ret Fields)%py.

(** ** The surrogate's residual: [CustomedNet.loss_Eqs] *)

(** The attributes [CustomedNet.__init__] copies from the reduced model. *)
Record CustomedNet : Type := mkNet {
  net_M : nat;
  net_Aeqs : tensor4;
  net_Abc : tensor3;
  net_Beqs : tensor3;
  net_Bbc : grid;
  net_lb : grid;
  net_ub : grid;
  net_proj_std : grid;
  net_proj_mean : grid;
  roeqs : CustomedEqs
}.

Definition CustomedNet_init (r : CustomedEqs) : CustomedNet :=
  mkNet (M r) (Aeqs r) (Abc r) (Beqs r) (Bbc r)
        (slice_rows 0 1 (design_space r)) (slice_rows 1 2 (design_space r))
        (proj_std r) (proj_mean r) r.

Section Torch.
Variables torch_cos torch_sin : R -> R.
(** [self.lossfun], of the base class [POD_Net] in ../tools/NNs/NN.py. *)
Variable lossfun : grid -> grid -> R.

(** The residual [fx] of [loss_Eqs], one row per row of the batch. *)
Definition loss_Eqs_fx (net : CustomedNet) (x lamda : grid) : grid :=
  let '(ACoeff, BCoeff) := getABCoef torch_cos torch_sin x in
  let m := net_M net in
  let A := map (fun a => sum_axis0 tadd3 (zeros3 m m m)
                           (zip_with tscale3 a (net_Aeqs net))) ACoeff in
  let B := (zip_with gadd
              (map (fun a => sum_axis0 gadd (zeros2 m m)
                               (zip_with gscale a (net_Abc net))) ACoeff)
              (map (fun b => sum_axis0 gadd (zeros2 m m)
                               (zip_with gscale b (net_Beqs net))) BCoeff)) in
  let source := map (fun b => map Ropp (sum_axis0 vadd (zeros1 m)
                                          (zip_with vscale b (net_Bbc net)))) BCoeff in
  (* torch.matmul(lamda[:,None,None,:], A) *)
  let fx := zip_with (fun l Ab => map (fun Ak => matmul [l] Ak) Ab) lamda A in
  (* torch.matmul(fx, lamda[:,None,:,None]) *)
  let fx := zip_with (fun l f => map (fun t => matmul t (as_column l)) f) lamda fx in
  (* fx.view(lamda.shape) + torch.matmul(B, lamda[:,:,None]).view(lamda.shape) - source *)
  let fx := map (fun f => concat (concat f)) fx in
  let Bl := map (@concat R) (zip_with (fun Bb l => matmul Bb (as_column l)) B lamda) in
  (fx .+ Bl .- source)%G.

Definition loss_Eqs (net : CustomedNet) (x lamda : grid) (weight : R) : R :=
  let fx := loss_Eqs_fx net x lamda in
  lossfun (weight *: fx)%G (emap (fun _ => 0) fx).
End Torch.

(** ** Shapes and grid points *)

Definition shape1 (n : nat) (v : vec) : Prop := length v = n.
Definition shape2 (n m : nat) (g : grid) : Prop :=
  length g = n /\ Forall (shape1 m) g.
Definition shape3 (n m k : nat) (t : tensor3) : Prop :=
  length t = n /\ Forall (shape2 m k) t.
Definition shape4 (n m k l : nat) (t : tensor4) : Prop :=
  length t = n /\ Forall (shape3 m k l) t.

(** A point of the first or last row or column of a grid of shape [shape]. *)
Definition boundary_point (shape : nat * nat) (a b : nat) : Prop :=
  (a < fst shape)%nat /\ (b < snd shape)%nat /\
  (a = 0%nat \/ a = (fst shape - 1)%nat \/ b = 0%nat \/ b = (snd shape - 1)%nat).

(** The progress lines of the relaxation loop. *)
Definition is_progress (e : event) : Prop :=
  match e with PrintRelax _ _ => True | _ => False end.

(** The cases that [POD_Gfsolve] reports in what it prints. *)
Definition reported (log : list event) (i : nat) : Prop :=
  exists a0 a1 err, In (PrintCase i a0 a1 err) log.

(** ** A small cavity *)

(** Modelled from the spec: the first-derivative matrix of SpectralGrid
    ([Chebyshev2D.DxCoeff(1)], of ../tools/Chebyshev.py) on the three
    Chebyshev points -1, 0, 1 of the interval [-1, 1]. *)
Definition cheb3 : grid :=
  [[- 3 / 2; 2; - 1 / 2];
   [- 1 / 2; 0; 1 / 2];
   [1 / 2; - 2; 3 / 2]].

(** The computational grid on these points. *)
Definition cheb3_xc : grid := [[-1; -1; -1]; [0; 0; 0]; [1; 1; 1]].
Definition cheb3_yc : grid := [[-1; 0; 1]; [-1; 0; 1]; [-1; 0; 1]].

(** A cavity on a 3 x 3 grid, one interior point, one mode [(p, u, v) =
    (0, 3/5, 4/5)], the lid (last column) moving with velocity 1; two
    training samples at (Re, angle) = (100, 60) and (500, 120).  This is
    the object in the middle of the constructor, before [getB] and [getA] have
    run: its reduced tensors are still empty, and [init_reduced cavity3] is
    the object as the constructor leaves it. *)
Definition cavity3 : CustomedEqs :=
  mkEqs (3%nat, 3%nat)
        [[100; 60]; [500; 120]]
        [[100; 60]; [500; 120]]
        [[200; 90]]
        [[0]; [3 / 5]; [4 / 5]]
        [[0]; [3 / 5]; [4 / 5]]
        1
        cheb3_xc cheb3_yc
        cheb3 cheb3 cheb3 cheb3
        [[1; 2]]
        [[3 / 2]]
        [[1 / 2]]
        (Interior_of (3%nat, 3%nat))
        (Boundary_of (Interior_of (3%nat, 3%nat)))
        [[0; 0; 1]; [0; 0; 1]; [0; 0; 1]]
        (1%nat, 1%nat)
        [] [] [] [].

(** What the constructor establishes and the solver relies on: there are
    training samples, the projections are an (M, NSample) array with M > 0,
    and the statistics are (1, M) arrays. *)
Definition solver_ready (s : CustomedEqs) : Prop :=
  parameters s <> []
  /\ (0 < M s)%nat
  /\ shape2 (M s) (length (parameters s)) (projections s)
  /\ shape2 1 (M s) (proj_mean s)
  /\ shape2 1 (M s) (proj_std s).

(** The residual in the words of the specification: for each mode [k],
    [lam^T A_k lam + (B lam)_k - source_k]. *)
Definition quadratic_form (Ak : grid) (lam : vec) : R :=
  dot (map (fun j => dot lam (column j Ak)) (seq 0 (ncols Ak))) lam.

Definition spec_residual (A : tensor3) (B : grid) (source lam : vec) : vec :=
  vsub (vadd (map (fun Ak => quadratic_form Ak lam) A)
             (map (fun Bk => dot Bk lam) B))
       source.

(** ** The rest of the constructor *)

(** [l[1:-1]] *)
Definition inner {A : Type} (l : list A) : list A :=
  firstn (length l - 2) (skipn 1 l).

(** [np.reshape] of the leading axis into [r] groups of [c] entries. *)
Definition regroup {A : Type} (r c : nat) (l : list A) : list (list A) :=
  map (fun a => firstn c (skipn (a * c) l)) (seq 0 r).

(** [ExtractInteriorSnapshots]: the rows of [Samples] are grouped as
    (Nx, Ny, NVARLOAD), the slice [[1:-1, 1:-1, 0:NVAR, :]] is taken and
    the three leading axes are flattened again. *)
Definition ExtractInteriorSnapshots (self : CustomedEqs) (Samples : grid) : grid :=
  let '(Nx, Ny) := FieldShape self in
  let t := regroup Nx Ny (regroup (Nx * Ny) NVARLOAD Samples) in
  concat (concat (map (fun plane => map (firstn NVAR) (inner plane)) (inner t))).

(** [np.reshape(self.Samples[1::NVARLOAD,0], self.FieldShape)*self.Boundary] *)
Definition uBC_of (Samples : grid) (shape : nat * nat) (boundary : grid) : grid :=
  let '(Nx, Ny) := shape in
  (reshape2 Nx Ny (strided 1 NVARLOAD (column 0 Samples)) .* boundary)%G.

(** The block "reduced-order equations" of [__init__], up to the tensors:
    the masks, the boundary profile and the interior shape. *)
Definition init_geometry (Samples : grid) (s : CustomedEqs) : CustomedEqs :=
  let interior := Interior_of (FieldShape s) in
  let boundary := Boundary_of interior in
  mkEqs (FieldShape s) (parameters s) (design_space s) (ValidationParameters s)
        (ValidationSamples s) (Modes s) (M s) (Chby_xc s) (Chby_yc s)
        (dxp s) (dyp s) (dx s) (dy s) (projections s) (proj_mean s) (proj_std s)
        interior boundary (uBC_of Samples (FieldShape s) boundary)
        ((fst (FieldShape s) - 2)%nat, (snd (FieldShape s) - 2)%nat)
        (Beqs s) (Bbc s) (Aeqs s) (Abc s).

(** [np.matmul(self.Modes.T, self.ExtractInteriorSnapshots(self.Samples))] *)
Definition init_projections (Samples : grid) (s : CustomedEqs) : grid :=
  matmul (transpose (Modes s)) (ExtractInteriorSnapshots s Samples).

(** The last two statements of [__init__]: the projections of the
    validation set and their error; the two values are the ones stored in
    [self.lamda_proj] and [self.ProjError]. *)
Definition init_ProjError : Py (grid * (vec * R)) :=
  (self <- get_self ;;
   let lamda_proj := matmul (transpose (ValidationSamples self)) (Modes self) in
   ProjError <- GetError lamda_proj ;;
   ret (lamda_proj, ProjError))%py.

(** ** The surrogate network: [u_net], [loss_NN], [loss_PINN] *)

(** [g op r] for [r] of shape (1, P): the row of [r] against every row. *)
Definition bcast_row (f : R -> R -> R) (g r : grid) : grid :=
  match r with
  | [row] => map (fun grow => zip_with f grow row) g
  | _ => emap2 f g r
  end.

(** [(x-(self.ub+self.lb)/2)/(self.ub-self.lb)*2] *)
Definition scale_input (net : CustomedNet) (x : grid) : grid :=
  let mid := emap (fun y => y / 2) (net_ub net .+ net_lb net)%G in
  emap (fun y => y * 2)
       (bcast_row Rdiv (bcast_row Rminus x mid) (net_ub net .- net_lb net)%G).

Section Surrogate.
(** [self.unet] and [self.lossfun], of the base class [POD_Net]. *)
Variable unet : grid -> grid.
Variable lossfun : grid -> grid -> R.

Definition u_net (net : CustomedNet) (x : grid) : grid :=
  let x := scale_input net x in
  let out := unet x in
  bcast_row Rplus (bcast_row Rmult out (net_proj_std net)) (net_proj_mean net).

Definition forward (net : CustomedNet) (x : grid) : grid := u_net net x.

Definition loss_NN (net : CustomedNet) (xlabel ylabel : grid) : R :=
  let y_pred := u_net net xlabel in
  lossfun (bcast_row Rdiv ylabel (net_proj_std net))
          (bcast_row Rdiv y_pred (net_proj_std net)).

Definition loss_PINN (net : CustomedNet) (x : grid) (weight : R) : R :=
  loss_Eqs cos sin lossfun net x (u_net net x) weight.
End Surrogate.

(** A grid all of whose entries are zero. *)
Definition all_zero (g : grid) : Prop := Forall (Forall (fun x => x = 0)) g.

(** An interior point of a grid of shape [shape]. *)
Definition interior_point (shape : nat * nat) (a b : nat) : Prop :=
  (1 <= a)%nat /\ (a < fst shape - 1)%nat /\ (1 <= b)%nat /\ (b < snd shape - 1)%nat.

(** A snapshot matrix for the 3 x 3 cavity: one sample, whose entry in row
    [r] (grid point [r / 6], loaded variable [r mod 6]) is [r]. *)
Definition samples3 : grid := map (fun r => [INR r]) (seq 0 54).

(** [T[t, a, b, c]] of a 4-D array. *)
Definition get4 (T : tensor4) (t a b c : nat) : R := get3 (nth t T []) a b c.

(** The 3 x 3 cavity with the lid at rest: the geometry block of the
    constructor run on snapshots that vanish. *)
Definition cavity3_at_rest : CustomedEqs := init_geometry (zeros2 54 1) cavity3.

(** The reduced tensors as [getB] and [getA] leave them: the broadcasts of
    [POD_Gfsolve] and [loss_Eqs] need these shapes. *)
Definition tensors_ready (s : CustomedEqs) : Prop :=
  shape4 4 (M s) (M s) (M s) (Aeqs s)
  /\ shape3 4 (M s) (M s) (Abc s)
  /\ shape3 7 (M s) (M s) (Beqs s)
  /\ shape2 7 (M s) (Bbc s).

(** ** binary64 *)

(** The finite numbers of IEEE 754 binary64: [m * 2^e] for an integer [m]
    of magnitude below 2^53 and an exponent from -1074 to 971. *)
Definition binary64 (d : R) : Prop :=
  exists (m : Z) (k : nat),
    (Z.abs m < 2 ^ 53)%Z
    /\ (((k <= 1074)%nat /\ d = IZR m / 2 ^ k)
        \/ ((k <= 971)%nat /\ d = IZR m * 2 ^ k)).

(** [d] is a binary64 number nearest to [x]: what an operation whose exact
    result is [x] returns when it rounds to nearest (either neighbour on a
    tie; overflow does not occur in what follows). *)
Definition rounds (x d : R) : Prop :=
  binary64 d /\ forall d', binary64 d' -> Rabs (x - d) <= Rabs (x - d').

(** An expression in binary64 arithmetic: the set of the values it may
    take. *)
Definition f64 : Type := R -> Prop.

Definition f64_lit (x : R) : f64 := rounds x.

Definition f64_op1 (op : R -> R) (A : f64) : f64 :=
  fun d => exists a, A a /\ rounds (op a) d.

Definition f64_op2 (op : R -> R -> R) (A B : f64) : f64 :=
  fun d => exists a b, A a /\ B b /\ rounds (op a b) d.

(** A quotient with a finite result: the divisor is not zero. *)
Definition f64_div (A B : f64) : f64 :=
  fun d => exists a b, A a /\ B b /\ b <> 0 /\ rounds (a / b) d.

#[export] Instance F64Backend : Backend f64 := {
  lit := f64_lit;
  add := f64_op2 Rplus;
  sub := f64_op2 Rminus;
  mul := f64_op2 Rmult;
  div := f64_div;
  neg := f64_op1 Ropp
}.

(** [np.cos], [np.sin] on binary64, taken to return a binary64 number
    nearest to the exact value (the C library behind them does not promise
    this for every argument). *)
Definition cos64 : f64 -> f64 := f64_op1 cos.
Definition sin64 : f64 -> f64 := f64_op1 sin.

(** [90/180*3.14159265359] in binary64: the values of
    [mul (div (lit 90) (lit 180)) (lit PI_CODE)]. *)
Definition Theta64 : f64 := mul (div (lit 90) (lit 180)) (lit PI_CODE).

(** * Properties *)

(** ** Bounds on pi *)

Lemma atan_series_bounds (x : R) (N : nat) :
  0 < x < 1 ->
  atan_sum x (S (2 * N)) <= atan x <= atan_sum x (2 * N).
Proof.
  intros Hx. unfold atan_sum.
  assert (H01 : 0 <= x <= 1) by lra.
  rewrite atan_eq_ps_atan by exact Hx.
  unfold ps_atan.
  destruct (in_int x) as [Hin | Hout]; [ | exfalso; apply Hout; lra ].
  destruct (ps_atan_exists_1 x Hin) as [v Pv].
  apply (alternated_series_ineq (Ratan_seq x) v N).
  - apply Ratan_seq_decreasing; exact H01.
  - apply Ratan_seq_converging; exact H01.
  - exact Pv.
Qed.

Ltac eval_atan_sum :=
  unfold atan_sum, tg_alt, Ratan_seq;
  cbn [sum_f_R0 Nat.mul Nat.add]; simpl.

Lemma atan_5_bounds :
  0.197395559849880 < atan (/ 5) < 0.197395559849881.
Proof.
  destruct (atan_series_bounds (/ 5) 5) as [Hl Hu]; [ lra | ].
  split.
  - eapply Rlt_le_trans; [ | exact Hl ]. eval_atan_sum. lra.
  - eapply Rle_lt_trans; [ exact Hu | ]. eval_atan_sum. lra.
Qed.

Lemma atan_239_bounds :
  0.0041840760020747 < atan (/ 239) < 0.0041840760020748.
Proof.
  destruct (atan_series_bounds (/ 239) 1) as [Hl Hu]; [ lra | ].
  split.
  - eapply Rlt_le_trans; [ | exact Hl ]. eval_atan_sum. lra.
  - eapply Rle_lt_trans; [ exact Hu | ]. eval_atan_sum. lra.
Qed.

(** Pi to thirteen decimal places. *)
Lemma PI_bounds : 3.1415926535897 < PI < 3.1415926535899.
Proof.
  pose proof Machin_4_5_239 as HM.
  pose proof atan_5_bounds as H5.
  pose proof atan_239_bounds as H239.
  lra.
Qed.

(** The constant of the code is a little larger than pi. *)
Lemma PI_CODE_above : 0.0000000000001 < PI_CODE - PI < 0.0000000000003.
Proof. pose proof PI_bounds. unfold PI_CODE. lra. Qed.

(** ** CoordinateMap *)

(** The angle of 90 degrees, in the radians of the code, is a little more
    than pi/2. *)
Lemma Theta_90_offset :
  exists d, 90 / 180 * PI_CODE = PI / 2 + d /\ 0.00000000000005 < d < 0.00000000000015.
Proof.
  exists ((PI_CODE - PI) / 2). pose proof PI_CODE_above. split; lra.
Qed.

Lemma cos_near_1 (d : R) : 0 < d < 1 -> 1 - d * d <= cos d <= 1.
Proof.
  intros Hd.
  pose proof (COS_bound d) as [_ Hc1].
  pose proof (sin2_cos2 d) as Hsc. unfold Rsqr in Hsc.
  pose proof PI_bounds as HPI.
  assert (Hs0 : 0 < sin d) by (apply sin_gt_0; lra).
  assert (Hsd : sin d < d) by (apply sin_lt_x; lra).
  assert (Hc0 : 0 < cos d) by (apply cos_gt_0; lra).
  split; [ | exact Hc1 ].
  assert (Hss : sin d * sin d < d * d) by nra.
  nra.
Qed.

Lemma getJac_row (re ang : R) :
  getJac cos sin [[re; ang]]
  = ([[2]], [[0]],
     [[- cos (ang / 180 * PI_CODE) / sin (ang / 180 * PI_CODE) / xCoef]],
     [[1 / yCoef / sin (ang / 180 * PI_CODE)]]).
Proof.
  unfold getJac, Theta_of, emap, slice_cols. simpl.
  repeat f_equal; unfold xCoef; field.
Qed.

Lemma Rsign_pos (r : R) : 0 < r -> Rsign r = Gt.
Proof.
  intros H. unfold Rsign.
  destruct (Rlt_dec r 0); [ lra | ]. destruct (Rlt_dec 0 r); [ reflexivity | lra ].
Qed.

Lemma Rsign_neg (r : R) : r < 0 -> Rsign r = Lt.
Proof. intros H. unfold Rsign. destruct (Rlt_dec r 0); [ reflexivity | lra ]. Qed.

Lemma Rsign_zero : Rsign 0 = Eq.
Proof.
  unfold Rsign. destruct (Rlt_dec 0 0); [ lra | reflexivity ].
Qed.

Lemma Rsign_nonzero (r : R) : r <> 0 -> Rsign r <> Eq.
Proof.
  intros H. destruct (Rtotal_order r 0) as [Hlt | [Heq | Hgt]].
  - rewrite Rsign_neg by exact Hlt. discriminate.
  - contradiction.
  - rewrite Rsign_pos by exact Hgt. discriminate.
Qed.

Lemma xdiv_finite (a b : R) : b <> 0 -> xdiv (XFin a) (XFin b) = XFin (a / b).
Proof.
  intros Hb. unfold xdiv. pose proof (Rsign_nonzero b Hb).
  destruct (Rsign b); [ contradiction | reflexivity | reflexivity ].
Qed.

Lemma xdiv_by_zero (a : R) : xdiv (XFin a) (XFin 0) = xinf_of_sign (Rsign a).
Proof. unfold xdiv. rewrite Rsign_zero. reflexivity. Qed.

(** The first two entries and the shape of the other two, over the
    extended reals. *)
Lemma getJac_xreal_row (re ang : R) :
  getJac (xlift cos) (xlift sin) [[XFin re; XFin ang]]
  = ([[XFin 2]], [[XFin 0]],
     [[xdiv (xdiv (XFin (- cos (ang / 180 * PI_CODE)))
                  (XFin (sin (ang / 180 * PI_CODE)))) (XFin xCoef)]],
     [[xdiv (XFin (1 / yCoef)) (XFin (sin (ang / 180 * PI_CODE)))]]).
Proof.
  unfold getJac, Theta_of, emap, slice_cols.
  cbn [map firstn skipn Nat.sub div mul add neg lit XBackend].
  rewrite (xdiv_finite ang 180) by lra.
  cbn [xmul xadd xlift xneg].
  repeat f_equal; unfold xCoef; field.
Qed.

Lemma sin_PI_CODE_neg : sin PI_CODE < 0.
Proof.
  pose proof PI_CODE_above. pose proof PI_bounds.
  apply sin_lt_0; lra.
Qed.

(** C6, as amended.  [getJac] always returns its four arrays: there is no
    guard.  With [th = angle/180*3.14159265359]: when [sin th] is zero (it is
    at the angle 0) Jac21 and Jac22 are infinite; otherwise they are the
    finite quotients.  The divisor is positive for [th] strictly between 0
    and pi, and it is not zero at 180 degrees, where [th] is the constant of
    the code and not pi. *)
Theorem getJac_division_by_sin (re ang : R) :
  exists j21 j22 : xreal,
    getJac (xlift cos) (xlift sin) [[XFin re; XFin ang]]
    = ([[XFin 2]], [[XFin 0]], [[j21]], [[j22]])
    /\ (sin (ang / 180 * PI_CODE) = 0 -> is_inf j21 = true /\ j22 = XPInf)
    /\ (sin (ang / 180 * PI_CODE) <> 0 ->
        j21 = XFin (- cos (ang / 180 * PI_CODE) / sin (ang / 180 * PI_CODE) / xCoef)
        /\ j22 = XFin (1 / yCoef / sin (ang / 180 * PI_CODE)))
    /\ (ang = 0 -> sin (ang / 180 * PI_CODE) = 0)
    /\ (0 < ang / 180 * PI_CODE < PI -> 0 < sin (ang / 180 * PI_CODE))
    /\ (ang = 180 -> sin (ang / 180 * PI_CODE) < 0).
Proof.
  rewrite getJac_xreal_row.
  eexists; eexists; split; [ reflexivity | ].
  set (th := ang / 180 * PI_CODE).
  split; [ | split; [ | split; [ | split ] ] ].
  - intros Hs. rewrite Hs, !xdiv_by_zero.
    assert (Hc : cos th = 1 \/ cos th = -1).
    { pose proof (sin2_cos2 th) as H. unfold Rsqr in H. rewrite Hs in H.
      assert (Hq : (cos th - 1) * (cos th + 1) = 0) by nra.
      apply Rmult_integral in Hq. destruct Hq; [ left | right ]; lra. }
    split.
    + destruct Hc as [Hc | Hc]; rewrite Hc.
      * rewrite Rsign_neg by lra. simpl. unfold xCoef.
        rewrite Rsign_pos by lra. reflexivity.
      * rewrite Rsign_pos by lra. simpl. unfold xCoef.
        rewrite Rsign_pos by lra. reflexivity.
    + unfold yCoef. rewrite Rsign_pos by lra. reflexivity.
  - intros Hs. rewrite !xdiv_finite; try exact Hs; [ split; reflexivity | ].
    unfold xCoef; lra.
  - intros Ha. unfold th. rewrite Ha.
    replace (0 / 180 * PI_CODE) with 0 by lra. apply sin_0.
  - intros [H0 H1]. apply sin_gt_0; assumption.
  - intros Ha. unfold th. rewrite Ha.
    replace (180 / 180 * PI_CODE) with PI_CODE by lra. apply sin_PI_CODE_neg.
Qed.

Lemma getJac_division_by_sin_witness :
  exists j21 : xreal,
    getJac (xlift cos) (xlift sin) [[XFin 200; XFin 0]]
    = ([[XFin 2]], [[XFin 0]], [[j21]], [[XPInf]]) /\ is_inf j21 = true.
Proof.
  destruct (getJac_division_by_sin 200 0) as [j21 [j22 [Heq [Hz [_ [H0 _]]]]]].
  destruct (Hz (H0 eq_refl)) as [Hinf H22].
  exists j21. rewrite Heq, H22. split; [ reflexivity | exact Hinf ].
Defined.

(** C6, as stated, fails at 180 degrees: the divisor is not zero there and
    both entries are finite. *)
Lemma getJac_angle180_not_singular :
  sin (180 / 180 * PI_CODE) <> 0
  /\ exists j21 j22 : R,
       getJac (xlift cos) (xlift sin) [[XFin 200; XFin 180]]
       = ([[XFin 2]], [[XFin 0]], [[XFin j21]], [[XFin j22]]).
Proof.
  assert (Hs : sin (180 / 180 * PI_CODE) <> 0).
  { replace (180 / 180 * PI_CODE) with PI_CODE by lra.
    pose proof sin_PI_CODE_neg. lra. }
  split; [ exact Hs | ].
  rewrite getJac_xreal_row.
  rewrite !xdiv_finite; try exact Hs; [ | unfold xCoef; lra ].
  eexists; eexists; reflexivity.
Qed.

(** ** Lists, loops and shapes *)

Lemma length_upd {A : Type} (i : nat) (f : A -> A) (l : list A) :
  length (upd i f l) = length l.
Proof.
  revert i; induction l as [ | x t IH ]; intros [ | i ]; simpl; auto.
Qed.

Lemma upd_Forall {A : Type} (P : A -> Prop) (i : nat) (f : A -> A) (l : list A) :
  (forall x, P x -> P (f x)) -> Forall P l -> Forall P (upd i f l).
Proof.
  intros Hf. revert i; induction l as [ | x t IH ]; intros i Hl.
  - destruct i; constructor.
  - inversion Hl; subst. destruct i; simpl; constructor; auto.
Qed.

Lemma nth_upd_same {A : Type} (i : nat) (f : A -> A) (l : list A) (d : A) :
  f d = d -> nth i (upd i f l) d = f (nth i l d).
Proof.
  intros Hd. revert i; induction l as [ | x t IH ]; intros [ | i ]; simpl; auto.
Qed.

Lemma nth_upd_in_range {A : Type} (i : nat) (f : A -> A) (l : list A) (d : A) :
  (i < length l)%nat -> nth i (upd i f l) d = f (nth i l d).
Proof.
  revert i. induction l as [ | x t IH ]; intros [ | i ] H; simpl in *;
    try lia; auto.
  apply IH. lia.
Qed.

Lemma nth_upd_other {A : Type} (i j : nat) (f : A -> A) (l : list A) (d : A) :
  i <> j -> nth j (upd i f l) d = nth j l d.
Proof.
  revert i j; induction l as [ | x t IH ]; intros [ | i ] [ | j ] Hij; simpl; auto.
  contradiction.
Qed.

Lemma for_range_inv {St : Type} (P : St -> Prop) (n : nat)
  (body : nat -> St -> St) (s : St) :
  P s -> (forall i acc, (i < n)%nat -> P acc -> P (body i acc)) ->
  P (for_range n body s).
Proof.
  unfold for_range. intros Hs Hbody.
  assert (Hin : forall i, In i (seq 0 n) -> (i < n)%nat).
  { intros i Hi. apply in_seq in Hi. lia. }
  revert s Hs. induction (seq 0 n) as [ | i l IH ]; intros s Hs; simpl.
  - exact Hs.
  - apply IH.
    + intros j Hj. apply Hin. right; exact Hj.
    + apply Hbody; [ apply Hin; left; reflexivity | exact Hs ].
Qed.

Lemma shape1_zeros (n : nat) : shape1 n (zeros1 n).
Proof. apply repeat_length. Qed.

Lemma Forall_repeat {A : Type} (P : A -> Prop) (x : A) (n : nat) :
  P x -> Forall P (repeat x n).
Proof. intros H. induction n; simpl; constructor; auto. Qed.

Lemma shape2_zeros (n m : nat) : shape2 n m (zeros2 n m).
Proof.
  split; [ apply repeat_length | apply Forall_repeat, shape1_zeros ].
Qed.

Lemma shape3_zeros (n m k : nat) : shape3 n m k (zeros3 n m k).
Proof.
  split; [ apply repeat_length | apply Forall_repeat, shape2_zeros ].
Qed.

Lemma shape4_zeros (n m k l : nat) : shape4 n m k l (zeros4 n m k l).
Proof.
  split; [ apply repeat_length | apply Forall_repeat, shape3_zeros ].
Qed.

Lemma shape1_set1 (n i : nat) (x : R) (v : vec) :
  shape1 n v -> shape1 n (set1 i x v).
Proof. unfold shape1, set1. rewrite length_upd. auto. Qed.

Lemma shape2_set2 (n m a b : nat) (x : R) (g : grid) :
  shape2 n m g -> shape2 n m (set2 a b x g).
Proof.
  intros [Hl Hr]. split; unfold set2.
  - rewrite length_upd; exact Hl.
  - apply upd_Forall; [ intros v; apply shape1_set1 | exact Hr ].
Qed.

Lemma shape3_set3 (n m k t a b : nat) (x : R) (T : tensor3) :
  shape3 n m k T -> shape3 n m k (set3 t a b x T).
Proof.
  intros [Hl Hr]. split; unfold set3.
  - rewrite length_upd; exact Hl.
  - apply upd_Forall; [ intros g; apply shape2_set2 | exact Hr ].
Qed.

Lemma shape4_set4 (n m k l t a b c : nat) (x : R) (T : tensor4) :
  shape4 n m k l T -> shape4 n m k l (set4 t a b c x T).
Proof.
  intros [Hl Hr]. split; unfold set4.
  - rewrite length_upd; exact Hl.
  - apply upd_Forall; [ intros g; apply shape3_set3 | exact Hr ].
Qed.

Create HintDb shapes.

#[local] Hint Resolve shape1_zeros shape2_zeros shape3_zeros shape4_zeros
  shape2_set2 shape3_set3 shape4_set4 : shapes.

Lemma getA_shapes (s : CustomedEqs) :
  shape4 4 (M s) (M s) (M s) (fst (getA s)) /\ shape3 4 (M s) (M s) (snd (getA s)).
Proof.
  unfold getA, Compute_d_d1.
  apply for_range_inv; [ simpl; auto with shapes | ].
  intros j acc _ Hacc.
  destruct (Mode2Field s (column j (Modes s))) as [[pj uj] vj].
  apply for_range_inv; [ exact Hacc | ].
  intros k acc1 _ Hacc1.
  destruct (Mode2Field s (column k (Modes s))) as [[pk uk] vk].
  apply for_range_inv; [ exact Hacc1 | ].
  intros i [A4 A3] _ [HA4 HA3].
  destruct (Mode2Field s (column i (Modes s))) as [[pi ui] vi].
  simpl in *. split; auto 10 with shapes.
Qed.

Lemma getB_shapes (s : CustomedEqs) :
  shape3 7 (M s) (M s) (fst (getB s)) /\ shape2 7 (M s) (snd (getB s)).
Proof.
  unfold getB, Compute_d_d1, Compute_d_d2, Compute_d_d1p.
  apply for_range_inv; [ simpl; auto with shapes | ].
  intros j acc _ Hacc.
  destruct (Mode2Field s (column j (Modes s))) as [[pj uj] vj].
  apply for_range_inv; [ exact Hacc | ].
  intros i [B3 B2] _ [HB3 HB2].
  destruct (Mode2Field s (column i (Modes s))) as [[pi ui] vi].
  simpl in *. split; auto 10 with shapes.
Qed.

(** C9.  The tensors that the constructor stores have the shapes
    (4, M, M, M), (4, M, M), (7, M, M) and (7, M) for every reduction order
    M, and they do not depend on the design parameters: replacing the
    training parameters, the design-space box and the validation set of the
    object by any others leaves [getA] and [getB] unchanged. *)
Theorem reduced_tensor_shapes (s : CustomedEqs) :
  shape4 4 (M s) (M s) (M s) (Aeqs (init_reduced s))
  /\ shape3 4 (M s) (M s) (Abc (init_reduced s))
  /\ shape3 7 (M s) (M s) (Beqs (init_reduced s))
  /\ shape2 7 (M s) (Bbc (init_reduced s))
  /\ forall p ds vp vs : grid,
       getA (with_design p ds vp vs s) = getA s
       /\ getB (with_design p ds vp vs s) = getB s.
Proof.
  unfold init_reduced.
  pose proof (getB_shapes s) as [HB3 HB2].
  pose proof (getA_shapes (with_reduced (getB s) (Aeqs s, Abc s) s)) as [HA4 HA3].
  simpl in *.
  split; [ exact HA4 | ]. split; [ exact HA3 | ].
  split; [ exact HB3 | ]. split; [ exact HB2 | ].
  intros p ds vp vs. split; reflexivity.
Qed.

(** ** ReducedOperatorBuilder: the boundary tensors *)

Lemma fold_left_Rplus_zeros (l : vec) (a : R) :
  Forall (fun x => x = 0) l -> fold_left Rplus l a = a.
Proof.
  intros H. revert a. induction H as [ | x t Hx _ IH ]; intros a; simpl.
  - reflexivity.
  - rewrite IH. lra.
Qed.

Lemma sum_all_zero (g : grid) :
  Forall (Forall (fun x => x = 0)) g -> sum_all g = 0.
Proof.
  intros H. unfold sum_all. apply fold_left_Rplus_zeros.
  induction H as [ | r t Hr _ IH ]; simpl.
  - constructor.
  - apply Forall_app; split; assumption.
Qed.

Lemma zip_with_Forall {A B C : Type} (P : C -> Prop) (f : A -> B -> C)
  (l : list A) (l' : list B) :
  (forall x y, In x l -> In y l' -> P (f x y)) -> Forall P (zip_with f l l').
Proof.
  revert l'. induction l as [ | x t IH ]; intros [ | y t' ] H; simpl;
    try constructor.
  - apply H; left; reflexivity.
  - apply IH. intros a b Ha Hb. apply H; right; assumption.
Qed.

(** [( self.Interior*( 0*pi ) ).sum()] is zero. *)
Lemma isum_zero_scaled (s : CustomedEqs) (g : grid) : isum s (0 *: g)%G = 0.
Proof.
  unfold isum. apply sum_all_zero.
  unfold gmul, emap2, gscale, emap.
  apply zip_with_Forall. intros r r' _ Hr'.
  apply in_map_iff in Hr' as [r0 [<- _]].
  apply zip_with_Forall. intros x y _ Hy.
  apply in_map_iff in Hy as [y0 [<- _]]. lra.
Qed.

Lemma set1_zeros (i n : nat) : set1 i 0 (zeros1 n) = zeros1 n.
Proof.
  unfold set1, zeros1. revert i. induction n as [ | n IH ]; intros [ | i ]; simpl;
    try reflexivity.
  f_equal. apply IH.
Qed.

Lemma nth_set2_other (t j i : nat) (x : R) (g : grid) :
  t <> j -> nth j (set2 t i x g) [] = nth j g [].
Proof. intros H. unfold set2. apply nth_upd_other. exact H. Qed.

Lemma nth_set2_same (j i : nat) (x : R) (g : grid) :
  nth j (set2 j i x g) [] = set1 i x (nth j g []).
Proof. unfold set2. apply nth_upd_same. destruct i; reflexivity. Qed.

Lemma for_range_inv_idx {St : Type} (P : nat -> St -> Prop) (n : nat)
  (body : nat -> St -> St) (s : St) :
  P 0%nat s ->
  (forall i acc, (i < n)%nat -> P i acc -> P (S i) (body i acc)) ->
  P n (for_range n body s).
Proof.
  unfold for_range. intros Hs Hbody.
  assert (H : forall len start acc,
    (start + len <= n)%nat -> P start acc ->
    P (start + len)%nat (fold_left (fun acc i => body i acc) (seq start len) acc)).
  { induction len as [ | len IH ]; intros start acc Hle Hacc; simpl.
    - rewrite Nat.add_0_r. exact Hacc.
    - replace (start + S len)%nat with (S start + len)%nat by lia.
      apply IH; [ lia | ]. apply Hbody; [ lia | exact Hacc ]. }
  apply (H n 0%nat s); [ lia | exact Hs ].
Qed.

Lemma get2_set2_same (n m a b : nat) (x : R) (g : grid) :
  shape2 n m g -> (a < n)%nat -> (b < m)%nat -> get2 (set2 a b x g) a b = x.
Proof.
  intros [Hl Hr] Ha Hb. unfold get2, get1, set2, set1.
  rewrite nth_upd_in_range by lia.
  rewrite nth_upd_in_range; [ reflexivity | ].
  rewrite Forall_forall in Hr. rewrite (Hr (nth a g [])); [ exact Hb | ].
  apply nth_In. lia.
Qed.

Lemma get2_set2_other (a b a' b' : nat) (x : R) (g : grid) :
  (a, b) <> (a', b') -> get2 (set2 a b x g) a' b' = get2 g a' b'.
Proof.
  intros Hne. unfold get2, get1, set2, set1.
  destruct (Nat.eq_dec a a') as [<- | Ha].
  - rewrite nth_upd_same by (destruct b; reflexivity).
    apply nth_upd_other. congruence.
  - rewrite nth_upd_other by exact Ha. reflexivity.
Qed.

Lemma get3_set3_same (n m k t a b : nat) (x : R) (T : tensor3) :
  shape3 n m k T -> (t < n)%nat -> (a < m)%nat -> (b < k)%nat ->
  get3 (set3 t a b x T) t a b = x.
Proof.
  intros [Hl Hr] Ht Ha Hb. unfold get3, set3.
  rewrite nth_upd_in_range by lia.
  apply (get2_set2_same m k); [ | exact Ha | exact Hb ].
  rewrite Forall_forall in Hr. apply Hr. apply nth_In. lia.
Qed.

Lemma get3_set3_other (t a b t' a' b' : nat) (x : R) (T : tensor3) :
  (t, a, b) <> (t', a', b') -> get3 (set3 t a b x T) t' a' b' = get3 T t' a' b'.
Proof.
  intros Hne. unfold get3, set3.
  destruct (Nat.eq_dec t t') as [<- | Ht].
  - rewrite nth_upd_same by (destruct a; reflexivity).
    apply get2_set2_other. congruence.
  - rewrite nth_upd_other by exact Ht. reflexivity.
Qed.

(** The slots 2 and 3 of [Abc], entry by entry. *)
Lemma getA_Abc_slots (s : CustomedEqs) (k i : nat) :
  (k < M s)%nat -> (i < M s)%nat ->
  let uk := snd (fst (Mode2Field s (column k (Modes s)))) in
  let vi := snd (Mode2Field s (column i (Modes s))) in
  get3 (snd (getA s)) 2 k i = isum s (vi .* Compute_d_dxc s (uBC s) .* uk)%G
  /\ get3 (snd (getA s)) 3 k i = isum s (vi .* Compute_d_dyc s (uBC s) .* uk)%G.
Proof.
  intros Hk Hi uk vi. subst uk vi.
  set (V2 := fun k i =>
    isum s (snd (Mode2Field s (column i (Modes s))) .* Compute_d_dxc s (uBC s)
            .* snd (fst (Mode2Field s (column k (Modes s)))))%G).
  set (V3 := fun k i =>
    isum s (snd (Mode2Field s (column i (Modes s))) .* Compute_d_dyc s (uBC s)
            .* snd (fst (Mode2Field s (column k (Modes s)))))%G).
  set (Inv := fun (D : nat -> nat -> Prop) (acc : tensor4 * tensor3) =>
    shape3 4 (M s) (M s) (snd acc)
    /\ forall k i, D k i -> (k < M s)%nat -> (i < M s)%nat ->
         get3 (snd acc) 2 k i = V2 k i /\ get3 (snd acc) 3 k i = V3 k i).
  assert (Hweak : forall (D D' : nat -> nat -> Prop) acc,
            (forall k i, (k < M s)%nat -> (i < M s)%nat -> D k i -> D' k i) ->
            Inv D' acc -> Inv D acc).
  { intros D D' acc HD [Hsh Hval]. split; [ exact Hsh | ].
    intros k' i' H Hk' Hi'. apply Hval; auto. }
  assert (Hfinal : Inv (fun _ _ => (0 < M s)%nat) (getA s)).
  { unfold getA, Compute_d_d1.
    apply (for_range_inv_idx (fun j acc => Inv (fun _ _ => (0 < j)%nat) acc)).
    { split; [ simpl; auto with shapes | intros ? ? H; lia ]. }
    intros j acc Hj Hacc.
    destruct (Mode2Field s (column j (Modes s))) as [[pj uj] vj].
    apply (Hweak _ (fun k' _ => (0 < j)%nat \/ (k' < M s)%nat));
      [ intros; right; assumption | ].
    apply (for_range_inv_idx
             (fun k0 acc0 => Inv (fun k' _ => (0 < j)%nat \/ (k' < k0)%nat) acc0)).
    { apply (Hweak _ _ _ (fun k' i' _ _ H => match H with
                                             | or_introl H0 => H0
                                             | or_intror H1 =>
                                                 False_ind _ (Nat.nlt_0_r k' H1)
                                             end) Hacc). }
    intros k0 acc0 Hk0 Hacc0.
    destruct (Mode2Field s (column k0 (Modes s))) as [[pk uk] vk] eqn:Hmk.
    apply (Hweak _ (fun k' i' => (0 < j)%nat \/ (k' < k0)%nat
                                 \/ (k' = k0 /\ (i' < M s)%nat))).
    { intros k' i' Hk' Hi' [H | H]; [ left; exact H | ].
      destruct (Nat.eq_dec k' k0) as [-> | Hne];
        [ right; right; split; [ reflexivity | exact Hi' ] | right; left; lia ]. }
    apply (for_range_inv_idx
             (fun i0 acc1 =>
                Inv (fun k' i' => (0 < j)%nat \/ (k' < k0)%nat
                                  \/ (k' = k0 /\ (i' < i0)%nat)) acc1)).
    { apply (Hweak _ (fun k' _ => (0 < j)%nat \/ (k' < k0)%nat)); [ | exact Hacc0 ].
      intros k' i' _ _ [H | [H | [_ H]]]; [ left; exact H | right; exact H | lia ]. }
    intros i0 [A4 A3] Hi0 [Hsh Hval].
    destruct (Mode2Field s (column i0 (Modes s))) as [[pi ui] vi] eqn:Hmi.
    cbn [snd] in *. split; cbn [snd]; [ auto 10 with shapes | ].
    intros k' i' HD Hk' Hi'.
    destruct (Nat.eq_dec k' k0) as [-> | Hnk];
      [ destruct (Nat.eq_dec i' i0) as [-> | Hni] | ].
    - unfold V2, V3. rewrite Hmk, Hmi. cbn [fst snd]. split.
      + rewrite get3_set3_other by congruence.
        apply (get3_set3_same 4 (M s) (M s)); auto 10 with shapes.
      + apply (get3_set3_same 4 (M s) (M s)); auto 10 with shapes.
    - rewrite !get3_set3_other by congruence.
      apply Hval; auto. destruct HD as [H | [H | [_ H]]]; auto.
      right; right; split; [ reflexivity | lia ].
    - rewrite !get3_set3_other by congruence.
      apply Hval; auto. destruct HD as [H | [H | [H _]]]; auto. contradiction. }
  destruct Hfinal as [_ Hval]. apply Hval; auto. lia.
Qed.

(** C2, as amended.  The slots 2 and 3 of [Bbc] are exactly zero for every
    object and every M.  The slots 2 and 3 of [Abc] are not structural
    zeros: the entry [(k, i)] is the sum over the interior of the y-velocity
    of mode [i] times the derivative of the boundary profile [uBC] (along
    [xc] in slot 2, along [yc] in slot 3) times the x-velocity of mode
    [k]. *)
Theorem boundary_tensor_slots (s : CustomedEqs) :
  nth 2 (snd (getB s)) [] = zeros1 (M s)
  /\ nth 3 (snd (getB s)) [] = zeros1 (M s)
  /\ forall k i, (k < M s)%nat -> (i < M s)%nat ->
       let uk := snd (fst (Mode2Field s (column k (Modes s)))) in
       let vi := snd (Mode2Field s (column i (Modes s))) in
       get3 (snd (getA s)) 2 k i = isum s (vi .* Compute_d_dxc s (uBC s) .* uk)%G
       /\ get3 (snd (getA s)) 3 k i = isum s (vi .* Compute_d_dyc s (uBC s) .* uk)%G.
Proof.
  assert (HB : nth 2 (snd (getB s)) [] = zeros1 (M s)
               /\ nth 3 (snd (getB s)) [] = zeros1 (M s)).
  { unfold getB, Compute_d_d1, Compute_d_d2, Compute_d_d1p.
    apply for_range_inv with
      (P := fun acc : tensor3 * grid =>
              nth 2 (snd acc) [] = zeros1 (M s) /\ nth 3 (snd acc) [] = zeros1 (M s)).
    { split; reflexivity. }
    intros j acc _ Hacc.
    destruct (Mode2Field s (column j (Modes s))) as [[pj uj] vj].
    apply for_range_inv; [ exact Hacc | ].
    intros i [B3 B2] _ [H2 H3].
    destruct (Mode2Field s (column i (Modes s))) as [[pi ui] vi].
    simpl in H2, H3. simpl.
    rewrite !isum_zero_scaled.
    split.
    - rewrite !nth_set2_other by discriminate.
      rewrite nth_set2_same, !nth_set2_other by discriminate.
      rewrite H2. apply set1_zeros.
    - rewrite !nth_set2_other by discriminate.
      rewrite nth_set2_same, !nth_set2_other by discriminate.
      rewrite H3. apply set1_zeros. }
  destruct HB as [HB2 HB3].
  split; [ exact HB2 | ]. split; [ exact HB3 | ].
  intros k i Hk Hi. apply getA_Abc_slots; assumption.
Qed.

Lemma boundary_tensor_slots_witness :
  (0 < M cavity3)%nat
  /\ get3 (snd (getA cavity3)) 3 0 0
     = isum cavity3 (snd (Mode2Field cavity3 (column 0 (Modes cavity3)))
                     .* Compute_d_dyc cavity3 (uBC cavity3)
                     .* snd (fst (Mode2Field cavity3 (column 0 (Modes cavity3)))))%G.
Proof.
  assert (H : (0 < M cavity3)%nat) by exact (le_n 1).
  split; [ exact H | ].
  exact (proj2 (proj2 (proj2 (boundary_tensor_slots cavity3)) 0%nat 0%nat H H)).
Defined.

(** C2, as stated, fails: in the 3 x 3 cavity the entry [Abc[3,0,0]], the
    interior sum of [v * d(uBC)/dyc * u], is 6/25. *)
Lemma Abc_slot3_not_zero : get3 (snd (getA cavity3)) 3 0 0 = 6 / 25
  /\ get3 (snd (getA cavity3)) 3 0 0 <> 0.
Proof.
  assert (H : get3 (snd (getA cavity3)) 3 0 0 = 6 / 25).
  { cbv - [Rplus Rmult Rminus Rdiv Ropp Rinv IZR]. field. }
  split; [ exact H | rewrite H; lra ].
Qed.

(** ** FieldReconstructor: the boundary of the reconstructed fields *)

Lemma nth_zip_with_seq {A B : Type} (f : nat -> A -> B) (l : list A)
  (s i : nat) (d : B) (d' : A) :
  (i < length l)%nat ->
  nth i (zip_with f (seq s (length l)) l) d = f (s + i)%nat (nth i l d').
Proof.
  revert s i. induction l as [ | x t IH ]; intros s i Hi; simpl in *.
  - lia.
  - destruct i as [ | i ].
    + rewrite Nat.add_0_r. reflexivity.
    + rewrite IH by lia. f_equal. lia.
Qed.

Lemma length_zip_with_seq {A B : Type} (f : nat -> A -> B) (l : list A) (s : nat) :
  length (zip_with f (seq s (length l)) l) = length l.
Proof.
  revert s. induction l as [ | x t IH ]; intros s; simpl; [ reflexivity | ].
  rewrite IH. reflexivity.
Qed.

Lemma nth_imap {A B : Type} (f : nat -> A -> B) (l : list A) (i : nat) (d : B) (d' : A) :
  (i < length l)%nat -> nth i (imap f l) d = f i (nth i l d').
Proof. intros H. unfold imap. apply (nth_zip_with_seq f l 0 i d d' H). Qed.

Lemma length_imap {A B : Type} (f : nat -> A -> B) (l : list A) :
  length (imap f l) = length l.
Proof. apply length_zip_with_seq. Qed.

(** Outside of the block a slice assignment leaves the array as it was. *)
Lemma get2_assign_block_outside (r0 r1 c0 c1 : nat) (src : nat -> nat -> R)
  (base : grid) (a b : nat) :
  (r0 <=? a)%nat && (a <? r1)%nat && (c0 <=? b)%nat && (b <? c1)%nat = false ->
  get2 (assign_block r0 r1 c0 c1 src base) a b = get2 base a b.
Proof.
  intros Hout. unfold get2, get1, assign_block.
  destruct (Nat.lt_ge_cases a (length base)) as [Ha | Ha].
  - rewrite (nth_imap _ base a [] []) by exact Ha.
    destruct (Nat.lt_ge_cases b (length (nth a base []))) as [Hb | Hb].
    + rewrite (nth_imap _ _ b 0 0) by exact Hb. rewrite Hout. reflexivity.
    + rewrite !nth_overflow; [ reflexivity | exact Hb | rewrite length_imap; exact Hb ].
  - rewrite (nth_overflow (imap _ _)) by (rewrite length_imap; exact Ha).
    rewrite (nth_overflow base) by exact Ha. reflexivity.
Qed.

Lemma nth_repeat_default {A : Type} (x : A) (n i : nat) : nth i (repeat x n) x = x.
Proof. revert i. induction n; intros [ | i ]; simpl; auto. Qed.

Lemma get1_zeros (n i : nat) : get1 (zeros1 n) i = 0.
Proof. apply nth_repeat_default. Qed.

Lemma get2_zeros (n m a b : nat) : get2 (zeros2 n m) a b = 0.
Proof.
  unfold get2, zeros2.
  destruct (Nat.lt_ge_cases a n) as [Ha | Ha].
  - rewrite (nth_indep _ [] (zeros1 m)) by (rewrite repeat_length; exact Ha).
    rewrite nth_repeat_default. apply get1_zeros.
  - rewrite nth_overflow by (rewrite repeat_length; exact Ha).
    destruct b; reflexivity.
Qed.

Lemma boundary_not_interior (Nx Ny a b : nat) :
  boundary_point (Nx, Ny) a b ->
  (1 <=? a)%nat && (a <? Nx - 1)%nat && (1 <=? b)%nat && (b <? Ny - 1)%nat = false.
Proof.
  unfold boundary_point; cbn [fst snd]. intros [Ha [Hb H]].
  destruct (Nat.leb_spec 1 a), (Nat.ltb_spec a (Nx - 1)),
    (Nat.leb_spec 1 b), (Nat.ltb_spec b (Ny - 1)); cbn [andb]; try reflexivity;
    exfalso; lia.
Qed.

Lemma Mode2Field_boundary (s : CustomedEqs) (Vec : vec) (a b : nat) :
  boundary_point (FieldShape s) a b ->
  let '(p, u, v) := Mode2Field s Vec in
  get2 p a b = 0 /\ get2 u a b = 0 /\ get2 v a b = 0.
Proof.
  unfold Mode2Field. destruct (FieldShape s) as [Nx Ny].
  destruct (InteriorShape s) as [ir ic]. intros Hbd.
  pose proof (boundary_not_interior Nx Ny a b Hbd) as Hout.
  rewrite !get2_assign_block_outside by exact Hout.
  rewrite get2_zeros. auto.
Qed.

(** ** The relaxation loop of [GetPredFields] *)

Section RelaxationFacts.
Variable self : CustomedEqs.
Variables J11 J12 J21 J22 : R.
Variable omegai : grid.
Variable dt : R.

#[local] Abbreviation relax' := (relax self J11 J12 J21 J22 omegai dt).
#[local] Abbreviation iter' := (relax_iter self J11 J12 J21 J22 omegai dt).
#[local] Abbreviation converged' := (relax_converged self J11 J12 J21 J22 omegai dt).

Lemma relax_converged_shift (psi : grid) (j : nat) :
  converged' psi (S j) = converged' (relax_step self J11 J12 J21 J22 omegai dt psi) j.
Proof. reflexivity. Qed.

(** The loop returns the iterate after [k] passes, where [k] is the budget
    or one more than the first pass at which the test of the [break]
    holds; it raises nothing and prints progress lines only. *)
Lemma relax_run (budget : nat) :
  forall (it : N) (psi : grid) (s : CustomedEqs),
  exists (k : nat) (log : list event),
    relax' budget it psi s = mkRes s log (inr (iter' k psi))
    /\ (k <= budget)%nat
    /\ (0 < budget -> 0 < k)%nat
    /\ (forall j, (S j < k)%nat -> converged' psi j = false)
    /\ (k < budget -> converged' psi (k - 1) = true)%nat
    /\ Forall is_progress log.
Proof.
  induction budget as [ | b IH ]; intros it psi s.
  - exists 0%nat, []. simpl. unfold ret.
    repeat split; try lia; try constructor.
  - cbn [relax].
    set (dpsi := relax_dpsi self J11 J12 J21 J22 omegai psi).
    assert (Hprint : exists l0,
      (if (it mod 10000 =? 0)%N then emit (PrintRelax it (absmax dpsi)) else ret tt) s
      = mkRes s l0 (inr tt) /\ Forall is_progress l0).
    { destruct (it mod 10000 =? 0)%N.
      - eexists; split; [ reflexivity | ]. repeat constructor.
      - eexists; split; [ reflexivity | ]. constructor. }
    destruct Hprint as [l0 [Hl0 Hp0]].
    destruct (Rltb (absmax dpsi) 1E-8) eqn:Hconv.
    + exists 1%nat, l0. unfold bind. rewrite Hl0. cbn [val obj out].
      unfold ret. cbn [val obj out]. rewrite app_nil_r.
      split; [ reflexivity | ].
      repeat split; try lia; try exact Hp0.
      intros _. exact Hconv.
    + destruct (IH (it + 1)%N (psi .+ gtimes dpsi dt)%G s)
        as [k [log [Hrun [Hk [Hpos [Hbefore [Hstop Hlog]]]]]]].
      exists (S k), (l0 ++ log). unfold bind. rewrite Hl0. cbn [val obj out].
      rewrite Hrun. cbn [val obj out].
      split; [ reflexivity | ].
      split; [ lia | ]. split; [ lia | ].
      split; [ | split ].
      * intros [ | j ] Hj; [ exact Hconv | ].
        rewrite relax_converged_shift. apply Hbefore. lia.
      * intros Hlt. assert (Hkb : (k < b)%nat) by lia.
        assert (Hk0 : (0 < k)%nat) by (apply Hpos; lia).
        specialize (Hstop Hkb).
        replace (S k - 1)%nat with (S (k - 1)) by lia.
        rewrite relax_converged_shift. exact Hstop.
      * apply Forall_app; split; assumption.
Qed.
End RelaxationFacts.

Lemma length_zip_with {A B C : Type} (f : A -> B -> C) (l : list A) (l' : list B) :
  length (zip_with f l l') = Nat.min (length l) (length l').
Proof.
  revert l'. induction l as [ | x t IH ]; intros [ | y t' ]; simpl; auto.
Qed.

Lemma nth_zip_with {A B C : Type} (f : A -> B -> C) (l : list A) (l' : list B)
  (i : nat) (d : C) (d1 : A) (d2 : B) :
  (i < length l)%nat -> (i < length l')%nat ->
  nth i (zip_with f l l') d = f (nth i l d1) (nth i l' d2).
Proof.
  revert l' i. induction l as [ | x t IH ]; intros [ | y t' ] [ | i ] H1 H2;
    simpl in *; try lia; auto.
  apply IH; lia.
Qed.

Lemma get2_emap2 (f : R -> R -> R) (g g' : grid) (a b : nat) :
  (a < length g)%nat -> (a < length g')%nat ->
  (b < length (nth a g []))%nat -> (b < length (nth a g' []))%nat ->
  get2 (emap2 f g g') a b = f (get2 g a b) (get2 g' a b).
Proof.
  intros Ha Ha' Hb Hb'. unfold get2, get1, emap2.
  rewrite (nth_zip_with _ g g' a [] [] []) by assumption.
  apply nth_zip_with; assumption.
Qed.

Lemma get2_emap2_outside (f : R -> R -> R) (g g' : grid) (a b : nat) :
  ~ ((a < length g)%nat /\ (a < length g')%nat /\
     (b < length (nth a g []))%nat /\ (b < length (nth a g' []))%nat) ->
  get2 (emap2 f g g') a b = 0.
Proof.
  intros Hout. unfold get2, get1, emap2.
  destruct (Nat.lt_ge_cases a (length g)) as [Ha | Ha];
    [ destruct (Nat.lt_ge_cases a (length g')) as [Ha' | Ha'] | ].
  - rewrite (nth_zip_with _ g g' a [] [] []) by assumption.
    apply nth_overflow. rewrite length_zip_with. lia.
  - rewrite (nth_overflow (zip_with _ _ _)) by (rewrite length_zip_with; lia).
    destruct b; reflexivity.
  - rewrite (nth_overflow (zip_with _ _ _)) by (rewrite length_zip_with; lia).
    destruct b; reflexivity.
Qed.

(** A product with the mask vanishes where the mask does. *)
Lemma get2_masked (g mask : grid) (a b : nat) :
  get2 mask a b = 0 -> get2 (g .* mask)%G a b = 0.
Proof.
  intros Hm. unfold gmul.
  destruct (Nat.lt_ge_cases a (length g)) as [Ha | Ha];
    [ destruct (Nat.lt_ge_cases a (length mask)) as [Ha' | Ha'];
      [ destruct (Nat.lt_ge_cases b (length (nth a g []))) as [Hb | Hb];
        [ destruct (Nat.lt_ge_cases b (length (nth a mask []))) as [Hb' | Hb'] | ] | ] | ].
  - rewrite get2_emap2 by assumption. rewrite Hm. lra.
  - apply get2_emap2_outside. lia.
  - apply get2_emap2_outside. lia.
  - apply get2_emap2_outside. lia.
  - apply get2_emap2_outside. lia.
Qed.

Lemma Interior_of_boundary (shape : nat * nat) (a b : nat) :
  boundary_point shape a b -> get2 (Interior_of shape) a b = 0.
Proof.
  destruct shape as [Nx Ny]. intros Hbd. unfold Interior_of.
  rewrite get2_assign_block_outside by (apply boundary_not_interior; exact Hbd).
  apply get2_zeros.
Qed.

Lemma relax_dpsi_masked (self : CustomedEqs) (J11 J12 J21 J22 : R)
  (omegai psi : grid) (a b : nat) :
  get2 (Interior self) a b = 0 ->
  get2 (relax_dpsi self J11 J12 J21 J22 omegai psi) a b = 0.
Proof.
  intros Hm. unfold relax_dpsi, Compute_d_d2. apply get2_masked. exact Hm.
Qed.

Lemma case_setup_step (self : CustomedEqs) (alpha phi_pred : grid)
  (J : grid * grid * grid * grid) (icase : nat) :
  let c := case_setup self alpha phi_pred J icase in
  c_dt c = 0.5 * Rmin (c_hx c) (c_hy c) ^ 2
  /\ c_hx c = Rabs (get2 (c_xp c) 0 0 - get2 (c_xp c) 1 0)
  /\ c_hy c = Rabs (get2 (c_yp c) 0 0 - get2 (c_yp c) 0 1).
Proof.
  unfold case_setup. destruct J as [[[J11 J12] J21] J22].
  destruct (Mode2Field self (nth icase phi_pred [])) as [[p u] v].
  unfold Compute_d_d1, getGrid. cbn [c_dt c_hx c_hy c_xp c_yp].
  repeat split; reflexivity.
Qed.

(** ** The cases of [GetPredFields] *)

Lemma for_rangeM_inv {St : Type} (P : nat -> St -> Prop)
  (body : nat -> St -> Py St) (s : CustomedEqs) :
  (forall i acc, P i acc ->
     exists log acc', body i acc s = mkRes s log (inr acc') /\ P (S i) acc') ->
  forall (n i0 : nat) (acc : St), P i0 acc ->
    exists log acc',
      for_rangeM n i0 body acc s = mkRes s log (inr acc') /\ P (n + i0)%nat acc'.
Proof.
  intros Hbody. induction n as [ | n IH ]; intros i0 acc Hacc.
  - exists [], acc. split; [ reflexivity | exact Hacc ].
  - destruct (Hbody i0 acc Hacc) as [log1 [acc1 [Hrun1 Hacc1]]].
    destruct (IH (S i0) acc1 Hacc1) as [log2 [acc2 [Hrun2 Hacc2]]].
    exists (log1 ++ log2), acc2. cbn [for_rangeM]. unfold bind.
    rewrite Hrun1. cbn [val obj out]. rewrite Hrun2. cbn [val obj out].
    split; [ reflexivity | ].
    replace (S n + i0)%nat with (n + S i0)%nat by lia. exact Hacc2.
Qed.

Lemma case_setup_fields (self : CustomedEqs) (alpha phi_pred : grid)
  (J : grid * grid * grid * grid) (icase : nat) :
  let c := case_setup self alpha phi_pred J icase in
  let '(p, u, v) := Mode2Field self (nth icase phi_pred []) in
  c_p c = p /\ c_u c = (u .+ uBC self)%G /\ c_v c = v.
Proof.
  unfold case_setup. destruct J as [[[J11 J12] J21] J22].
  destruct (Mode2Field self (nth icase phi_pred [])) as [[p u] v].
  unfold Compute_d_d1, getGrid. cbn [c_p c_u c_v]. auto.
Qed.

Lemma pred_case_run (self : CustomedEqs) (alpha phi_pred : grid)
  (J : grid * grid * grid * grid) (filename : string) (icase : nat)
  (Fields : tensor4) (s : CustomedEqs) :
  let c := case_setup self alpha phi_pred J icase in
  exists log psi,
    pred_case self alpha phi_pred J filename icase Fields s
    = mkRes s log
        (inr (Fields ++ [[c_xp c; c_yp c; c_p c; c_u c; c_v c; c_omega c; psi]])).
Proof.
  intros c. unfold pred_case. fold c.
  destruct (relax_run self (c_J11 c) (c_J12 c) (c_J21 c) (c_J22 c) (c_omega c)
              (c_dt c) relax_budget 0%N (0 *: c_omega c)%G s)
    as [k [log [Hrun _]]].
  unfold bind. rewrite Hrun. cbn [val obj out].
  destruct (FieldShape self) as [Nx Ny]. cbn [val obj out emit ret].
  eexists; eexists; reflexivity.
Qed.

Lemma Mode2Field_shape (s : CustomedEqs) (Vec : vec) :
  let '(p, u, v) := Mode2Field s Vec in
  shape2 (fst (FieldShape s)) (snd (FieldShape s)) p
  /\ shape2 (fst (FieldShape s)) (snd (FieldShape s)) u
  /\ shape2 (fst (FieldShape s)) (snd (FieldShape s)) v.
Proof.
  unfold Mode2Field. destruct (FieldShape s) as [Nx Ny].
  destruct (InteriorShape s) as [ir ic]. cbn [fst snd].
  assert (H : forall src,
    shape2 Nx Ny (assign_block 1 (Nx - 1) 1 (Ny - 1) src (zeros2 Nx Ny))).
  { intros src. unfold assign_block. split.
    - rewrite length_imap. apply repeat_length.
    - apply Forall_forall. intros row Hrow.
      apply (In_nth _ _ []) in Hrow as [a [Ha <-]].
      rewrite length_imap in Ha.
      rewrite (nth_imap _ _ a [] []) by exact Ha.
      unfold shape1. rewrite length_imap.
      unfold zeros2 in *. rewrite repeat_length in Ha.
      rewrite (nth_indep _ [] (zeros1 Ny)) by (rewrite repeat_length; exact Ha).
      rewrite nth_repeat_default. apply repeat_length. }
  auto.
Qed.

Lemma shape2_nth (n m : nat) (g : grid) (a : nat) :
  shape2 n m g -> (a < n)%nat -> length (nth a g []) = m.
Proof.
  intros [Hl Hr] Ha. rewrite Forall_forall in Hr.
  apply Hr. apply nth_In. lia.
Qed.

(** C10.  For every coefficient vector the three grids of [Mode2Field] are
    zero at every boundary point.  For a batch of at least one case
    [GetPredFields] leaves the object as it is and returns one entry per
    case; in each entry the pressure (field 2) and the y-velocity (field 4)
    are zero at every boundary point and the x-velocity (field 3) is there
    the boundary profile [uBC], which was added to it; these entries are
    what is saved to the [.mat] file. *)
Theorem reconstructed_boundary_values (s : CustomedEqs) (alpha lamda : grid)
  (filename : string) :
  shape2 (fst (FieldShape s)) (snd (FieldShape s)) (uBC s) ->
  lamda <> [] ->
  (forall Vec a b, boundary_point (FieldShape s) a b ->
     get2 (fst (fst (Mode2Field s Vec))) a b = 0
     /\ get2 (snd (fst (Mode2Field s Vec))) a b = 0
     /\ get2 (snd (Mode2Field s Vec)) a b = 0)
  /\ exists log Fields,
       GetPredFields alpha lamda filename s
       = mkRes s (log ++ [SaveMat filename Fields]) (inr Fields)
       /\ length Fields = length lamda
       /\ Forall (fun F =>
            forall a b, boundary_point (FieldShape s) a b ->
              get2 (nth 2 F []) a b = 0
              /\ get2 (nth 3 F []) a b = get2 (uBC s) a b
              /\ get2 (nth 4 F []) a b = 0) Fields.
Proof.
  intros HuBC Hcases.
  assert (HM2F : forall Vec a b, boundary_point (FieldShape s) a b ->
     get2 (fst (fst (Mode2Field s Vec))) a b = 0
     /\ get2 (snd (fst (Mode2Field s Vec))) a b = 0
     /\ get2 (snd (Mode2Field s Vec)) a b = 0).
  { intros Vec a b Hbd. pose proof (Mode2Field_boundary s Vec a b Hbd) as H.
    destruct (Mode2Field s Vec) as [[p u] v]. exact H. }
  split; [ exact HM2F | ].
  unfold GetPredFields, bind, get_self. cbn [val obj out].
  set (phi_pred := matmul lamda (transpose (Modes s))).
  set (J := getJac cos sin alpha).
  set (Q := fun F : tensor3 =>
     forall a b, boundary_point (FieldShape s) a b ->
       get2 (nth 2 F []) a b = 0
       /\ get2 (nth 3 F []) a b = get2 (uBC s) a b
       /\ get2 (nth 4 F []) a b = 0).
  destruct (for_rangeM_inv
              (fun i (Fs : tensor4) => length Fs = i /\ Forall Q Fs)
              (pred_case s alpha phi_pred J filename) s) with
    (n := length lamda) (i0 := 0%nat) (acc := @nil tensor3)
    as [log [Fields [Hrun [Hlen HQ]]]].
  - intros i Fs [Hlen HQ].
    destruct (pred_case_run s alpha phi_pred J filename i Fs s) as [log [psi Hrun]].
    eexists; eexists; split; [ exact Hrun | ].
    split; [ rewrite length_app; simpl; lia | ].
    apply Forall_app; split; [ exact HQ | ].
    constructor; [ | constructor ].
    intros a b Hbd. cbn [nth].
    pose proof (case_setup_fields s alpha phi_pred J i) as Hc.
    pose proof (HM2F (nth i phi_pred []) a b Hbd) as Hz.
    pose proof (Mode2Field_shape s (nth i phi_pred [])) as Hsh.
    cbv zeta in Hc.
    destruct (Mode2Field s (nth i phi_pred [])) as [[p u] v].
    destruct Hc as [Hp [Hu Hv]]. cbn [fst snd] in Hz.
    destruct Hz as [Hzp [Hzu Hzv]]. destruct Hsh as [_ [Hshu _]].
    rewrite Hp, Hu, Hv.
    split; [ exact Hzp | split; [ | exact Hzv ] ].
    destruct Hbd as [Ha [Hb _]].
    unfold gadd. rewrite get2_emap2.
    + rewrite Hzu. lra.
    + destruct Hshu as [Hl _]. lia.
    + destruct HuBC as [Hl _]. lia.
    + rewrite (shape2_nth _ _ u a Hshu Ha). exact Hb.
    + rewrite (shape2_nth _ _ (uBC s) a HuBC Ha). exact Hb.
  - split; [ reflexivity | constructor ].
  - rewrite Hrun. cbn [val obj out].
    rewrite Nat.add_0_r in Hlen.
    destruct Fields as [ | F Fs ];
      [ destruct lamda; [ congruence | discriminate ] | ].
    cbn [np_stack ret val obj out emit app].
    eexists; eexists; split; [ reflexivity | ].
    split; [ exact Hlen | exact HQ ].
Qed.

Lemma reconstructed_boundary_values_witness :
  shape2 (fst (FieldShape cavity3)) (snd (FieldShape cavity3)) (uBC cavity3)
  /\ forall Vec a b, boundary_point (FieldShape cavity3) a b ->
       get2 (fst (fst (Mode2Field cavity3 Vec))) a b = 0
       /\ get2 (snd (fst (Mode2Field cavity3 Vec))) a b = 0
       /\ get2 (snd (Mode2Field cavity3 Vec)) a b = 0.
Proof.
  assert (H : shape2 (fst (FieldShape cavity3)) (snd (FieldShape cavity3))
                     (uBC cavity3)).
  { split; [ reflexivity | repeat constructor ]. }
  split; [ exact H | ].
  assert (Hne : [[1]] <> @nil (list R)) by discriminate.
  exact (proj1 (reconstructed_boundary_values cavity3 [[200; 90]] [[1]]
                  EmptyString H Hne)).
Defined.

(** ** GalerkinSolver *)

Lemma for_rangeM_inv_log {St : Type} (P : nat -> St -> list event -> Prop)
  (body : nat -> St -> Py St) (s : CustomedEqs) (bound : nat) :
  (forall i acc log, (i < bound)%nat -> P i acc log ->
     exists l acc', body i acc s = mkRes s l (inr acc') /\ P (S i) acc' (log ++ l)) ->
  forall (n i0 : nat) (acc : St) (log0 : list event),
    (n + i0 <= bound)%nat -> P i0 acc log0 ->
    exists l acc',
      for_rangeM n i0 body acc s = mkRes s l (inr acc')
      /\ P (n + i0)%nat acc' (log0 ++ l).
Proof.
  intros Hbody. induction n as [ | n IH ]; intros i0 acc log0 Hle Hacc.
  - exists [], acc. rewrite app_nil_r. split; [ reflexivity | exact Hacc ].
  - destruct (Hbody i0 acc log0) as [l1 [acc1 [Hrun1 Hacc1]]]; [ lia | exact Hacc | ].
    destruct (IH (S i0) acc1 (log0 ++ l1)) as [l2 [acc2 [Hrun2 Hacc2]]];
      [ lia | exact Hacc1 | ].
    exists (l1 ++ l2), acc2. cbn [for_rangeM]. unfold bind.
    rewrite Hrun1. cbn [val obj out]. rewrite Hrun2. cbn [val obj out].
    split; [ reflexivity | ].
    replace (S n + i0)%nat with (n + S i0)%nat by lia.
    rewrite app_assoc. exact Hacc2.
Qed.

Lemma Rgtb_true_iff (x y : R) : Rgtb x y = true <-> x > y.
Proof.
  unfold Rgtb. destruct (Rgt_dec x y); split; intros H; auto; discriminate.
Qed.

(** What one pass of the loop of [POD_Gfsolve] computes. *)
Lemma solve_case_unfold (fsolve : (vec -> vec) -> vec -> vec) (s : CustomedEqs)
  (alpha : grid) (lamda_init : option grid) (i : nat) :
  let alphai := alpha_row alpha i in
  let x0 := squeeze_row (emap2 Rdiv (initial_guess s alphai i lamda_init .- proj_mean s)%G
                               (proj_std s)) in
  let F := fun x => eqs s x (fst (fst (assemble s alphai))) (snd (fst (assemble s alphai)))
                        (snd (assemble s alphai)) in
  solve_case fsolve s alpha lamda_init i = (alphai, fsolve F x0, norm2 (F (fsolve F x0))).
Proof.
  unfold solve_case. destruct (assemble s (alpha_row alpha i)) as [[Ai Bi] src].
  reflexivity.
Qed.

(** The log of [POD_Gfsolve] after the cases below [i]: one line for each
    case whose residual norm is above the tolerance, and nothing else. *)
Lemma POD_Gfsolve_run (fsolve : (vec -> vec) -> vec -> vec) (s : CustomedEqs)
  (alpha : grid) (lamda_init : option grid) :
  let case := solve_case fsolve s alpha lamda_init in
  exists log lamda,
    POD_Gfsolve fsolve alpha lamda_init s = mkRes s log (inr lamda)
    /\ length lamda = length alpha
    /\ (forall i, (i < length alpha)%nat ->
          nth i lamda [] = denormalize s (snd (fst (case i))))
    /\ (forall e, In e log <->
          exists i, (i < length alpha)%nat /\ snd (case i) > Newton_eps
                    /\ e = PrintCase i (get2 (fst (fst (case i))) 0 0)
                                       (get2 (fst (fst (case i))) 0 1) (snd (case i))).
Proof.
  intros case. unfold POD_Gfsolve, bind, get_self. cbn [val obj out].
  set (n := length alpha).
  set (P := fun (i : nat) (lamda : grid) (log : list event) =>
    length lamda = n
    /\ (forall j, (j < i)%nat -> nth j lamda [] = denormalize s (snd (fst (case j))))
    /\ (forall e, In e log <->
          exists j, (j < i)%nat /\ snd (case j) > Newton_eps
                    /\ e = PrintCase j (get2 (fst (fst (case j))) 0 0)
                                       (get2 (fst (fst (case j))) 0 1) (snd (case j)))).
  match goal with
  | |- context [for_rangeM n 0%nat ?body ?acc0 s] =>
      assert (Hloop : exists l lamda,
                for_rangeM n 0%nat body acc0 s = mkRes s l (inr lamda)
                /\ P (n + 0)%nat lamda ([] ++ l));
        [ apply (for_rangeM_inv_log P body s n) | ]
  end.
  - intros i lamda log Hi [Hlen [Hrows Hlog]].
    fold (case i). destruct (case i) as [[alphai lamdasol] err] eqn:Hcase.
    destruct (Rgtb err Newton_eps) eqn:Hgt.
    + eexists; eexists; split; [ reflexivity | ].
      apply Rgtb_true_iff in Hgt.
      split; [ rewrite length_upd; exact Hlen | ]. split.
      * intros j Hj. destruct (Nat.eq_dec j i) as [-> | Hne].
        -- rewrite nth_upd_in_range by lia. rewrite Hcase. reflexivity.
        -- rewrite nth_upd_other by auto. apply Hrows. lia.
      * intros e. cbn [out app]. rewrite in_app_iff, Hlog. split.
        -- intros [[j [Hj [He1 He2]]] | [<- | []]].
           ++ exists j. split; [ lia | auto ].
           ++ exists i. rewrite Hcase. cbn [fst snd]. split; [ lia | auto ].
        -- intros [j [Hj [He1 He2]]]. destruct (Nat.eq_dec j i) as [-> | Hne].
           ++ right. left. rewrite Hcase in He2. cbn [fst snd] in He2. auto.
           ++ left. exists j. split; [ lia | auto ].
    + eexists; eexists; split; [ reflexivity | ].
      assert (Hngt : ~ err > Newton_eps).
      { intros H. apply Rgtb_true_iff in H. congruence. }
      split; [ rewrite length_upd; exact Hlen | ]. split.
      * intros j Hj. destruct (Nat.eq_dec j i) as [-> | Hne].
        -- rewrite nth_upd_in_range by lia. rewrite Hcase. reflexivity.
        -- rewrite nth_upd_other by auto. apply Hrows. lia.
      * intros e. cbn [out app]. rewrite app_nil_r, Hlog. split.
        -- intros [j [Hj [He1 He2]]]. exists j. split; [ lia | auto ].
        -- intros [j [Hj [He1 He2]]]. destruct (Nat.eq_dec j i) as [-> | Hne].
           ++ rewrite Hcase in He1. cbn [snd] in He1. contradiction.
           ++ exists j. split; [ lia | auto ].
  - lia.
  - split; [ apply repeat_length | ]. split.
    + intros j Hj. lia.
    + intros e. split; [ intros [] | intros [j [Hj _]]; lia ].
  - destruct Hloop as [log [lamda [Hrun HP]]].
    rewrite Hrun. cbn [val obj out]. rewrite Nat.add_0_r in HP.
    destruct HP as [Hlen [Hrows Hlog]].
    exists log, lamda. cbn [app] in Hlog.
    split; [ reflexivity | ]. split; [ exact Hlen | ]. split; assumption.
Qed.

(** *** The nearest training sample *)

Lemma fold_left_Rmin_le (t : vec) (h : R) :
  fold_left Rmin t h <= h /\ forall x, In x t -> fold_left Rmin t h <= x.
Proof.
  revert h. induction t as [ | y t IH ]; intros h; simpl.
  - split; [ lra | intros x [] ].
  - destruct (IH (Rmin h y)) as [H1 H2].
    pose proof (Rmin_l h y). pose proof (Rmin_r h y).
    split; [ lra | ]. intros x [<- | Hx]; [ lra | auto ].
Qed.

Lemma fold_left_Rmin_in (t : vec) (h : R) :
  fold_left Rmin t h = h \/ In (fold_left Rmin t h) t.
Proof.
  revert h. induction t as [ | y t IH ]; intros h; simpl.
  - left; reflexivity.
  - destruct (IH (Rmin h y)) as [H | H].
    + rewrite H. unfold Rmin. destruct (Rle_dec h y); auto.
    + right; right; exact H.
Qed.

Lemma vmin_le (v : vec) (x : R) : In x v -> vmin v <= x.
Proof.
  destruct v as [ | h t ]; [ intros [] | ].
  intros Hin. simpl. destruct Hin as [<- | Hx].
  - exact (proj1 (fold_left_Rmin_le t h)).
  - exact (proj2 (fold_left_Rmin_le t h) x Hx).
Qed.

Lemma vmin_in (v : vec) : v <> [] -> In (vmin v) v.
Proof.
  destruct v as [ | h t ]; [ congruence | intros _ ]. simpl.
  destruct (fold_left_Rmin_in t h) as [H | H]; [ left; auto | right; exact H ].
Qed.

Lemma Reqb_true_iff (x y : R) : Reqb x y = true <-> x = y.
Proof.
  unfold Reqb. destruct (Req_dec_T x y); split; intros H; auto; discriminate.
Qed.

Lemma first_index_spec (x : R) (v : vec) :
  In x v ->
  (first_index x v < length v)%nat
  /\ nth (first_index x v) v 0 = x
  /\ forall j, (j < first_index x v)%nat -> nth j v 0 <> x.
Proof.
  induction v as [ | h t IH ]; [ intros [] | ]. intros Hin. simpl.
  destruct (Reqb h x) eqn:Hhx.
  - apply Reqb_true_iff in Hhx. split; [ lia | ]. split; [ exact Hhx | ].
    intros j Hj; lia.
  - assert (Hne : h <> x).
    { intros H. apply Reqb_true_iff in H. congruence. }
    destruct Hin as [Heq | Hin]; [ contradiction | ].
    destruct (IH Hin) as [Hlt [Hnth Hfirst]].
    split; [ lia | ]. split; [ exact Hnth | ].
    intros [ | j ] Hj; [ exact Hne | apply Hfirst; lia ].
Qed.

(** The index chosen by [np.where(dis == dis.min())[0][0]] is the first
    one at which the distance is least. *)
Lemma argmin_first (dis : vec) :
  dis <> [] ->
  let ind := first_index (vmin dis) dis in
  (ind < length dis)%nat
  /\ (forall j, (j < length dis)%nat -> nth ind dis 0 <= nth j dis 0)
  /\ (forall j, (j < ind)%nat -> nth ind dis 0 < nth j dis 0).
Proof.
  intros Hne ind.
  destruct (first_index_spec (vmin dis) dis (vmin_in dis Hne)) as [Hlt [Hnth Hfirst]].
  fold ind in Hlt, Hnth, Hfirst.
  split; [ exact Hlt | ]. split.
  - intros j Hj. rewrite Hnth. apply vmin_le. apply nth_In. exact Hj.
  - intros j Hj. rewrite Hnth.
    assert (Hle : vmin dis <= nth j dis 0) by (apply vmin_le, nth_In; lia).
    specialize (Hfirst j Hj). lra.
Qed.

Lemma nth_0_firstn_1_skipn (ind : nat) (row : vec) :
  nth 0 (firstn 1 (skipn ind row)) 0 = nth ind row 0.
Proof.
  revert ind. induction row as [ | x t IH ]; intros ind.
  - destruct ind; reflexivity.
  - destruct ind as [ | ind ]; [ reflexivity | ]. cbn [skipn nth]. apply IH.
Qed.

Lemma length_firstn_1_skipn (ind : nat) (row : vec) :
  (ind < length row)%nat -> length (firstn 1 (skipn ind row)) = 1%nat.
Proof.
  intros H. rewrite length_firstn, length_skipn. lia.
Qed.

(** [projections[0:M, ind:ind+1].T] is the column [ind] of the first M
    rows, as a one-row array. *)
Lemma nearest_guess (s : CustomedEqs) (ind : nat) :
  solver_ready s -> (ind < length (parameters s))%nat ->
  transpose (slice_cols ind (ind + 1) (slice_rows 0 (M s) (projections s)))
  = [map (fun row => nth ind row 0) (firstn (M s) (projections s))].
Proof.
  intros [_ [HM [[Hlen Hrows] _]]] Hind.
  unfold slice_rows. rewrite Nat.sub_0_r. cbn [skipn].
  unfold slice_cols. replace (ind + 1 - ind)%nat with 1%nat by lia.
  rewrite firstn_all2 by lia.
  destruct (projections s) as [ | row0 rest ] eqn:Hproj; [ simpl in Hlen; lia | ].
  unfold transpose, ncols. cbn [map hd].
  inversion Hrows as [ | ? ? Hrow0 _ ]; subst.
  rewrite length_firstn_1_skipn by (unfold shape1 in Hrow0; lia).
  cbn [seq map]. f_equal. unfold column. cbn [map].
  rewrite nth_0_firstn_1_skipn. f_equal.
  rewrite map_map. apply map_ext. intros row. apply nth_0_firstn_1_skipn.
Qed.

Lemma shape2_one_row (m : nat) (g : grid) :
  shape2 1 m g -> exists row, g = [row] /\ length row = m.
Proof.
  intros [Hlen Hrows]. destruct g as [ | row [ | ? ? ] ]; simpl in Hlen; try lia.
  exists row. inversion Hrows; subst. auto.
Qed.

Lemma solver_ready_cavity3 : solver_ready cavity3.
Proof.
  split; [ discriminate | ]. split; [ unfold cavity3; simpl; lia | ].
  split; [ | split ]; (split; [ reflexivity | repeat constructor ]).
Defined.

(** ** [GetError] *)

Lemma np_matmul_aligned (a b : grid) (s : CustomedEqs) :
  Forall (fun row => length row = length b) a ->
  np_matmul a b s = mkRes s [] (inr (matmul a b)).
Proof.
  intros H. unfold np_matmul.
  replace (forallb (fun row => (length row =? length b)%nat) a) with true;
    [ reflexivity | ].
  symmetry. apply forallb_forall. rewrite Forall_forall in H.
  intros row Hrow. apply Nat.eqb_eq. apply H. exact Hrow.
Qed.

(** C8.  For a batch of modal coefficients (every row has as many entries
    as there are modes) [GetError] raises an exception exactly when the
    number of validation parameter rows differs from the number of rows of
    the batch.  The exception is raised at once: nothing has been printed,
    no metric has been computed, nothing catches it, and the object is left
    as it was (as it is in every run). *)
Theorem GetError_count_mismatch (s : CustomedEqs) (lamda : grid) :
  Forall (fun row => length row = length (transpose (Modes s))) lamda ->
  ((exists e, val (GetError lamda s) = inl e)
   <-> length (ValidationParameters s) <> length lamda)
  /\ (length (ValidationParameters s) <> length lamda ->
      GetError lamda s
      = mkRes s []
          (inl (Exception
                  "The number of lamda should be equal to validation parameters")))
  /\ (length (ValidationParameters s) = length lamda ->
      exists Errorpuv Errortotal total,
        GetError lamda s
        = mkRes s [PrintArray Errortotal;
                   PrintErrors (get1 Errorpuv 0) (get1 Errorpuv 1) (get1 Errorpuv 2) total]
            (inr (Errorpuv, total)))
  /\ obj (GetError lamda s) = s.
Proof.
  intros Hshape.
  assert (Hbad : length (ValidationParameters s) <> length lamda ->
      GetError lamda s
      = mkRes s []
          (inl (Exception
                  "The number of lamda should be equal to validation parameters"))).
  { intros Hne. unfold GetError, bind, get_self. cbn [val obj out].
    apply Nat.eqb_neq in Hne. rewrite Hne. reflexivity. }
  assert (Hgood : length (ValidationParameters s) = length lamda ->
      exists Errorpuv Errortotal total,
        GetError lamda s
        = mkRes s [PrintArray Errortotal;
                   PrintErrors (get1 Errorpuv 0) (get1 Errorpuv 1) (get1 Errorpuv 2) total]
            (inr (Errorpuv, total))).
  { intros Heq. unfold GetError, bind, get_self. cbn [val obj out].
    apply Nat.eqb_eq in Heq. rewrite Heq. cbn [negb].
    rewrite (np_matmul_aligned _ _ s Hshape). cbn [val obj out emit ret app].
    eexists; eexists; eexists; reflexivity. }
  split; [ | split; [ exact Hbad | split; [ exact Hgood | ] ] ].
  - split.
    + intros [e He] Heq. destruct (Hgood Heq) as [p [t [tot Hrun]]].
      rewrite Hrun in He. discriminate.
    + intros Hne. rewrite (Hbad Hne). eexists; reflexivity.
  - destruct (Nat.eq_dec (length (ValidationParameters s)) (length lamda)) as [Heq | Hne].
    + destruct (Hgood Heq) as [p [t [tot Hrun]]]. rewrite Hrun. reflexivity.
    + rewrite (Hbad Hne). reflexivity.
Qed.

Lemma GetError_count_mismatch_witness :
  Forall (fun row => length row = length (transpose (Modes cavity3))) [[1]; [2]]
  /\ GetError [[1]; [2]] cavity3
     = mkRes cavity3 []
         (inl (Exception
                 "The number of lamda should be equal to validation parameters")).
Proof.
  assert (H : Forall (fun row => length row = length (transpose (Modes cavity3)))
                     [[1]; [2]]).
  { repeat constructor. }
  split; [ exact H | ].
  apply (proj1 (proj2 (GetError_count_mismatch cavity3 [[1]; [2]] H))).
  simpl. discriminate.
Defined.

(** ** ReducedResidual: the two modes *)

Lemma zip_with_map {A B C D : Type} (f : B -> C -> D) (g : A -> B) (h : A -> C)
  (l : list A) :
  zip_with f (map g l) (map h l) = map (fun x => f (g x) (h x)) l.
Proof. induction l as [ | x t IH ]; simpl; [ reflexivity | rewrite IH; reflexivity ]. Qed.

(** The coefficients are computed row by row, from the first two columns. *)
Lemma getABCoef_rowwise (c s : R -> R) :
  exists arow brow : vec -> vec,
    (forall alpha, getABCoef c s alpha = (map arow alpha, map brow alpha))
    /\ (forall row, arow (firstn 2 row) = arow row /\ brow (firstn 2 row) = brow row).
Proof.
  eexists; eexists; split.
  - intros alpha.
    unfold getABCoef, getJac, Theta_of, emap, slice_cols, gmul, gadd, gscale,
      emap2, emap, cat_axis1.
    repeat (rewrite ?map_map, ?zip_with_map).
    reflexivity.
  - intros row. destruct row as [ | a [ | b t ] ]; split; reflexivity.
Qed.

Lemma nth_map_in_range {A B : Type} (f : A -> B) (l : list A) (i : nat) (d : B) (d' : A) :
  (i < length l)%nat -> nth i (map f l) d = f (nth i l d').
Proof.
  intros H. rewrite (nth_indep _ d (f d')) by (rewrite length_map; exact H).
  apply map_nth.
Qed.

Lemma firstn_1_skipn {A : Type} (i : nat) (l : list A) (d : A) :
  (i < length l)%nat -> firstn 1 (skipn i l) = [nth i l d].
Proof.
  revert i. induction l as [ | x t IH ]; intros [ | i ] H; simpl in *; try lia.
  - reflexivity.
  - apply IH. lia.
Qed.

Lemma alpha_row_in_range (alpha : grid) (b : nat) :
  (b < length alpha)%nat -> alpha_row alpha b = [firstn 2 (nth b alpha [])].
Proof.
  intros H. unfold alpha_row, slice_rows, slice_cols.
  replace (b + 1 - b)%nat with 1%nat by lia.
  rewrite (firstn_1_skipn b alpha []) by exact H. reflexivity.
Qed.

Lemma map_nth_seq {A B : Type} (f : A -> B) (l : list A) (d : A) :
  map (fun j => f (nth j l d)) (seq 0 (length l)) = map f l.
Proof.
  induction l as [ | x t IH ]; [ reflexivity | ].
  cbn [length seq map nth]. f_equal.
  rewrite <- seq_shift, map_map. exact IH.
Qed.

Lemma emap2_as_column (f : R -> R -> R) (a b : vec) :
  emap2 f (as_column a) (as_column b) = as_column (zip_with f a b).
Proof.
  unfold emap2, as_column. revert b.
  induction a as [ | x t IH ]; intros [ | y t' ]; simpl; try reflexivity.
  rewrite IH. reflexivity.
Qed.

Lemma squeeze_column_as_column (v : vec) : squeeze_column (as_column v) = v.
Proof.
  unfold squeeze_column, column, as_column. rewrite map_map. simpl. apply map_id.
Qed.

Lemma transpose_one_row (row : vec) : transpose [row] = as_column row.
Proof.
  unfold transpose, ncols, column, as_column. cbn [hd map].
  apply (map_nth_seq (fun a => [a]) row 0).
Qed.

Lemma ncols_as_column (l : vec) : l <> [] -> ncols (as_column l) = 1%nat.
Proof. destruct l; [ congruence | reflexivity ]. Qed.

Lemma transpose_as_column (l : vec) : l <> [] -> transpose (as_column l) = [l].
Proof.
  intros H. unfold transpose. rewrite ncols_as_column by exact H.
  cbn [seq map]. f_equal. apply squeeze_column_as_column.
Qed.

Lemma matmul_as_column (B : grid) (l : vec) :
  l <> [] -> matmul B (as_column l) = as_column (map (fun row => dot row l) B).
Proof.
  intros H. unfold matmul. rewrite ncols_as_column by exact H.
  cbn [seq map]. unfold as_column at 2. rewrite map_map.
  apply map_ext. intros row.
  change (column 0 (as_column l)) with (squeeze_column (as_column l)).
  rewrite squeeze_column_as_column. reflexivity.
Qed.

(** [lam^T A_k lam], as the two products of the code compute it. *)
Lemma matmul_quadratic (Ak : grid) (l : vec) :
  l <> [] -> matmul (matmul [l] Ak) (as_column l) = [[quadratic_form Ak l]].
Proof.
  intros H. rewrite matmul_as_column by exact H. reflexivity.
Qed.

Lemma concat_singletons {A B : Type} (f : A -> B) (l : list A) :
  concat (map (fun a => [f a]) l) = map f l.
Proof. induction l as [ | x t IH ]; simpl; [ reflexivity | rewrite IH; reflexivity ]. Qed.

Lemma denormalize_rows (s : CustomedEqs) (x mu sd : vec) :
  proj_mean s = [mu] -> proj_std s = [sd] ->
  denormalize s x = vadd (zip_with Rmult x sd) mu.
Proof. intros Hmu Hsd. unfold denormalize. rewrite Hmu, Hsd. reflexivity. Qed.

Lemma denormalize_nonempty (s : CustomedEqs) (x : vec) :
  (0 < M s)%nat -> shape2 1 (M s) (proj_mean s) -> shape2 1 (M s) (proj_std s) ->
  length x = M s -> denormalize s x <> [].
Proof.
  intros HM Hmean Hstd Hx.
  destruct (shape2_one_row _ _ Hmean) as [mu [Hmu Hmul]].
  destruct (shape2_one_row _ _ Hstd) as [sd [Hsd Hsdl]].
  rewrite (denormalize_rows s x mu sd Hmu Hsd).
  intros H. apply (f_equal (@length R)) in H.
  unfold vadd in H. rewrite !length_zip_with in H. simpl in H. lia.
Qed.

(** The NumPy residual [eqs] is the residual of the specification at the
    de-normalized coefficients. *)
Lemma eqs_formula (s : CustomedEqs) (x : vec) (A : tensor3) (B : grid) (src : vec) :
  (0 < M s)%nat -> shape2 1 (M s) (proj_mean s) -> shape2 1 (M s) (proj_std s) ->
  length x = M s ->
  eqs s x A B (as_column src) = spec_residual A B src (denormalize s x).
Proof.
  intros HM Hmean Hstd Hx.
  pose proof (denormalize_nonempty s x HM Hmean Hstd Hx) as Hne.
  destruct (shape2_one_row _ _ Hmean) as [mu [Hmu Hmul]].
  destruct (shape2_one_row _ _ Hstd) as [sd [Hsd Hsdl]].
  rewrite (denormalize_rows s x mu sd Hmu Hsd) in *.
  unfold eqs. rewrite Hmu, Hsd, !transpose_one_row.
  unfold gmul, gadd, gsub. rewrite !emap2_as_column.
  fold (vadd (zip_with Rmult x sd) mu).
  set (lam := vadd (zip_with Rmult x sd) mu) in *.
  unfold compute_eAe. rewrite transpose_as_column by exact Hne.
  rewrite !map_map.
  rewrite (map_ext _ (fun Ak => [quadratic_form Ak lam])).
  2:{ intros Ak. rewrite matmul_quadratic by exact Hne. reflexivity. }
  assert (Hq : map (fun Ak => [quadratic_form Ak lam]) A
               = as_column (map (fun Ak => quadratic_form Ak lam) A)).
  { unfold as_column. rewrite map_map. reflexivity. }
  rewrite Hq, matmul_as_column by exact Hne.
  rewrite !emap2_as_column, squeeze_column_as_column. reflexivity.
Qed.

Lemma nth_emap2 (f : R -> R -> R) (g g' : grid) (b : nat) :
  (b < length g)%nat -> (b < length g')%nat ->
  nth b (emap2 f g g') [] = zip_with f (nth b g []) (nth b g' []).
Proof. intros H H'. unfold emap2. apply nth_zip_with; assumption. Qed.

Lemma length_emap2 (f : R -> R -> R) (g g' : grid) :
  length (emap2 f g g') = Nat.min (length g) (length g').
Proof. apply length_zip_with. Qed.

(** One row of the residual of [loss_Eqs] is the residual of the
    specification for the matrices of that row. *)
Lemma loss_Eqs_fx_row (c sn : R -> R) (r : CustomedEqs) (alpha lamda : grid)
  (b : nat) (arow brow : vec -> vec) :
  (forall a, getABCoef c sn a = (map arow a, map brow a)) ->
  (b < length alpha)%nat -> (b < length lamda)%nat -> nth b lamda [] <> [] ->
  let m := M r in
  let row := nth b alpha [] in
  nth b (loss_Eqs_fx c sn (CustomedNet_init r) alpha lamda) []
  = spec_residual
      (sum_axis0 tadd3 (zeros3 m m m) (zip_with tscale3 (arow row) (Aeqs r)))
      (sum_axis0 gadd (zeros2 m m) (zip_with gscale (arow row) (Abc r))
       .+ sum_axis0 gadd (zeros2 m m) (zip_with gscale (brow row) (Beqs r)))%G
      (map Ropp (sum_axis0 vadd (zeros1 m) (zip_with vscale (brow row) (Bbc r))))
      (nth b lamda []).
Proof.
  intros Hcoef Hb Hbl Hne m row.
  unfold loss_Eqs_fx. rewrite Hcoef.
  cbn [CustomedNet_init net_M net_Aeqs net_Abc net_Beqs net_Bbc]. fold m.
  rewrite !map_map, zip_with_map.
  set (fA := fun a => sum_axis0 tadd3 (zeros3 m m m) (zip_with tscale3 (arow a) (Aeqs r))).
  set (fB := fun a =>
        gadd (sum_axis0 gadd (zeros2 m m) (zip_with gscale (arow a) (Abc r)))
             (sum_axis0 gadd (zeros2 m m) (zip_with gscale (brow a) (Beqs r)))).
  set (fS := fun a => map Ropp (sum_axis0 vadd (zeros1 m)
                                  (zip_with vscale (brow a) (Bbc r)))).
  set (fx1 := zip_with (fun l Ab => map (fun Ak => matmul [l] Ak) Ab) lamda (map fA alpha)).
  set (fx2 := zip_with (fun l f => map (fun t => matmul t (as_column l)) f) lamda fx1).
  set (Bl := zip_with (fun Bb l => matmul Bb (as_column l)) (map fB alpha) lamda).
  assert (Hl1 : length fx1 = Nat.min (length lamda) (length alpha)).
  { unfold fx1. rewrite length_zip_with, length_map. reflexivity. }
  assert (Hl2 : length fx2 = Nat.min (length lamda) (length fx1)).
  { unfold fx2. apply length_zip_with. }
  assert (HlB : length Bl = Nat.min (length alpha) (length lamda)).
  { unfold Bl. rewrite length_zip_with, length_map. reflexivity. }
  assert (Hb1 : (b < length fx1)%nat)
    by (rewrite Hl1; apply Nat.min_glb_lt; assumption).
  assert (Hb2 : (b < length fx2)%nat)
    by (rewrite Hl2; apply Nat.min_glb_lt; assumption).
  assert (HbB : (b < length Bl)%nat)
    by (rewrite HlB; apply Nat.min_glb_lt; assumption).
  unfold gsub, gadd at 1.
  rewrite nth_emap2;
    [ | rewrite length_emap2, !length_map; apply Nat.min_glb_lt; assumption
      | rewrite length_map; assumption ].
  rewrite nth_emap2; [ | rewrite length_map; assumption | rewrite length_map; assumption ].
  rewrite (nth_map_in_range _ fx2 b [] []) by assumption.
  rewrite (nth_map_in_range _ Bl b [] []) by assumption.
  rewrite (nth_map_in_range fS alpha b [] []) by assumption.
  unfold fx2. rewrite (nth_zip_with _ lamda fx1 b [] [] []) by assumption.
  unfold fx1. rewrite (nth_zip_with _ lamda (map fA alpha) b [] [] []);
    [ | assumption | rewrite length_map; assumption ].
  unfold Bl. rewrite (nth_zip_with _ (map fB alpha) lamda b ([] : grid) [] []);
    [ | rewrite length_map; assumption | assumption ].
  rewrite (nth_map_in_range fA alpha b [] []) by assumption.
  rewrite (nth_map_in_range fB alpha b [] []) by assumption.
  fold row. set (l := nth b lamda []) in *.
  rewrite map_map.
  rewrite (map_ext _ (fun Ak => [[quadratic_form Ak l]])).
  2:{ intros Ak. apply matmul_quadratic. exact Hne. }
  rewrite matmul_as_column by exact Hne.
  rewrite (concat_singletons (fun Ak => [quadratic_form Ak l])).
  rewrite (concat_singletons (fun Ak => quadratic_form Ak l)).
  unfold as_column. rewrite (concat_singletons (fun a => a)), map_id.
  reflexivity.
Qed.



(** Every coefficient vector is the de-normalization of its normalization,
    when no standard deviation is zero: the residual of [POD_Gfsolve] can be
    evaluated at any coefficient vector. *)
Lemma denormalize_normalize (s : CustomedEqs) (lam mu sd : vec) :
  proj_mean s = [mu] -> proj_std s = [sd] ->
  length lam = length mu -> length mu = length sd ->
  Forall (fun x => x <> 0) sd ->
  denormalize s (zip_with Rdiv (zip_with Rminus lam mu) sd) = lam.
Proof.
  intros Hmu Hsd Hl1 Hl2 Hnz.
  rewrite (denormalize_rows s _ mu sd Hmu Hsd). unfold vadd.
  clear Hmu Hsd. revert lam mu Hl1 Hl2.
  induction Hnz as [ | d sd' Hd _ IH ]; intros lam mu Hl1 Hl2.
  - destruct mu; [ | discriminate ]. destruct lam; [ reflexivity | discriminate ].
  - destruct mu as [ | m mu' ]; [ discriminate | ].
    destruct lam as [ | l lam' ]; [ discriminate | ].
    simpl in *. f_equal; [ field; exact Hd | ].
    apply IH; lia.
Qed.

(** * Further properties of the code *)

(** ** [GetError] and the end of the constructor *)

Lemma forallb_false_of_not_Forall {A : Type} (p : A -> bool) (P : A -> Prop)
  (l : list A) :
  (forall x, p x = true <-> P x) -> ~ Forall P l -> forallb p l = false.
Proof.
  intros Hp Hn. destruct (forallb p l) eqn:Hf; [ | reflexivity ].
  exfalso. apply Hn. apply Forall_forall. intros x Hx.
  apply Hp. rewrite forallb_forall in Hf. apply Hf. exact Hx.
Qed.

(** When the row counts agree but a row of the batch does not have one
    entry per mode, [GetError] fails in [np.matmul]: a ValueError, nothing
    printed, the object as it was. *)
Theorem GetError_width_mismatch (s : CustomedEqs) (lamda : grid) :
  length (ValidationParameters s) = length lamda ->
  ~ Forall (fun row => length row = length (transpose (Modes s))) lamda ->
  GetError lamda s = mkRes s [] (inl ValueError).
Proof.
  intros Heq Hbad. unfold GetError, bind, get_self. cbn [val obj out].
  apply Nat.eqb_eq in Heq. rewrite Heq. cbn [negb].
  unfold np_matmul.
  rewrite (forallb_false_of_not_Forall _
             (fun row => length row = length (transpose (Modes s))) lamda);
    [ reflexivity | | exact Hbad ].
  intros row. apply Nat.eqb_eq.
Qed.

Lemma GetError_width_mismatch_witness :
  GetError [[1; 2]] cavity3 = mkRes cavity3 [] (inl ValueError).
Proof.
  apply GetError_width_mismatch; [ reflexivity | ].
  intros H. inversion H as [ | ? ? Hrow _ ]. discriminate Hrow.
Defined.

Lemma length_transpose (g : grid) : length (transpose g) = ncols g.
Proof. unfold transpose. rewrite length_map, length_seq. reflexivity. Qed.

Lemma matmul_row_lengths (a b : grid) :
  Forall (fun row => length row = ncols b) (matmul a b).
Proof.
  unfold matmul. apply Forall_forall. intros row Hrow.
  apply in_map_iff in Hrow as [r [<- _]].
  rewrite length_map, length_seq. reflexivity.
Qed.

(** The constructor ends with [GetError] on the projections of the
    validation set.  It fails exactly when the number of validation
    parameter rows is not the number of validation samples (columns of
    [ValidationSamples]); the width of the projections always fits. *)
Theorem init_ProjError_raises_iff (s : CustomedEqs) :
  ((exists e, val (init_ProjError s) = inl e)
   <-> length (ValidationParameters s) <> ncols (ValidationSamples s))
  /\ (length (ValidationParameters s) <> ncols (ValidationSamples s) ->
      init_ProjError s
      = mkRes s []
          (inl (Exception
                  "The number of lamda should be equal to validation parameters")))
  /\ obj (init_ProjError s) = s.
Proof.
  set (lamda_proj := matmul (transpose (ValidationSamples s)) (Modes s)).
  assert (Hlen : length lamda_proj = ncols (ValidationSamples s)).
  { unfold lamda_proj, matmul. rewrite length_map. apply length_transpose. }
  assert (Hwidth : Forall (fun row => length row = length (transpose (Modes s)))
                          lamda_proj).
  { rewrite length_transpose. apply matmul_row_lengths. }
  assert (Hrun : init_ProjError s
    = if (length (ValidationParameters s) =? ncols (ValidationSamples s))%nat
      then mkRes s (out (GetError lamda_proj s))
                 (match val (GetError lamda_proj s) with
                  | inl e => inl e
                  | inr e => inr (lamda_proj, e)
                  end)
      else mkRes s []
             (inl (Exception
                     "The number of lamda should be equal to validation parameters"))).
  { unfold init_ProjError, bind, get_self. cbn [val obj out]. fold lamda_proj.
    unfold GetError, bind, get_self. cbn [val obj out]. rewrite Hlen.
    destruct (length (ValidationParameters s) =? ncols (ValidationSamples s))%nat;
      cbn [negb val obj out app]; [ | reflexivity ].
    rewrite (np_matmul_aligned _ _ s Hwidth). cbn [val obj out emit ret app].
    reflexivity. }
  assert (Hgood : (length (ValidationParameters s) =? ncols (ValidationSamples s))%nat
                  = true ->
                  exists v, val (GetError lamda_proj s) = inr v).
  { intros H. unfold GetError, bind, get_self. cbn [val obj out]. rewrite Hlen, H.
    cbn [negb]. rewrite (np_matmul_aligned _ _ s Hwidth).
    cbn [val obj out emit ret app]. eexists; reflexivity. }
  rewrite Hrun.
  destruct (length (ValidationParameters s) =? ncols (ValidationSamples s))%nat
    eqn:Heq.
  - apply Nat.eqb_eq in Heq. destruct (Hgood eq_refl) as [v Hv]. rewrite Hv.
    cbn [val obj]. split; [ | split; [ intros H; contradiction | reflexivity ] ].
    split; [ intros [e He]; discriminate | intros H; contradiction ].
  - apply Nat.eqb_neq in Heq. cbn [val obj].
    split; [ | split; [ reflexivity | reflexivity ] ].
    split; [ intros _; exact Heq | intros _; eexists; reflexivity ].
Qed.

Lemma init_ProjError_raises_iff_witness :
  length (ValidationParameters cavity3) = ncols (ValidationSamples cavity3)
  /\ obj (init_ProjError cavity3) = cavity3.
Proof.
  split; [ reflexivity | ].
  exact (proj2 (proj2 (init_ProjError_raises_iff cavity3))).
Defined.

(** ** CoordinateMap: the grid, the Jacobian and the coefficients *)

Lemma get2_emap (f : R -> R) (g : grid) (a b : nat) :
  (a < length g)%nat -> (b < length (nth a g []))%nat ->
  get2 (emap f g) a b = f (get2 g a b).
Proof.
  intros Ha Hb. unfold get2, get1, emap.
  rewrite (nth_map_in_range (map f) g a [] []) by exact Ha.
  apply nth_map_in_range. exact Hb.
Qed.

Lemma length_emap (f : R -> R) (g : grid) : length (emap f g) = length g.
Proof. apply length_map. Qed.

Lemma length_nth_emap (f : R -> R) (g : grid) (a : nat) :
  length (nth a (emap f g) []) = length (nth a g []).
Proof.
  unfold emap. destruct (Nat.lt_ge_cases a (length g)) as [Ha | Ha].
  - rewrite (nth_map_in_range (map f) g a [] []) by exact Ha. apply length_map.
  - rewrite !nth_overflow; [ reflexivity | exact Ha | rewrite length_map; exact Ha ].
Qed.

(** The Jacobian of [getJac] inverts the map of [getGrid]: at every grid
    point the computational coordinates are recovered from the physical
    ones, [xc = Jac11*xp + Jac21*yp] and [yc = Jac12*xp + Jac22*yp],
    whenever the sine of the angle is not zero (for the functions [cos] and
    [sin] passed to both). *)
Theorem getGrid_getJac_inverse (self : CustomedEqs) (cs sn : R -> R)
  (re ang : R) (Nx Ny a b : nat) :
  shape2 Nx Ny (Chby_xc self) -> shape2 Nx Ny (Chby_yc self) ->
  (a < Nx)%nat -> (b < Ny)%nat ->
  sn (ang / 180 * PI_CODE) <> 0 ->
  let alpha := [[re; ang]] in
  let xp := fst (getGrid self cs sn alpha) in
  let yp := snd (getGrid self cs sn alpha) in
  let J11 := get2 (fst (fst (fst (getJac cs sn alpha)))) 0 0 in
  let J12 := get2 (snd (fst (fst (getJac cs sn alpha)))) 0 0 in
  let J21 := get2 (snd (fst (getJac cs sn alpha))) 0 0 in
  let J22 := get2 (snd (getJac cs sn alpha)) 0 0 in
  J11 * get2 xp a b + J21 * get2 yp a b = get2 (Chby_xc self) a b
  /\ J12 * get2 xp a b + J22 * get2 yp a b = get2 (Chby_yc self) a b.
Proof.
  intros Hxc Hyc Ha Hb Hsin alpha xp yp J11 J12 J21 J22.
  assert (Hlx : length (Chby_xc self) = Nx) by apply Hxc.
  assert (Hly : length (Chby_yc self) = Nx) by apply Hyc.
  assert (Hrx : length (nth a (Chby_xc self) []) = Ny)
    by (apply (shape2_nth Nx Ny); assumption).
  assert (Hry : length (nth a (Chby_yc self) []) = Ny)
    by (apply (shape2_nth Nx Ny); assumption).
  set (th := ang / 180 * PI_CODE) in *.
  assert (Hxp : get2 xp a b
                = get2 (Chby_xc self) a b * xCoef
                  + get2 (Chby_yc self) a b * yCoef * cs th).
  { unfold xp, getGrid, Theta_of, alpha, emap at 3, slice_cols. cbn [map firstn skipn Nat.sub fst].
    cbn [emap map bcast_col]. unfold gadd.
    rewrite get2_emap2;
      rewrite ?length_emap, ?length_nth_emap; try lia.
    rewrite !get2_emap; rewrite ?length_emap, ?length_nth_emap; try lia.
    reflexivity. }
  assert (Hyp : get2 yp a b = get2 (Chby_yc self) a b * yCoef * sn th).
  { unfold yp, getGrid, Theta_of, alpha, emap at 3, slice_cols. cbn [map firstn skipn Nat.sub snd].
    cbn [emap map bcast_col].
    rewrite !get2_emap; rewrite ?length_emap, ?length_nth_emap; try lia.
    reflexivity. }
  assert (HJ : J11 = 1 / xCoef * (th * 0 + 1) /\ J12 = 0 * th
               /\ J21 = - cs th / sn th / xCoef /\ J22 = 1 / yCoef / sn th).
  { unfold J11, J12, J21, J22, alpha, getJac, Theta_of, emap, slice_cols.
    cbn. auto. }
  destruct HJ as [-> [-> [-> ->]]]. rewrite Hxp, Hyp.
  unfold xCoef, yCoef. split; field; exact Hsin.
Qed.

Lemma getGrid_getJac_inverse_witness :
  let J := getJac cos sin [[200; 180]] in
  let G := getGrid cavity3 cos sin [[200; 180]] in
  sin (180 / 180 * PI_CODE) <> 0
  /\ get2 (fst (fst (fst J))) 0 0 * get2 (fst G) 0 1
     + get2 (snd (fst J)) 0 0 * get2 (snd G) 0 1
     = get2 (Chby_xc cavity3) 0 1.
Proof.
  assert (Hs : sin (180 / 180 * PI_CODE) <> 0).
  { replace (180 / 180 * PI_CODE) with PI_CODE by lra.
    pose proof sin_PI_CODE_neg. lra. }
  assert (Hx : shape2 3 3 (Chby_xc cavity3))
    by (split; [ reflexivity | repeat constructor ]).
  assert (Hy : shape2 3 3 (Chby_yc cavity3))
    by (split; [ reflexivity | repeat constructor ]).
  split; [ exact Hs | ].
  exact (proj1 (getGrid_getJac_inverse cavity3 cos sin 200 180 3 3 0 1
                  Hx Hy (Nat.lt_0_succ 2) (le_n_S 1 2 (le_S 1 1 (le_n 1))) Hs)).
Defined.

(** A non-finite angle makes all four entries of the Jacobian NaN, the
    constant ones too ([Jac11] is computed as [1/xCoef*(Theta*0+1)]); and
    the Reynolds number, finite or not, plays no part in [getJac]. *)
Theorem getJac_nonfinite_angle (re re' ang : xreal) :
  (is_finite ang = false ->
   getJac (xlift cos) (xlift sin) [[re; ang]]
   = ([[XNaN]], [[XNaN]], [[XNaN]], [[XNaN]]))
  /\ getJac (xlift cos) (xlift sin) [[re; ang]]
     = getJac (xlift cos) (xlift sin) [[re'; ang]].
Proof.
  split; [ | reflexivity ].
  intros Hinf. unfold getJac, Theta_of, emap, slice_cols.
  cbn [map firstn skipn Nat.sub div mul add neg lit XBackend].
  assert (H180 : Rsign 180 = Gt) by (apply Rsign_pos; lra).
  assert (HPI : Rsign PI_CODE = Gt) by (apply Rsign_pos; unfold PI_CODE; lra).
  destruct ang as [r | | | ]; [ discriminate | | | ];
    cbn [xdiv xmul xadd xlift xneg]; rewrite ?H180; cbn [xmul];
    rewrite ?HPI; cbn [xinf_of_sign flip_sign xmul xlift xneg xdiv xadd];
    rewrite ?Rsign_zero; reflexivity.
Qed.

Lemma getJac_nonfinite_angle_witness :
  getJac (xlift cos) (xlift sin) [[XFin 200; XPInf]]
  = ([[XNaN]], [[XNaN]], [[XNaN]], [[XNaN]]).
Proof.
  exact (proj1 (getJac_nonfinite_angle (XFin 200) (XFin 200) XPInf) eq_refl).
Defined.

(** For parameter rows of at least two columns [getABCoef] returns an
    (n, 4) and an (n, 7) array, and row by row: the four entries of the
    Jacobian, then for [BCoef] the three viscous coefficients
    [(J11^2+J21^2)/Re], [(J12^2+J22^2)/Re] and [2(J11 J12+J21 J22)/Re], in
    this order (the coefficient of the second derivative in [yc] before
    the one of the mixed derivative). *)
Theorem getABCoef_table (cs sn : R -> R) (alpha : grid) :
  Forall (fun row => (2 <= length row)%nat) alpha ->
  shape2 (length alpha) 4 (fst (getABCoef cs sn alpha))
  /\ shape2 (length alpha) 7 (snd (getABCoef cs sn alpha))
  /\ forall i, (i < length alpha)%nat ->
       let Re := nth 0 (nth i alpha []) 0 in
       let th := nth 1 (nth i alpha []) 0 / 180 * PI_CODE in
       let J11 := 2 in
       let J12 := 0 in
       let J21 := - cs th / sn th / xCoef in
       let J22 := 1 / yCoef / sn th in
       nth i (fst (getABCoef cs sn alpha)) [] = [J11; J12; J21; J22]
       /\ nth i (snd (getABCoef cs sn alpha)) []
          = [J11; J12; J21; J22;
             1 / Re * (J11 ^ 2 + J21 ^ 2);
             1 / Re * (J12 ^ 2 + J22 ^ 2);
             2 * (1 / Re) * (J11 * J12 + J21 * J22)].
Proof.
  intros Hrows.
  assert (Hform : exists arow brow : list R -> list R,
    getABCoef cs sn alpha = (map arow alpha, map brow alpha)
    /\ forall re ang t,
         let th := ang / 180 * PI_CODE in
         arow (re :: ang :: t) = [2; 0; - cs th / sn th / xCoef; 1 / yCoef / sn th]
         /\ brow (re :: ang :: t)
            = [2; 0; - cs th / sn th / xCoef; 1 / yCoef / sn th;
               1 / re * (2 ^ 2 + (- cs th / sn th / xCoef) ^ 2);
               1 / re * (0 ^ 2 + (1 / yCoef / sn th) ^ 2);
               2 * (1 / re) * (2 * 0 + - cs th / sn th / xCoef * (1 / yCoef / sn th))]).
  { eexists; eexists; split.
    - unfold getABCoef, getJac, Theta_of, emap, slice_cols, gmul, gadd, gscale,
        emap2, emap, cat_axis1.
      repeat (rewrite ?map_map, ?zip_with_map). reflexivity.
    - intros re ang t th. cbn. unfold xCoef.
      split; repeat f_equal; try (unfold th; field); try lra. }
  destruct Hform as [arow [brow [Hab Hrow]]]. rewrite Hab. cbn [fst snd].
  assert (Hnth : forall i, (i < length alpha)%nat ->
            exists re ang t, nth i alpha [] = re :: ang :: t).
  { intros i Hi. rewrite Forall_forall in Hrows.
    specialize (Hrows (nth i alpha []) (nth_In _ _ Hi)).
    destruct (nth i alpha []) as [ | re [ | ang t ] ]; simpl in Hrows; try lia.
    exists re, ang, t. reflexivity. }
  split; [ | split ].
  - split; [ apply length_map | ].
    apply Forall_forall. intros r Hr. apply in_map_iff in Hr as [row [<- Hin]].
    rewrite Forall_forall in Hrows. specialize (Hrows row Hin).
    destruct row as [ | re [ | ang t ] ]; simpl in Hrows; try lia.
    unfold shape1. rewrite (proj1 (Hrow re ang t)). reflexivity.
  - split; [ apply length_map | ].
    apply Forall_forall. intros r Hr. apply in_map_iff in Hr as [row [<- Hin]].
    rewrite Forall_forall in Hrows. specialize (Hrows row Hin).
    destruct row as [ | re [ | ang t ] ]; simpl in Hrows; try lia.
    unfold shape1. rewrite (proj2 (Hrow re ang t)). reflexivity.
  - intros i Hi.
    destruct (Hnth i Hi) as [re [ang [t Hr]]].
    rewrite (nth_map_in_range arow alpha i (@nil R) (@nil R)) by exact Hi.
    rewrite (nth_map_in_range brow alpha i (@nil R) (@nil R)) by exact Hi.
    rewrite Hr. cbn [nth].
    destruct (Hrow re ang t) as [Ha Hb]. cbv zeta in Ha, Hb.
    rewrite Ha, Hb. auto.
Qed.

Lemma getABCoef_table_witness :
  Forall (fun row => (2 <= length row)%nat) [[200; 90]]
  /\ shape2 1 4 (fst (getABCoef cos sin [[200; 90]]))
  /\ shape2 1 7 (snd (getABCoef cos sin [[200; 90]])).
Proof.
  assert (H : Forall (fun row => (2 <= length row)%nat) [[200; 90]])
    by (constructor; [ exact (le_n 2) | constructor ]).
  split; [ exact H | ].
  destruct (getABCoef_table cos sin [[200; 90]] H) as [HA [HB _]].
  split; [ exact HA | exact HB ].
Defined.

(** ** The surrogate network *)

Lemma nth_zip_with_R (f : R -> R -> R) (l l' : vec) (j : nat) :
  (j < length l)%nat -> (j < length l')%nat ->
  nth j (zip_with f l l') 0 = f (nth j l 0) (nth j l' 0).
Proof. intros H H'. apply nth_zip_with; assumption. Qed.

(** [u_net] scales its input so that the design-space box becomes the
    cube from -1 to 1: each coordinate is mapped affinely, the lower bound
    to -1, the upper bound to 1, and a point of the box into [-1, 1]. *)
Theorem scale_input_unit_box (net : CustomedNet) (lb ub : vec) (x : grid)
  (i j : nat) :
  net_lb net = [lb] -> net_ub net = [ub] ->
  length lb = length ub ->
  (i < length x)%nat -> length (nth i x []) = length ub -> (j < length ub)%nat ->
  nth j lb 0 < nth j ub 0 ->
  let l := nth j lb 0 in
  let u := nth j ub 0 in
  let y := get2 (scale_input net x) i j in
  y = (get2 x i j - (u + l) / 2) / (u - l) * 2
  /\ (get2 x i j = l -> y = -1)
  /\ (get2 x i j = u -> y = 1)
  /\ (l <= get2 x i j <= u -> -1 <= y <= 1).
Proof.
  intros Hlb Hub Hlen Hi Hrow Hj Hlt l u y.
  assert (Hy : y = (get2 x i j - (u + l) / 2) / (u - l) * 2).
  { unfold y, scale_input. rewrite Hlb, Hub.
    unfold gadd, gsub, emap2, emap. cbn [zip_with map bcast_row].
    unfold get2, get1.
    rewrite (nth_map_in_range _ _ i [] []) by (rewrite !length_map; exact Hi).
    rewrite (nth_map_in_range _ _ i [] []) by (rewrite length_map; exact Hi).
    rewrite (nth_map_in_range _ x i [] []) by exact Hi.
    rewrite (nth_map_in_range _ _ j 0 0)
      by (rewrite !length_zip_with, length_map, !length_zip_with; lia).
    rewrite nth_zip_with_R
      by (rewrite ?length_zip_with, ?length_map, ?length_zip_with; lia).
    rewrite nth_zip_with_R
      by (rewrite ?length_zip_with, ?length_map, ?length_zip_with; lia).
    rewrite (nth_map_in_range _ _ j 0 0) by (rewrite length_zip_with; lia).
    rewrite !nth_zip_with_R by lia.
    reflexivity. }
  assert (Hul : u - l <> 0) by (unfold u, l; lra).
  split; [ exact Hy | ].
  split; [ intros Hx; rewrite Hy, Hx; field; exact Hul | ].
  split; [ intros Hx; rewrite Hy, Hx; field; exact Hul | ].
  intros [Hx1 Hx2]. rewrite Hy.
  assert (Hpos : 0 < u - l) by (unfold u, l; lra).
  replace ((get2 x i j - (u + l) / 2) / (u - l) * 2)
    with ((2 * get2 x i j - u - l) / (u - l)) by (field; exact Hul).
  split.
  - apply Rmult_le_reg_r with (u - l); [ exact Hpos | ].
    unfold Rdiv. rewrite Rmult_assoc, Rinv_l by exact Hul. lra.
  - apply Rmult_le_reg_r with (u - l); [ exact Hpos | ].
    unfold Rdiv. rewrite Rmult_assoc, Rinv_l by exact Hul. lra.
Qed.

Lemma scale_input_unit_box_witness :
  let net := CustomedNet_init cavity3 in
  nth 0 [100; 60] 0 < nth 0 [500; 120] 0
  /\ get2 (scale_input net [[100; 90]]) 0 0 = -1.
Proof.
  intros net.
  assert (Hlt : nth 0 [100; 60] 0 < nth 0 [500; 120] 0) by (simpl; lra).
  split; [ exact Hlt | ].
  apply (proj1 (proj2 (scale_input_unit_box net [100; 60] [500; 120] [[100; 90]]
                         0 0 eq_refl eq_refl eq_refl
                         (le_n 1) eq_refl (Nat.lt_0_succ 1) Hlt))).
  reflexivity.
Defined.

(** The matrices that [POD_Gfsolve] assembles at row [b] of a batch, by
    the coefficient rows of [getABCoef]. *)
Lemma assemble_row (r : CustomedEqs) (alpha : grid) (b : nat)
  (arow brow : vec -> vec) :
  (forall a, getABCoef cos sin a = (map arow a, map brow a)) ->
  (forall row, arow (firstn 2 row) = arow row /\ brow (firstn 2 row) = brow row) ->
  (b < length alpha)%nat ->
  assemble r (alpha_row alpha b)
  = (sum_axis0 tadd3 (zeros3 (M r) (M r) (M r))
       (zip_with tscale3 (arow (nth b alpha [])) (Aeqs r)),
     (sum_axis0 gadd (zeros2 (M r) (M r)) (zip_with gscale (arow (nth b alpha [])) (Abc r))
      .+ sum_axis0 gadd (zeros2 (M r) (M r))
           (zip_with gscale (brow (nth b alpha [])) (Beqs r)))%G,
     as_column (map Ropp (sum_axis0 vadd (zeros1 (M r))
                            (zip_with vscale (brow (nth b alpha [])) (Bbc r))))).
Proof.
  intros Hcoef Hrow2 Hb.
  unfold assemble. rewrite (alpha_row_in_range alpha b Hb), Hcoef.
  cbn [map squeeze_row nth].
  destruct (Hrow2 (nth b alpha [])) as [-> ->]. reflexivity.
Qed.

(** The residual of [loss_PINN] is the residual of the Galerkin solver at
    the output of the network: for every row [b] of the batch, the row of
    [fx] that [loss_PINN] penalizes is [eqs] of [POD_Gfsolve], for the
    matrices assembled at that parameter row, evaluated at the normalized
    coefficients [unet] returns for it ([u_net] de-normalizes them as [eqs]
    does). *)
Theorem loss_PINN_residual (unet : grid -> grid) (lossfun : grid -> grid -> R)
  (r : CustomedEqs) (alpha : grid) (weight : R) (b : nat) :
  (0 < M r)%nat -> shape2 1 (M r) (proj_mean r) -> shape2 1 (M r) (proj_std r) ->
  let net := CustomedNet_init r in
  let out := unet (scale_input net alpha) in
  let fx := loss_Eqs_fx cos sin net alpha (u_net unet net alpha) in
  (b < length alpha)%nat -> (b < length out)%nat ->
  length (nth b out []) = M r ->
  loss_PINN unet lossfun net alpha weight
  = lossfun (weight *: fx)%G (emap (fun _ => 0) fx)
  /\ nth b (u_net unet net alpha) [] = denormalize r (nth b out [])
  /\ nth b fx []
     = eqs r (nth b out [])
           (fst (fst (assemble r (alpha_row alpha b))))
           (snd (fst (assemble r (alpha_row alpha b))))
           (snd (assemble r (alpha_row alpha b))).
Proof.
  intros HM Hmean Hstd net out fx Hb Hbo Hx.
  split; [ reflexivity | ]. unfold fx.
  destruct (shape2_one_row _ _ Hmean) as [mu [Hmu Hmul]].
  destruct (shape2_one_row _ _ Hstd) as [sd [Hsd Hsdl]].
  assert (Hu : u_net unet net alpha
               = map (fun row => vadd (zip_with Rmult row sd) mu) out).
  { unfold u_net. fold out. unfold net. cbn [CustomedNet_init net_proj_std net_proj_mean].
    rewrite Hmu, Hsd. cbn [bcast_row]. rewrite map_map. reflexivity. }
  assert (Hrowb : nth b (u_net unet net alpha) [] = denormalize r (nth b out [])).
  { rewrite Hu, (denormalize_rows r _ mu sd Hmu Hsd).
    apply (nth_map_in_range (fun row => vadd (zip_with Rmult row sd) mu) out b
             (@nil R) (@nil R)). exact Hbo. }
  split; [ exact Hrowb | ].
  destruct (getABCoef_rowwise cos sin) as [arow [brow [Hcoef Hrow2]]].
  pose proof (denormalize_nonempty r (nth b out []) HM Hmean Hstd Hx) as Hne.
  rewrite (assemble_row r alpha b arow brow Hcoef Hrow2 Hb). cbn [fst snd].
  rewrite (eqs_formula r _ _ _ _ HM Hmean Hstd Hx).
  rewrite (loss_Eqs_fx_row cos sin r alpha _ b arow brow Hcoef Hb).
  - rewrite Hrowb. reflexivity.
  - rewrite Hu, length_map. exact Hbo.
  - rewrite Hrowb. exact Hne.
Qed.

Lemma loss_PINN_residual_witness :
  let r := init_reduced cavity3 in
  let net := CustomedNet_init r in
  let unet := fun x : grid => map (fun _ => [1]) x in
  ((0 < M r)%nat /\ (0 < length [[200; 90]])%nat)
  /\ nth 0 (u_net unet net [[200; 90]]) [] = denormalize r [1].
Proof.
  intros r net unet.
  assert (HM : (0 < M r)%nat) by exact (le_n 1).
  assert (Hmean : shape2 1 (M r) (proj_mean r)).
  { split; [ reflexivity | constructor; [ reflexivity | constructor ] ]. }
  assert (Hstd : shape2 1 (M r) (proj_std r)).
  { split; [ reflexivity | constructor; [ reflexivity | constructor ] ]. }
  split; [ split; [ exact HM | exact (le_n 1) ] | ].
  exact (proj1 (proj2 (loss_PINN_residual unet (fun _ _ => 0) r [[200; 90]] 1 0
                         HM Hmean Hstd (le_n 1) (le_n 1) eq_refl))).
Defined.

(** ** [POD_Gfsolve]: what it prints, and the cases one by one *)

Lemma flat_map_seq_S {A : Type} (f : nat -> list A) (n : nat) :
  flat_map f (seq 0 (S n)) = flat_map f (seq 0 n) ++ f n.
Proof.
  rewrite seq_S, flat_map_app. cbn [flat_map Nat.add]. rewrite app_nil_r.
  reflexivity.
Qed.

(** The output of [POD_Gfsolve] is exactly the lines of the cases whose
    residual norm exceeds the tolerance, in the order of the cases, and
    nothing else; it prints nothing when every case converges. *)
Theorem POD_Gfsolve_output (fsolve : (vec -> vec) -> vec -> vec)
  (s : CustomedEqs) (alpha : grid) (lamda_init : option grid) :
  let line := fun i =>
    let case := solve_case fsolve s alpha lamda_init i in
    if Rgtb (snd case) Newton_eps
    then [PrintCase i (get2 (fst (fst case)) 0 0) (get2 (fst (fst case)) 0 1) (snd case)]
    else [] in
  (exists lamda,
     POD_Gfsolve fsolve alpha lamda_init s
     = mkRes s (flat_map line (seq 0 (length alpha))) (inr lamda))
  /\ ((forall i, (i < length alpha)%nat ->
         snd (solve_case fsolve s alpha lamda_init i) <= Newton_eps) ->
      out (POD_Gfsolve fsolve alpha lamda_init s) = [])
  /\ (length (out (POD_Gfsolve fsolve alpha lamda_init s)) <= length alpha)%nat.
Proof.
  intros line.
  assert (Hrun : exists lamda,
     POD_Gfsolve fsolve alpha lamda_init s
     = mkRes s (flat_map line (seq 0 (length alpha))) (inr lamda)).
  { unfold POD_Gfsolve, bind, get_self. cbn [val obj out].
    set (n := length alpha).
    match goal with
    | |- context [for_rangeM n 0%nat ?body ?acc0 s] =>
        assert (Hloop : exists l (lamda : grid),
                  for_rangeM n 0%nat body acc0 s = mkRes s l (inr lamda)
                  /\ (fun (i : nat) (_ : grid) (log : list event) =>
                        log = flat_map line (seq 0 i))
                       (n + 0)%nat lamda ([] ++ l));
          [ apply (for_rangeM_inv_log
                     (fun (i : nat) (_ : grid) (log : list event) =>
                        log = flat_map line (seq 0 i)) body s n) | ]
    end.
    - intros i lamda log Hi Hlog.
      destruct (solve_case fsolve s alpha lamda_init i) as [[alphai sol] err] eqn:Hc.
      assert (Hline : line i = if Rgtb err Newton_eps
                               then [PrintCase i (get2 alphai 0 0) (get2 alphai 0 1) err]
                               else []).
      { unfold line. rewrite Hc. reflexivity. }
      rewrite flat_map_seq_S, Hline, Hlog.
      destruct (Rgtb err Newton_eps);
        eexists; eexists; (split; [ reflexivity | reflexivity ]).
    - lia.
    - reflexivity.
    - destruct Hloop as [l [lamda [Hfor Hl]]]. rewrite Hfor. cbn [val obj out app].
      cbn [app] in Hl. rewrite Nat.add_0_r in Hl. rewrite Hl.
      exists lamda. reflexivity. }
  split; [ exact Hrun | ].
  destruct Hrun as [lamda Hrun]. rewrite Hrun. cbn [out].
  assert (Hlen : forall k, (length (flat_map line (seq 0 k)) <= k)%nat).
  { induction k as [ | k IH ]; [ simpl; lia | ].
    rewrite flat_map_seq_S, length_app. unfold line at 2.
    destruct (Rgtb _ _); simpl; lia. }
  split; [ | apply Hlen ].
  intros Hall.
  assert (Hk : forall k, (k <= length alpha)%nat -> flat_map line (seq 0 k) = []).
  { induction k as [ | k IH ]; intros Hk; [ reflexivity | ].
    rewrite flat_map_seq_S, IH by lia. cbn [app]. unfold line.
    destruct (Rgtb _ _) eqn:Hgt; [ | reflexivity ].
    apply Rgtb_true_iff in Hgt. specialize (Hall k Hk). lra. }
  apply Hk. lia.
Qed.

Lemma POD_Gfsolve_output_witness :
  (length (out (POD_Gfsolve (fun _ x => x) [[200; 90]]%R None (init_reduced cavity3)))
   <= 1)%nat.
Proof.
  exact (proj2 (proj2 (POD_Gfsolve_output (fun _ x => x) (init_reduced cavity3)
                         [[200; 90]]%R None))).
Defined.

Lemma solve_case_single (fsolve : (vec -> vec) -> vec -> vec) (s : CustomedEqs)
  (alpha : grid) (lamda_init : option grid) (i : nat) :
  (i < length alpha)%nat ->
  match lamda_init with Some l => (i < length l)%nat | None => True end ->
  solve_case fsolve s alpha lamda_init i
  = solve_case fsolve s [nth i alpha []]
               (option_map (fun l => [nth i l []]) lamda_init) 0.
Proof.
  intros Hi Hl.
  assert (Hrow : alpha_row alpha i = alpha_row [nth i alpha []] 0).
  { rewrite (alpha_row_in_range alpha i Hi).
    rewrite (alpha_row_in_range [nth i alpha []] 0) by exact (le_n 1).
    reflexivity. }
  assert (Hguess : initial_guess s (alpha_row alpha i) i lamda_init
                   = initial_guess s (alpha_row [nth i alpha []] 0) 0
                       (option_map (fun l => [nth i l []]) lamda_init)).
  { destruct lamda_init as [ l | ]; cbn [option_map initial_guess].
    - unfold slice_rows. replace (i + 1 - i)%nat with 1%nat by lia.
      rewrite (firstn_1_skipn i l []) by exact Hl. reflexivity.
    - rewrite Hrow. reflexivity. }
  unfold solve_case. rewrite <- Hguess, <- Hrow. reflexivity.
Qed.

(** The cases of a batch are solved independently: the row stored for
    case [i], and whether it is reported, are those of the batch made of
    the parameter row [i] alone (with row [i] of the initial guesses, when
    they are supplied). *)
Theorem POD_Gfsolve_case_by_case (fsolve : (vec -> vec) -> vec -> vec)
  (s : CustomedEqs) (alpha : grid) (lamda_init : option grid) (i : nat) :
  (i < length alpha)%nat ->
  match lamda_init with Some l => (i < length l)%nat | None => True end ->
  exists log lamda log1 lamda1,
    POD_Gfsolve fsolve alpha lamda_init s = mkRes s log (inr lamda)
    /\ POD_Gfsolve fsolve [nth i alpha []]
         (option_map (fun l => [nth i l []]) lamda_init) s
       = mkRes s log1 (inr lamda1)
    /\ nth i lamda [] = nth 0 lamda1 []
    /\ (reported log i <-> reported log1 0).
Proof.
  intros Hi Hl.
  destruct (POD_Gfsolve_run fsolve s alpha lamda_init)
    as [log [lamda [Hrun [_ [Hrows Hlog]]]]].
  destruct (POD_Gfsolve_run fsolve s [nth i alpha []]
              (option_map (fun l => [nth i l []]) lamda_init))
    as [log1 [lamda1 [Hrun1 [_ [Hrows1 Hlog1]]]]].
  pose proof (solve_case_single fsolve s alpha lamda_init i Hi Hl) as Hsame.
  exists log, lamda, log1, lamda1.
  split; [ exact Hrun | ]. split; [ exact Hrun1 | ].
  split.
  - rewrite (Hrows i Hi), (Hrows1 0%nat (le_n 1)), Hsame. reflexivity.
  - split.
    + intros [a0 [a1 [e He]]]. apply Hlog in He as [j [Hj [Hgt Heq]]].
      injection Heq as <- _ _ _. rewrite Hsame in Hgt.
      eexists; eexists; eexists. apply Hlog1. exists 0%nat.
      split; [ exact (le_n 1) | split; [ exact Hgt | reflexivity ] ].
    + intros [a0 [a1 [e He]]]. apply Hlog1 in He as [j [Hj [Hgt Heq]]].
      injection Heq as <- _ _ _. rewrite <- Hsame in Hgt.
      eexists; eexists; eexists. apply Hlog. exists i.
      split; [ exact Hi | split; [ exact Hgt | reflexivity ] ].
Qed.

Lemma POD_Gfsolve_case_by_case_witness :
  exists log lamda log1 lamda1,
    POD_Gfsolve (fun _ x => x) [[100; 60]; [200; 90]] None (init_reduced cavity3)
    = mkRes (init_reduced cavity3) log (inr lamda)
    /\ POD_Gfsolve (fun _ x => x) [[200; 90]] None (init_reduced cavity3)
       = mkRes (init_reduced cavity3) log1 (inr lamda1)
    /\ nth 1 lamda [] = nth 0 lamda1 [].
Proof.
  destruct (POD_Gfsolve_case_by_case (fun _ x => x) (init_reduced cavity3)
              [[100; 60]; [200; 90]] None 1 (le_n 2) I)
    as [log [lamda [log1 [lamda1 [H1 [H2 [H3 _]]]]]]].
  exists log, lamda, log1, lamda1. auto.
Defined.

(** ** [GetPredFields]: the files and the stream function *)

Lemma length_flat_map_const {A B : Type} (f : A -> list B) (l : list A) (n : nat) :
  (forall x, length (f x) = n) -> length (flat_map f l) = (length l * n)%nat.
Proof.
  intros Hf. induction l as [ | x t IH ]; [ reflexivity | ].
  cbn [flat_map length]. rewrite length_app, Hf, IH. lia.
Qed.

Lemma plt_lines_format (Nx Ny : nat) (c : case_data) (psii : grid) :
  length (plt_lines Nx Ny c psii) = (Nx * Ny)%nat
  /\ Forall (fun l => length l = 7%nat) (plt_lines Nx Ny c psii).
Proof.
  unfold plt_lines. split.
  - rewrite (length_flat_map_const _ _ Nx).
    + rewrite length_seq. lia.
    + intros j. rewrite length_map, length_seq. reflexivity.
  - apply Forall_forall. intros l Hl.
    apply in_flat_map in Hl as [j [_ Hl]].
    apply in_map_iff in Hl as [i [<- _]]. reflexivity.
Qed.

(** One case of [GetPredFields], with what it writes. *)
Lemma pred_case_detail (self : CustomedEqs) (alpha phi_pred : grid)
  (J : grid * grid * grid * grid) (filename : string) (icase : nat)
  (Fields : tensor4) (s : CustomedEqs) :
  let c := case_setup self alpha phi_pred J icase in
  exists (k : nat) (prog : list event),
    pred_case self alpha phi_pred J filename icase Fields s
    = mkRes s
        (prog ++ [WritePlt filename icase (snd (FieldShape self)) (fst (FieldShape self))
                    (plt_lines (fst (FieldShape self)) (snd (FieldShape self)) c
                       (relax_iter self (c_J11 c) (c_J12 c) (c_J21 c) (c_J22 c)
                                   (c_omega c) (c_dt c) k (0 *: c_omega c)%G))])
        (inr (Fields ++ [[c_xp c; c_yp c; c_p c; c_u c; c_v c; c_omega c;
                          relax_iter self (c_J11 c) (c_J12 c) (c_J21 c) (c_J22 c)
                                     (c_omega c) (c_dt c) k (0 *: c_omega c)%G]]))
    /\ Forall is_progress prog.
Proof.
  intros c.
  destruct (relax_run self (c_J11 c) (c_J12 c) (c_J21 c) (c_J22 c) (c_omega c)
              (c_dt c) relax_budget 0%N (0 *: c_omega c)%G s)
    as [k [log [Hrun [_ [_ [_ [_ Hlog]]]]]]].
  exists k, log. split; [ | exact Hlog ].
  unfold pred_case. fold c. unfold bind. rewrite Hrun. cbn [val obj out].
  destruct (FieldShape self) as [Nx Ny]. cbn [val obj out emit ret fst snd].
  rewrite app_nil_r. reflexivity.
Qed.

(** The whole run of [GetPredFields] on a batch of at least one case. *)
Lemma GetPredFields_run (s : CustomedEqs) (alpha lamda : grid) (filename : string) :
  lamda <> [] ->
  let phi_pred := matmul lamda (transpose (Modes s)) in
  let J := getJac cos sin alpha in
  exists (chunks : list (list event)) (Fields : tensor4),
    GetPredFields alpha lamda filename s
    = mkRes s (concat chunks ++ [SaveMat filename Fields]) (inr Fields)
    /\ length chunks = length lamda
    /\ length Fields = length lamda
    /\ forall i, (i < length lamda)%nat ->
         let c := case_setup s alpha phi_pred J i in
         exists (k : nat) (prog : list event),
           let psi := relax_iter s (c_J11 c) (c_J12 c) (c_J21 c) (c_J22 c)
                                 (c_omega c) (c_dt c) k (0 *: c_omega c)%G in
           nth i chunks []
           = prog ++ [WritePlt filename i (snd (FieldShape s)) (fst (FieldShape s))
                        (plt_lines (fst (FieldShape s)) (snd (FieldShape s)) c psi)]
           /\ Forall is_progress prog
           /\ nth i Fields []
              = [c_xp c; c_yp c; c_p c; c_u c; c_v c; c_omega c; psi].
Proof.
  intros Hne phi_pred J.
  set (Good := fun (i : nat) (chunk : list event) (F : tensor3) =>
    let c := case_setup s alpha phi_pred J i in
    exists (k : nat) (prog : list event),
      let psi := relax_iter s (c_J11 c) (c_J12 c) (c_J21 c) (c_J22 c)
                            (c_omega c) (c_dt c) k (0 *: c_omega c)%G in
      chunk = prog ++ [WritePlt filename i (snd (FieldShape s)) (fst (FieldShape s))
                         (plt_lines (fst (FieldShape s)) (snd (FieldShape s)) c psi)]
      /\ Forall is_progress prog
      /\ F = [c_xp c; c_yp c; c_p c; c_u c; c_v c; c_omega c; psi]).
  set (P := fun (i : nat) (Fs : tensor4) (log : list event) =>
    exists chunks : list (list event),
      log = concat chunks /\ length chunks = i /\ length Fs = i
      /\ forall j, (j < i)%nat -> Good j (nth j chunks []) (nth j Fs [])).
  assert (Hloop : exists l Fs,
            for_rangeM (length lamda) 0%nat
              (pred_case s alpha phi_pred J filename) [] s
            = mkRes s l (inr Fs)
            /\ P (length lamda + 0)%nat Fs ([] ++ l)).
  { apply (for_rangeM_inv_log P _ s (length lamda)).
    - intros i Fs log _ [chunks [Hlog [Hlc [HlF Hall]]]].
      destruct (pred_case_detail s alpha phi_pred J filename i Fs s)
        as [k [prog [Hrun Hprog]]].
      eexists; eexists; split; [ exact Hrun | ].
      match type of Hrun with
      | _ = mkRes _ ?o _ => exists (chunks ++ [o])
      end.
      split; [ rewrite concat_app, Hlog; cbn [concat]; rewrite app_nil_r; reflexivity | ].
      split; [ rewrite length_app; simpl; lia | ].
      split; [ rewrite length_app; simpl; lia | ].
      intros j Hj. destruct (Nat.eq_dec j i) as [-> | Hji].
      + rewrite !app_nth2 by lia. rewrite Hlc, HlF, Nat.sub_diag. cbn [nth].
        exists k, prog. cbv zeta. auto.
      + rewrite !app_nth1 by lia. apply Hall. lia.
    - lia.
    - exists []. repeat split; intros j Hj; lia. }
  destruct Hloop as [l [Fs [Hfor [chunks [Hlog [Hlc [HlF Hall]]]]]]].
  rewrite Nat.add_0_r in Hlc, HlF, Hall. cbn [app] in Hlog.
  exists chunks, Fs.
  split; [ | split; [ exact Hlc | split; [ exact HlF | exact Hall ] ] ].
  unfold GetPredFields, bind, get_self. cbn [val obj out].
  fold phi_pred. fold J. rewrite Hfor. cbn [val obj out].
  destruct Fs as [ | F Fs' ];
    [ destruct lamda; [ congruence | discriminate ] | ].
  cbn [np_stack ret val obj out emit app]. rewrite Hlog.
  rewrite ?app_nil_r, ?app_nil_l. reflexivity.
Qed.

(** For a batch of at least one case [GetPredFields] writes one [.plt]
    file per case, in the order of the cases, each with its case number,
    the grid dimensions and Nx*Ny lines of seven values; between the files
    only progress lines of the relaxation are printed; the [.mat] archive
    is saved last, with one entry of seven grids per case. *)
Theorem GetPredFields_files (s : CustomedEqs) (alpha lamda : grid)
  (filename : string) :
  lamda <> [] ->
  exists (chunks : list (list event)) (Fields : tensor4),
    GetPredFields alpha lamda filename s
    = mkRes s (concat chunks ++ [SaveMat filename Fields]) (inr Fields)
    /\ length chunks = length lamda
    /\ length Fields = length lamda
    /\ Forall (fun F => length F = 7%nat) Fields
    /\ forall i, (i < length lamda)%nat ->
         exists prog lines,
           nth i chunks []
           = prog ++ [WritePlt filename i (snd (FieldShape s)) (fst (FieldShape s)) lines]
           /\ Forall is_progress prog
           /\ length lines = (fst (FieldShape s) * snd (FieldShape s))%nat
           /\ Forall (fun l => length l = 7%nat) lines.
Proof.
  intros Hne.
  destruct (GetPredFields_run s alpha lamda filename Hne)
    as [chunks [Fields [Hrun [Hlc [HlF Hall]]]]].
  exists chunks, Fields.
  split; [ exact Hrun | ]. split; [ exact Hlc | ]. split; [ exact HlF | ].
  split.
  - apply Forall_forall. intros F HF.
    apply (In_nth _ _ []) in HF as [i [Hi HFi]].
    assert (Hi' : (i < length lamda)%nat) by (rewrite <- HlF; exact Hi).
    destruct (Hall i Hi') as [k [prog [_ [_ HF]]]].
    rewrite (eq_trans (eq_sym HFi) HF). reflexivity.
  - intros i Hi. destruct (Hall i Hi) as [k [prog [Hchunk [Hprog _]]]].
    eexists; eexists. split; [ exact Hchunk | ]. split; [ exact Hprog | ].
    apply plt_lines_format.
Qed.

Lemma GetPredFields_files_witness :
  exists (chunks : list (list event)) (Fields : tensor4),
    GetPredFields [[200; 90]] [[1]] EmptyString cavity3
    = mkRes cavity3 (concat chunks ++ [SaveMat EmptyString Fields]) (inr Fields)
    /\ length chunks = 1%nat.
Proof.
  assert (Hne : [[1]] <> @nil (list R)) by discriminate.
  destruct (GetPredFields_files cavity3 [[200; 90]] [[1]] EmptyString Hne)
    as [chunks [Fields [Hrun [Hlc _]]]].
  exists chunks, Fields. split; [ exact Hrun | exact Hlc ].
Defined.

(** On an empty batch [GetPredFields] fails with a ValueError, whatever
    the parameters and the file name are: the loop over the cases does not
    run, so no [.plt] file is written, and [np.stack] of no array raises
    before the archive is saved; the object is as it was.  (When the empty
    batch does not have one column per mode, the code raises the same
    ValueError earlier, in [np.matmul].) *)
Theorem GetPredFields_empty_batch (s : CustomedEqs) (alpha lamda : grid)
  (filename : string) :
  length lamda = 0%nat ->
  GetPredFields alpha lamda filename s = mkRes s [] (inl ValueError)
  /\ (forall e, In e (out (GetPredFields alpha lamda filename s)) ->
        match e with WritePlt _ _ _ _ _ | SaveMat _ _ => False | _ => True end).
Proof.
  intros Hlen. destruct lamda as [ | row rest ]; [ | discriminate ].
  split; [ reflexivity | ]. intros e He. destruct He.
Qed.

Lemma GetPredFields_empty_batch_witness :
  GetPredFields [[200; 90]] [] EmptyString cavity3
  = mkRes cavity3 [] (inl ValueError).
Proof.
  exact (proj1 (GetPredFields_empty_batch cavity3 [[200; 90]] [] EmptyString
                  eq_refl)).
Defined.

Lemma get2_zero_scaled (g : grid) (a b : nat) : get2 (0 *: g)%G a b = 0.
Proof.
  unfold gscale.
  destruct (Nat.lt_ge_cases a (length g)) as [Ha | Ha];
    [ destruct (Nat.lt_ge_cases b (length (nth a g []))) as [Hb | Hb] | ].
  - rewrite get2_emap by assumption. lra.
  - unfold get2, get1. apply nth_overflow. rewrite length_nth_emap. exact Hb.
  - unfold get2, get1. rewrite (nth_overflow (emap _ _));
      [ destruct b; reflexivity | rewrite length_emap; exact Ha ].
Qed.

Lemma get2_gtimes_zero (g : grid) (c : R) (a b : nat) :
  get2 g a b = 0 -> get2 (gtimes g c) a b = 0.
Proof.
  intros Hg. unfold gtimes.
  destruct (Nat.lt_ge_cases a (length g)) as [Ha | Ha];
    [ destruct (Nat.lt_ge_cases b (length (nth a g []))) as [Hb | Hb] | ].
  - rewrite get2_emap by assumption. rewrite Hg. lra.
  - unfold get2, get1. apply nth_overflow. rewrite length_nth_emap. exact Hb.
  - unfold get2, get1. rewrite (nth_overflow (emap _ _));
      [ destruct b; reflexivity | rewrite length_emap; exact Ha ].
Qed.

Lemma get2_gadd_zero (g g' : grid) (a b : nat) :
  get2 g a b = 0 -> get2 g' a b = 0 -> get2 (g .+ g')%G a b = 0.
Proof.
  intros Hg Hg'. unfold gadd.
  destruct (Nat.lt_ge_cases a (length g)) as [Ha | Ha];
    [ destruct (Nat.lt_ge_cases a (length g')) as [Ha' | Ha'];
      [ destruct (Nat.lt_ge_cases b (length (nth a g []))) as [Hb | Hb];
        [ destruct (Nat.lt_ge_cases b (length (nth a g' []))) as [Hb' | Hb'] | ] | ] | ].
  - rewrite get2_emap2 by assumption. rewrite Hg, Hg'. lra.
  - apply get2_emap2_outside. lia.
  - apply get2_emap2_outside. lia.
  - apply get2_emap2_outside. lia.
  - apply get2_emap2_outside. lia.
Qed.

(** Where the mask is zero the iterates keep a zero value. *)
Lemma relax_iter_masked (self : CustomedEqs) (J11 J12 J21 J22 : R)
  (omegai : grid) (dt : R) (a b k : nat) :
  get2 (Interior self) a b = 0 ->
  forall psi, get2 psi a b = 0 ->
    get2 (relax_iter self J11 J12 J21 J22 omegai dt k psi) a b = 0.
Proof.
  intros Hm. induction k as [ | k IH ]; intros psi Hpsi; [ exact Hpsi | ].
  cbn [relax_iter]. apply IH. unfold relax_step.
  apply get2_gadd_zero; [ exact Hpsi | ].
  apply get2_gtimes_zero. apply relax_dpsi_masked. exact Hm.
Qed.

(** The stream function that [GetPredFields] returns (field 6 of every
    entry) is zero at every boundary point: it starts from zero and the
    relaxation never changes a point outside of the interior mask. *)
Theorem stream_function_boundary (s : CustomedEqs) (alpha lamda : grid)
  (filename : string) :
  Interior s = Interior_of (FieldShape s) ->
  lamda <> [] ->
  exists log Fields,
    GetPredFields alpha lamda filename s = mkRes s log (inr Fields)
    /\ Forall (fun F =>
         forall a b, boundary_point (FieldShape s) a b ->
           get2 (nth 6 F []) a b = 0) Fields.
Proof.
  intros HI Hne.
  destruct (GetPredFields_run s alpha lamda filename Hne)
    as [chunks [Fields [Hrun [Hlc [HlF Hall]]]]].
  eexists; exists Fields. split; [ exact Hrun | ].
  apply Forall_forall. intros F HF.
  apply (In_nth _ _ []) in HF as [i [Hi HFi]].
  assert (Hi' : (i < length lamda)%nat) by (rewrite <- HlF; exact Hi).
  destruct (Hall i Hi') as [k [prog [_ [_ HF]]]].
  rewrite (eq_trans (eq_sym HFi) HF). cbn [nth].
  intros a b Hbd. apply relax_iter_masked.
  - rewrite HI. apply Interior_of_boundary. exact Hbd.
  - apply get2_zero_scaled.
Qed.

Lemma stream_function_boundary_witness :
  Interior cavity3 = Interior_of (FieldShape cavity3)
  /\ exists log Fields,
       GetPredFields [[200; 90]] [[1]] EmptyString cavity3
       = mkRes cavity3 log (inr Fields).
Proof.
  split; [ reflexivity | ].
  assert (Hne : [[1]] <> @nil (list R)) by discriminate.
  destruct (stream_function_boundary cavity3 [[200; 90]] [[1]] EmptyString
              eq_refl Hne) as [log [Fields [Hrun _]]].
  exists log, Fields. exact Hrun.
Defined.

(** ** Snapshots and fields: [ExtractInteriorSnapshots], [Mode2Field] *)

Lemma nth_firstn_lt {A : Type} (n i : nat) (l : list A) (d : A) :
  (i < n)%nat -> nth i (firstn n l) d = nth i l d.
Proof.
  intros H. rewrite nth_firstn. apply Nat.ltb_lt in H. rewrite H. reflexivity.
Qed.

Lemma length_inner {A : Type} (l : list A) : length (inner l) = (length l - 2)%nat.
Proof. unfold inner. rewrite length_firstn, length_skipn. lia. Qed.

Lemma nth_inner {A : Type} (l : list A) (i : nat) (d : A) :
  (i < length l - 2)%nat -> nth i (inner l) d = nth (S i) l d.
Proof.
  intros H. unfold inner. rewrite nth_firstn_lt by exact H.
  rewrite nth_skipn. reflexivity.
Qed.

Lemma In_firstn_of {A : Type} (n : nat) (l : list A) (x : A) :
  In x (firstn n l) -> In x l.
Proof.
  intros H. rewrite <- (firstn_skipn n l). apply in_or_app. left. exact H.
Qed.

Lemma In_skipn_of {A : Type} (n : nat) (l : list A) (x : A) :
  In x (skipn n l) -> In x l.
Proof.
  intros H. rewrite <- (firstn_skipn n l). apply in_or_app. right. exact H.
Qed.

Lemma In_inner {A : Type} (l : list A) (x : A) : In x (inner l) -> In x l.
Proof.
  unfold inner. intros H. apply In_firstn_of in H. apply In_skipn_of in H. exact H.
Qed.

Lemma length_regroup {A : Type} (r c : nat) (l : list A) :
  length (regroup r c l) = r.
Proof. unfold regroup. rewrite length_map, length_seq. reflexivity. Qed.

Lemma nth_regroup {A : Type} (r c a : nat) (l : list A) :
  (a < r)%nat -> nth a (regroup r c l) [] = firstn c (skipn (a * c) l).
Proof.
  intros H. unfold regroup.
  rewrite (nth_map_in_range _ _ a [] 0%nat) by (rewrite length_seq; exact H).
  rewrite seq_nth by exact H. reflexivity.
Qed.

Lemma nth_nth_regroup {A : Type} (r c a b : nat) (l : list A) (d : A) :
  (a < r)%nat -> (b < c)%nat ->
  nth b (nth a (regroup r c l) []) d = nth (a * c + b) l d.
Proof.
  intros Ha Hb. rewrite nth_regroup by exact Ha.
  rewrite nth_firstn_lt by exact Hb. apply nth_skipn.
Qed.

Lemma regroup_uniform {A : Type} (r c : nat) (l : list A) :
  (r * c <= length l)%nat -> Forall (fun x => length x = c) (regroup r c l).
Proof.
  intros Hl. apply Forall_forall. intros x Hx.
  apply (In_nth _ _ []) in Hx as [a [Ha <-]]. rewrite length_regroup in Ha.
  rewrite nth_regroup by exact Ha. rewrite length_firstn, length_skipn.
  assert (a * c + c <= r * c)%nat by nia. lia.
Qed.

Lemma nth_concat_uniform {A : Type} (L : list (list A)) (c i j : nat) (d : A) :
  Forall (fun l => length l = c) L -> (j < c)%nat ->
  nth (i * c + j) (concat L) d = nth j (nth i L []) d.
Proof.
  intros HL Hj. revert i. induction HL as [ | x t Hx _ IH ]; intros i.
  - destruct i, j; destruct (_ + _)%nat; reflexivity.
  - cbn [concat]. destruct i as [ | i ].
    + cbn [nth Nat.mul Nat.add]. apply app_nth1. lia.
    + rewrite app_nth2 by (rewrite Hx; simpl; lia).
      replace (S i * c + j - length x)%nat with (i * c + j)%nat
        by (rewrite Hx; simpl; lia).
      cbn [nth]. apply IH.
Qed.

Lemma length_concat_uniform {A : Type} (L : list (list A)) (c : nat) :
  Forall (fun l => length l = c) L -> length (concat L) = (length L * c)%nat.
Proof.
  intros HL. induction HL as [ | x t Hx _ IH ]; [ reflexivity | ].
  cbn [concat length]. rewrite length_app, Hx, IH. simpl. lia.
Qed.

Lemma Forall_concat_of {A : Type} (P : A -> Prop) (L : list (list A)) :
  Forall (Forall P) L -> Forall P (concat L).
Proof.
  intros HL. induction HL as [ | x t Hx _ IH ]; [ constructor | ].
  cbn [concat]. apply Forall_app. split; assumption.
Qed.

(** The rows that [ExtractInteriorSnapshots] keeps, before they are joined:
    for every interior grid point, the first [NVAR] of its [NVARLOAD] rows. *)
Lemma interior_rows (Nx Ny : nat) (Samples : grid) :
  length Samples = (Nx * Ny * NVARLOAD)%nat ->
  let t := regroup Nx Ny (regroup (Nx * Ny) NVARLOAD Samples) in
  let X := map (fun plane => map (firstn NVAR) (inner plane)) (inner t) in
  length X = (Nx - 2)%nat
  /\ Forall (fun l => length l = (Ny - 2)%nat) X
  /\ Forall (fun l => length l = NVAR) (concat X)
  /\ forall a b, interior_point (Nx, Ny) a b ->
       nth (b - 1) (nth (a - 1) X []) []
       = firstn NVAR (firstn NVARLOAD (skipn ((a * Ny + b) * NVARLOAD) Samples)).
Proof.
  intros Hlen t X.
  assert (HG : Forall (fun x => length x = NVARLOAD)
                 (regroup (Nx * Ny) NVARLOAD Samples))
    by (apply regroup_uniform; lia).
  assert (Ht : Forall (fun x => length x = Ny) t)
    by (apply regroup_uniform; rewrite length_regroup; lia).
  assert (Hlt : length t = Nx) by apply length_regroup.
  assert (HlX : length X = (Nx - 2)%nat).
  { unfold X. rewrite length_map, length_inner, Hlt. reflexivity. }
  split; [ exact HlX | ]. split; [ | split ].
  - apply Forall_forall. intros l Hl. unfold X in Hl.
    apply in_map_iff in Hl as [plane [<- Hp]]. apply In_inner in Hp.
    rewrite length_map, length_inner.
    rewrite Forall_forall in Ht. rewrite (Ht plane Hp). reflexivity.
  - apply Forall_concat_of. apply Forall_forall. intros l Hl. unfold X in Hl.
    apply in_map_iff in Hl as [plane [<- Hp]]. apply In_inner in Hp.
    apply Forall_forall. intros row Hrow.
    apply in_map_iff in Hrow as [row6 [<- Hr6]]. apply In_inner in Hr6.
    assert (Hin : In row6 (regroup (Nx * Ny) NVARLOAD Samples)).
    { unfold t in Hp. apply (In_nth _ _ []) in Hp as [a [Ha <-]].
      rewrite length_regroup in Ha. rewrite nth_regroup in Hr6 by exact Ha.
      apply In_firstn_of in Hr6. apply In_skipn_of in Hr6. exact Hr6. }
    rewrite Forall_forall in HG. rewrite length_firstn, (HG row6 Hin).
    reflexivity.
  - intros a b [Ha1 [Ha2 [Hb1 Hb2]]]. cbn [fst snd] in *.
    unfold X.
    rewrite (nth_map_in_range _ _ (a - 1) [] [])
      by (rewrite length_inner, Hlt; lia).
    rewrite nth_inner by (rewrite Hlt; lia).
    replace (S (a - 1)) with a by lia.
    assert (Hpl : length (nth a t []) = Ny).
    { rewrite Forall_forall in Ht. apply Ht. apply nth_In. lia. }
    rewrite (nth_map_in_range _ _ (b - 1) [] [])
      by (rewrite length_inner, Hpl; lia).
    rewrite nth_inner by (rewrite Hpl; lia).
    replace (S (b - 1)) with b by lia.
    unfold t. rewrite nth_nth_regroup by lia.
    rewrite nth_regroup by nia. reflexivity.
Qed.

(** The rows of [ExtractInteriorSnapshots], one by one. *)
Lemma ExtractInteriorSnapshots_nth (s : CustomedEqs) (Samples : grid)
  (a b var : nat) :
  length Samples = (fst (FieldShape s) * snd (FieldShape s) * NVARLOAD)%nat ->
  interior_point (FieldShape s) a b -> (var < NVAR)%nat ->
  length (ExtractInteriorSnapshots s Samples)
  = (NVAR * ((fst (FieldShape s) - 2) * (snd (FieldShape s) - 2)))%nat
  /\ nth (NVAR * ((a - 1) * (snd (FieldShape s) - 2) + (b - 1)) + var)
         (ExtractInteriorSnapshots s Samples) []
     = nth (NVARLOAD * (a * snd (FieldShape s) + b) + var) Samples [].
Proof.
  unfold ExtractInteriorSnapshots. destruct (FieldShape s) as [Nx Ny].
  cbn [fst snd]. intros Hlen Hint Hvar.
  destruct (interior_rows Nx Ny Samples Hlen) as [HlX [HX [HcX Hnth]]].
  cbv zeta in HlX, HX, HcX, Hnth. split.
  - rewrite (length_concat_uniform _ NVAR) by exact HcX.
    rewrite (length_concat_uniform _ (Ny - 2)) by exact HX.
    rewrite HlX. lia.
  - destruct Hint as [Ha1 [Ha2 [Hb1 Hb2]]]. cbn [fst snd] in *.
    rewrite (Nat.mul_comm NVAR).
    rewrite (nth_concat_uniform _ NVAR) by assumption.
    rewrite (nth_concat_uniform _ (Ny - 2)) by (assumption || lia).
    rewrite Hnth by (unfold interior_point; cbn [fst snd]; lia).
    rewrite !nth_firstn_lt by (unfold NVAR, NVARLOAD in *; lia).
    rewrite nth_skipn. f_equal. lia.
Qed.

(** C-order rows: the interior rows of a snapshot matrix are renumbered
    from [NVARLOAD*(a*Ny + b) + var] to [NVAR*((a-1)*(Ny-2) + (b-1)) + var];
    the boundary points and the loaded variables beyond the first [NVAR]
    are dropped. *)
Theorem ExtractInteriorSnapshots_rows (s : CustomedEqs) (Samples : grid) :
  length Samples = (fst (FieldShape s) * snd (FieldShape s) * NVARLOAD)%nat ->
  length (ExtractInteriorSnapshots s Samples)
  = (NVAR * ((fst (FieldShape s) - 2) * (snd (FieldShape s) - 2)))%nat
  /\ forall a b var,
       interior_point (FieldShape s) a b -> (var < NVAR)%nat ->
       nth (NVAR * ((a - 1) * (snd (FieldShape s) - 2) + (b - 1)) + var)
           (ExtractInteriorSnapshots s Samples) []
       = nth (NVARLOAD * (a * snd (FieldShape s) + b) + var) Samples [].
Proof.
  intros Hlen. split.
  - unfold ExtractInteriorSnapshots. destruct (FieldShape s) as [Nx Ny].
    cbn [fst snd] in *.
    destruct (interior_rows Nx Ny Samples Hlen) as [HlX [HX [HcX _]]].
    cbv zeta in HlX, HX, HcX.
    rewrite (length_concat_uniform _ NVAR) by exact HcX.
    rewrite (length_concat_uniform _ (Ny - 2)) by exact HX.
    rewrite HlX. lia.
  - intros a b var Hint Hvar.
    apply (ExtractInteriorSnapshots_nth s Samples a b var Hlen Hint Hvar).
Qed.

Lemma ExtractInteriorSnapshots_rows_witness :
  length samples3 = 54%nat
  /\ length (ExtractInteriorSnapshots cavity3 samples3) = 3%nat
  /\ nth 1 (ExtractInteriorSnapshots cavity3 samples3) [] = nth 25 samples3 [].
Proof.
  assert (Hlen : length samples3
                 = (fst (FieldShape cavity3) * snd (FieldShape cavity3) * NVARLOAD)%nat)
    by reflexivity.
  destruct (ExtractInteriorSnapshots_rows cavity3 samples3 Hlen) as [Hl H].
  split; [ reflexivity | ]. split; [ exact Hl | ].
  apply (H 1%nat 1%nat 1%nat).
  - unfold interior_point. cbn [fst snd FieldShape cavity3]. lia.
  - unfold NVAR. lia.
Defined.

Lemma get2_assign_block_inside (r0 r1 c0 c1 : nat) (src : nat -> nat -> R)
  (base : grid) (a b : nat) :
  (a < length base)%nat -> (b < length (nth a base []))%nat ->
  (r0 <=? a)%nat && (a <? r1)%nat && (c0 <=? b)%nat && (b <? c1)%nat = true ->
  get2 (assign_block r0 r1 c0 c1 src base) a b = src (a - r0)%nat (b - c0)%nat.
Proof.
  intros Ha Hb Hin. unfold get2, get1, assign_block.
  rewrite (nth_imap _ base a [] []) by exact Ha.
  rewrite (nth_imap _ _ b 0 0) by exact Hb.
  rewrite Hin. reflexivity.
Qed.

Lemma interior_point_inside (Nx Ny a b : nat) :
  interior_point (Nx, Ny) a b ->
  (1 <=? a)%nat && (a <? Nx - 1)%nat && (1 <=? b)%nat && (b <? Ny - 1)%nat = true.
Proof.
  unfold interior_point; cbn [fst snd]. intros [Ha1 [Ha2 [Hb1 Hb2]]].
  apply Nat.leb_le in Ha1, Hb1. apply Nat.ltb_lt in Ha2, Hb2.
  rewrite Ha1, Ha2, Hb1, Hb2. reflexivity.
Qed.

Lemma length_nth_zeros2 (n m a : nat) :
  (a < n)%nat -> length (nth a (zeros2 n m) []) = m.
Proof.
  intros Ha. unfold zeros2.
  rewrite (nth_indep _ [] (zeros1 m)) by (rewrite repeat_length; exact Ha).
  rewrite nth_repeat_default. apply repeat_length.
Qed.

Lemma shape2_assign_block_zeros (r0 r1 c0 c1 : nat) (src : nat -> nat -> R)
  (Nx Ny : nat) :
  shape2 Nx Ny (assign_block r0 r1 c0 c1 src (zeros2 Nx Ny)).
Proof.
  unfold assign_block. split.
  - rewrite length_imap. apply repeat_length.
  - apply Forall_forall. intros row Hrow.
    apply (In_nth _ _ []) in Hrow as [a [Ha <-]].
    rewrite length_imap in Ha.
    rewrite (nth_imap _ _ a [] []) by exact Ha.
    unfold shape1. rewrite length_imap.
    apply length_nth_zeros2. unfold zeros2 in Ha. rewrite repeat_length in Ha.
    exact Ha.
Qed.

(** [v[start::step]] of an array of [n*step] entries has [n] entries, the
    [k]-th of which is [v[start + k*step]]. *)
Lemma length_strided (start step n : nat) (v : vec) :
  (start < step)%nat -> length v = (n * step)%nat ->
  length (strided start step v) = n.
Proof.
  intros Hs Hl. unfold strided. rewrite length_map, length_seq, Hl.
  destruct n as [ | n ].
  - simpl. apply Nat.div_small. lia.
  - assert (Hge : (step <= S n * step)%nat) by (simpl; lia).
    replace (S n * step - start + (step - 1))%nat
      with (S n * step + (step - 1 - start))%nat by lia.
    rewrite Nat.div_add_l by lia.
    rewrite (Nat.div_small (step - 1 - start)) by lia. lia.
Qed.

Lemma nth_strided (start step n k : nat) (v : vec) :
  (start < step)%nat -> length v = (n * step)%nat ->
  nth k (strided start step v) 0 = nth (start + k * step) v 0.
Proof.
  intros Hs Hl. pose proof (length_strided start step n v Hs Hl) as Hc.
  destruct (Nat.lt_ge_cases k n) as [Hk | Hk].
  - unfold strided in *. rewrite length_map, length_seq in Hc.
    rewrite (nth_map_in_range _ _ k 0 0%nat) by (rewrite length_seq, Hc; exact Hk).
    rewrite seq_nth by (rewrite Hc; exact Hk). reflexivity.
  - rewrite !nth_overflow; [ reflexivity | rewrite Hl; nia | rewrite Hc; exact Hk ].
Qed.

(** One field of [Mode2Field] at an interior point. *)
Lemma interior_block_nth (Nx Ny var a b : nat) (Vec : vec) :
  (var < NVAR)%nat -> length Vec = (NVAR * ((Nx - 2) * (Ny - 2)))%nat ->
  interior_point (Nx, Ny) a b ->
  get2 (assign_block 1 (Nx - 1) 1 (Ny - 1)
          (fun a b => get2 (reshape2 (Nx - 2) (Ny - 2) (strided var NVAR Vec)) a b)
          (zeros2 Nx Ny)) a b
  = nth (NVAR * ((a - 1) * (Ny - 2) + (b - 1)) + var) Vec 0.
Proof.
  intros Hvar Hlen Hint.
  pose proof (interior_point_inside Nx Ny a b Hint) as Hin.
  destruct Hint as [Ha1 [Ha2 [Hb1 Hb2]]]; cbn [fst snd] in *.
  rewrite get2_assign_block_inside.
  - unfold get2, get1.
    change (reshape2 (Nx - 2) (Ny - 2) (strided var NVAR Vec))
      with (@regroup R (Nx - 2) (Ny - 2) (strided var NVAR Vec)).
    rewrite nth_nth_regroup by lia.
    rewrite (nth_strided var NVAR ((Nx - 2) * (Ny - 2)))
      by (assumption || (rewrite Hlen; lia)).
    f_equal. lia.
  - unfold zeros2. rewrite repeat_length. lia.
  - rewrite length_nth_zeros2; lia.
  - exact Hin.
Qed.

(** At an interior point [(a, b)] the three fields of [Mode2Field] are
    three consecutive entries of the coefficient vector: with
    [k = (a-1)*(Ny-2) + (b-1)], the pressure is entry [3k], the x-velocity
    entry [3k+1] and the y-velocity entry [3k+2]. *)
Theorem Mode2Field_interior (s : CustomedEqs) (Vec : vec) (a b : nat) :
  InteriorShape s = ((fst (FieldShape s) - 2)%nat, (snd (FieldShape s) - 2)%nat) ->
  length Vec = (NVAR * ((fst (FieldShape s) - 2) * (snd (FieldShape s) - 2)))%nat ->
  interior_point (FieldShape s) a b ->
  let k := ((a - 1) * (snd (FieldShape s) - 2) + (b - 1))%nat in
  let '(p, u, v) := Mode2Field s Vec in
  get2 p a b = nth (NVAR * k) Vec 0
  /\ get2 u a b = nth (NVAR * k + 1) Vec 0
  /\ get2 v a b = nth (NVAR * k + 2) Vec 0.
Proof.
  unfold Mode2Field. destruct (FieldShape s) as [Nx Ny]. cbn [fst snd].
  intros HIS Hlen Hint. rewrite HIS. cbv zeta.
  rewrite !interior_block_nth by (assumption || (unfold NVAR; lia)).
  rewrite Nat.add_0_r. auto.
Qed.

Lemma Mode2Field_interior_witness :
  interior_point (FieldShape cavity3) 1 1
  /\ let '(p, u, v) := Mode2Field cavity3 [0; 3 / 5; 4 / 5] in
     get2 p 1 1 = 0 /\ get2 u 1 1 = 3 / 5 /\ get2 v 1 1 = 4 / 5.
Proof.
  assert (Hint : interior_point (FieldShape cavity3) 1 1)
    by (unfold interior_point; cbn [fst snd FieldShape cavity3]; lia).
  split; [ exact Hint | ].
  exact (Mode2Field_interior cavity3 [0; 3 / 5; 4 / 5] 1 1 eq_refl eq_refl Hint).
Defined.

Lemma length_column (j : nat) (m : grid) : length (column j m) = length m.
Proof. apply length_map. Qed.

Lemma nth_column (j i : nat) (m : grid) :
  nth i (column j m) 0 = get2 m i j.
Proof.
  unfold column, get2, get1.
  destruct (Nat.lt_ge_cases i (length m)) as [Hi | Hi].
  - apply (nth_map_in_range (fun row => nth j row 0) m i 0 []). exact Hi.
  - rewrite (nth_overflow (map _ m)) by (rewrite length_map; exact Hi).
    rewrite (nth_overflow m) by exact Hi. destruct j; reflexivity.
Qed.

(** Snapshot [j], cut to its interior rows by [ExtractInteriorSnapshots] and
    put back on the grid by [Mode2Field], has its pressure and velocities at
    every interior point and zeros on the boundary. *)
Theorem Mode2Field_of_snapshot (s : CustomedEqs) (Samples : grid) (j a b : nat) :
  InteriorShape s = ((fst (FieldShape s) - 2)%nat, (snd (FieldShape s) - 2)%nat) ->
  length Samples = (fst (FieldShape s) * snd (FieldShape s) * NVARLOAD)%nat ->
  let r := (NVARLOAD * (a * snd (FieldShape s) + b))%nat in
  let '(p, u, v) := Mode2Field s (column j (ExtractInteriorSnapshots s Samples)) in
  (interior_point (FieldShape s) a b ->
     get2 p a b = get2 Samples r j
     /\ get2 u a b = get2 Samples (r + 1) j
     /\ get2 v a b = get2 Samples (r + 2) j)
  /\ (boundary_point (FieldShape s) a b ->
        get2 p a b = 0 /\ get2 u a b = 0 /\ get2 v a b = 0).
Proof.
  intros HIS Hlen r.
  pose proof (fun var => ExtractInteriorSnapshots_nth s Samples a b var Hlen) as HE.
  pose proof (Mode2Field_boundary s
                (column j (ExtractInteriorSnapshots s Samples)) a b) as Hbd.
  revert HE Hbd. subst r. unfold Mode2Field.
  destruct (FieldShape s) as [Nx Ny]. cbn [fst snd] in *. rewrite HIS.
  intros HE Hbd. split; [ | exact Hbd ].
  intros Hint.
  assert (Hl : length (column j (ExtractInteriorSnapshots s Samples))
               = (NVAR * ((Nx - 2) * (Ny - 2)))%nat).
  { rewrite length_column.
    exact (proj1 (HE 0%nat Hint ltac:(unfold NVAR; lia))). }
  rewrite !interior_block_nth by (assumption || (unfold NVAR; lia)).
  rewrite !nth_column. unfold get2 at 1 3 5.
  rewrite (proj2 (HE 0%nat Hint ltac:(unfold NVAR; lia))).
  rewrite (proj2 (HE 1%nat Hint ltac:(unfold NVAR; lia))).
  rewrite (proj2 (HE 2%nat Hint ltac:(unfold NVAR; lia))).
  rewrite Nat.add_0_r. auto.
Qed.

Lemma Mode2Field_of_snapshot_witness :
  let '(p, u, v) :=
    Mode2Field cavity3 (column 0 (ExtractInteriorSnapshots cavity3 samples3)) in
  (interior_point (FieldShape cavity3) 1 1 ->
     get2 p 1 1 = get2 samples3 24 0
     /\ get2 u 1 1 = get2 samples3 25 0
     /\ get2 v 1 1 = get2 samples3 26 0)
  /\ (boundary_point (FieldShape cavity3) 1 1 ->
        get2 p 1 1 = 0 /\ get2 u 1 1 = 0 /\ get2 v 1 1 = 0).
Proof.
  exact (Mode2Field_of_snapshot cavity3 samples3 0 1 1 eq_refl eq_refl).
Defined.

(** ** The masks and the boundary profile of the constructor *)

Lemma boundary_point_outside (Nx Ny a b : nat) :
  boundary_point (Nx, Ny) a b -> (a < Nx)%nat /\ (b < Ny)%nat.
Proof. unfold boundary_point; cbn [fst snd]. intros [Ha [Hb _]]. auto. Qed.

Lemma Interior_of_interior (shape : nat * nat) (a b : nat) :
  interior_point shape a b -> get2 (Interior_of shape) a b = 1.
Proof.
  destruct shape as [Nx Ny]. intros Hint. unfold Interior_of.
  pose proof (interior_point_inside Nx Ny a b Hint) as Hin.
  destruct Hint as [Ha1 [Ha2 [Hb1 Hb2]]]; cbn [fst snd] in *.
  rewrite get2_assign_block_inside; [ reflexivity | | | exact Hin ].
  - unfold zeros2. rewrite repeat_length. lia.
  - rewrite length_nth_zeros2; lia.
Qed.

Lemma shape2_Interior_of (Nx Ny : nat) : shape2 Nx Ny (Interior_of (Nx, Ny)).
Proof. apply shape2_assign_block_zeros. Qed.

(** The values of the boundary profile on a grid of [Nx * Ny] points. *)
Lemma uBC_of_get2 (Samples : grid) (Nx Ny a b : nat) :
  length Samples = (Nx * Ny * NVARLOAD)%nat -> (a < Nx)%nat -> (b < Ny)%nat ->
  get2 (uBC_of Samples (Nx, Ny) (Boundary_of (Interior_of (Nx, Ny)))) a b
  = get2 Samples (NVARLOAD * (a * Ny + b) + 1) 0
    * (1 - get2 (Interior_of (Nx, Ny)) a b).
Proof.
  intros Hlen Ha Hb. unfold uBC_of, gmul.
  pose proof (shape2_Interior_of Nx Ny) as Hsh.
  assert (Hls : length (strided 1 NVARLOAD (column 0 Samples)) = (Nx * Ny)%nat).
  { apply length_strided; [ unfold NVARLOAD; lia | ].
    rewrite length_column. exact Hlen. }
  assert (Hab : (a * Ny + b < Nx * Ny)%nat) by nia.
  change (reshape2 Nx Ny (strided 1 NVARLOAD (column 0 Samples)))
    with (@regroup R Nx Ny (strided 1 NVARLOAD (column 0 Samples))).
  rewrite get2_emap2.
  - unfold Boundary_of. rewrite get2_emap.
    + f_equal. unfold get2 at 1, get1.
      rewrite nth_nth_regroup by assumption.
      rewrite (nth_strided 1 NVARLOAD (Nx * Ny))
        by ((unfold NVARLOAD; lia) || (rewrite length_column; exact Hlen)).
      rewrite nth_column. f_equal. lia.
    + destruct Hsh as [Hl _]. rewrite Hl. exact Ha.
    + rewrite (shape2_nth Nx Ny) by assumption. exact Hb.
  - rewrite length_regroup. exact Ha.
  - unfold Boundary_of. rewrite length_emap. destruct Hsh as [Hl _].
    rewrite Hl. exact Ha.
  - rewrite nth_regroup by exact Ha. rewrite length_firstn, length_skipn, Hls.
    assert (a * Ny + Ny <= Nx * Ny)%nat by nia. lia.
  - unfold Boundary_of. rewrite length_nth_emap.
    rewrite (shape2_nth Nx Ny) by assumption. exact Hb.
Qed.

(** The geometry block of the constructor: the interior mask is 1 at the
    interior points and 0 on the boundary, the boundary mask is its
    complement, and the boundary profile [uBC] is the x-velocity of the
    first snapshot on the boundary and zero at the interior points; the
    interior shape is the field shape less two in each direction. *)
Theorem init_geometry_profile (Samples : grid) (s : CustomedEqs) (a b : nat) :
  length Samples = (fst (FieldShape s) * snd (FieldShape s) * NVARLOAD)%nat ->
  let s' := init_geometry Samples s in
  InteriorShape s' = ((fst (FieldShape s) - 2)%nat, (snd (FieldShape s) - 2)%nat)
  /\ (interior_point (FieldShape s) a b ->
        get2 (Interior s') a b = 1 /\ get2 (Boundary s') a b = 0
        /\ get2 (uBC s') a b = 0)
  /\ (boundary_point (FieldShape s) a b ->
        get2 (Interior s') a b = 0 /\ get2 (Boundary s') a b = 1
        /\ get2 (uBC s') a b
           = get2 Samples (NVARLOAD * (a * snd (FieldShape s) + b) + 1) 0).
Proof.
  intros Hlen s'. subst s'. unfold init_geometry.
  cbn [InteriorShape Interior Boundary uBC].
  destruct (FieldShape s) as [Nx Ny]. cbn [fst snd] in *.
  pose proof (shape2_Interior_of Nx Ny) as Hsh.
  assert (HB : (a < Nx)%nat -> (b < Ny)%nat ->
               get2 (Boundary_of (Interior_of (Nx, Ny))) a b
               = 1 - get2 (Interior_of (Nx, Ny)) a b).
  { intros Ha Hb. unfold Boundary_of. apply get2_emap.
    - destruct Hsh as [Hl _]. rewrite Hl. exact Ha.
    - rewrite (shape2_nth Nx Ny) by assumption. exact Hb. }
  split; [ reflexivity | ]. split.
  - intros Hint. pose proof (Interior_of_interior (Nx, Ny) a b Hint) as HI.
    destruct Hint as [Ha1 [Ha2 [Hb1 Hb2]]]; cbn [fst snd] in *.
    rewrite HB by lia. rewrite uBC_of_get2 by (assumption || lia).
    rewrite HI. repeat split; lra.
  - intros Hbd. pose proof (Interior_of_boundary (Nx, Ny) a b Hbd) as HI.
    destruct (boundary_point_outside Nx Ny a b Hbd) as [Ha Hb].
    rewrite HB by assumption. rewrite uBC_of_get2 by assumption.
    rewrite HI. repeat split; lra.
Qed.

Lemma init_geometry_profile_witness :
  boundary_point (FieldShape cavity3) 0 2
  /\ get2 (uBC (init_geometry samples3 cavity3)) 0 2 = get2 samples3 13 0.
Proof.
  assert (Hbd : boundary_point (FieldShape cavity3) 0 2)
    by (unfold boundary_point; cbn [fst snd FieldShape cavity3]; lia).
  split; [ exact Hbd | ].
  exact (proj2 (proj2 (proj2 (proj2
           (init_geometry_profile samples3 cavity3 0 2 eq_refl)) Hbd))).
Defined.

(** ** The tables of [getB] and [getA] *)

(** Entry [(t, i, j)] of [Beqs] is written once, in pass [j] of the outer
    and pass [i] of the inner loop, and entry [(t, i)] of [Bbc] in every
    pass of the outer loop with the same value.  The first index of [Beqs]
    is the term, the second the mode that weights the equation and the
    third the mode that is differentiated:
    slots 0..3 pair the first derivatives [d/dxc], [d/dyc] of the
    velocities of mode [j] with the pressure of mode [i], and the pressure
    derivative of mode [j] with the velocities of mode [i]; slots 4, 5, 6
    are minus the second derivatives in [xc xc], [yc yc] and [xc yc].  [Bbc]
    has the same terms for the boundary profile in the place of mode [j]. *)
Theorem getB_table (s : CustomedEqs) (i j : nat) :
  (i < M s)%nat -> (j < M s)%nat ->
  let '(pi, ui, vi) := Mode2Field s (column i (Modes s)) in
  let '(pj, uj, vj) := Mode2Field s (column j (Modes s)) in
  let Beqs := fst (getB s) in
  let Bbc := snd (getB s) in
  get3 Beqs 0 i j
  = isum s (Compute_d_dxc s uj .* pi .+ Compute_dp_dxc s pj .* ui)%G
  /\ get3 Beqs 1 i j
     = isum s (Compute_d_dyc s uj .* pi .+ Compute_dp_dyc s pj .* ui)%G
  /\ get3 Beqs 2 i j
     = isum s (Compute_d_dxc s vj .* pi .+ Compute_dp_dxc s pj .* vi)%G
  /\ get3 Beqs 3 i j
     = isum s (Compute_d_dyc s vj .* pi .+ Compute_dp_dyc s pj .* vi)%G
  /\ get3 Beqs 4 i j
     = - isum s (Compute_d_dxc2 s uj .* ui .+ Compute_d_dxc2 s vj .* vi)%G
  /\ get3 Beqs 5 i j
     = - isum s (Compute_d_dyc2 s uj .* ui .+ Compute_d_dyc2 s vj .* vi)%G
  /\ get3 Beqs 6 i j
     = - isum s (Compute_d_dxcyc s uj .* ui .+ Compute_d_dxcyc s vj .* vi)%G
  /\ get2 Bbc 0 i = isum s (Compute_d_dxc s (uBC s) .* pi)%G
  /\ get2 Bbc 1 i = isum s (Compute_d_dyc s (uBC s) .* pi)%G
  /\ get2 Bbc 4 i = - isum s (Compute_d_dxc2 s (uBC s) .* ui)%G
  /\ get2 Bbc 5 i = - isum s (Compute_d_dyc2 s (uBC s) .* ui)%G
  /\ get2 Bbc 6 i = - isum s (Compute_d_dxcyc s (uBC s) .* ui)%G.
Proof.
  intros Hi Hj.
  pose (mp := fun i => fst (fst (Mode2Field s (column i (Modes s))))).
  pose (mu := fun i => snd (fst (Mode2Field s (column i (Modes s))))).
  pose (mv := fun i => snd (Mode2Field s (column i (Modes s)))).
  pose (FB := fun (t i j : nat) =>
    match t with
    | 0%nat => isum s (Compute_d_dxc s (mu j) .* mp i .+ Compute_dp_dxc s (mp j) .* mu i)%G
    | 1%nat => isum s (Compute_d_dyc s (mu j) .* mp i .+ Compute_dp_dyc s (mp j) .* mu i)%G
    | 2%nat => isum s (Compute_d_dxc s (mv j) .* mp i .+ Compute_dp_dxc s (mp j) .* mv i)%G
    | 3%nat => isum s (Compute_d_dyc s (mv j) .* mp i .+ Compute_dp_dyc s (mp j) .* mv i)%G
    | 4%nat => - isum s (Compute_d_dxc2 s (mu j) .* mu i .+ Compute_d_dxc2 s (mv j) .* mv i)%G
    | 5%nat => - isum s (Compute_d_dyc2 s (mu j) .* mu i .+ Compute_d_dyc2 s (mv j) .* mv i)%G
    | _ => - isum s (Compute_d_dxcyc s (mu j) .* mu i .+ Compute_d_dxcyc s (mv j) .* mv i)%G
    end).
  pose (Fbc := fun (t i : nat) =>
    match t with
    | 0%nat => isum s (Compute_d_dxc s (uBC s) .* mp i)%G
    | 1%nat => isum s (Compute_d_dyc s (uBC s) .* mp i)%G
    | 2%nat => isum s (0 *: mp i)%G
    | 3%nat => isum s (0 *: mp i)%G
    | 4%nat => - isum s (Compute_d_dxc2 s (uBC s) .* mu i)%G
    | 5%nat => - isum s (Compute_d_dyc2 s (uBC s) .* mu i)%G
    | _ => - isum s (Compute_d_dxcyc s (uBC s) .* mu i)%G
    end).
  pose (InvAt := fun (j0 i0 : nat) (acc : tensor3 * grid) =>
    shape3 7 (M s) (M s) (fst acc) /\ shape2 7 (M s) (snd acc)
    /\ (forall t i' j', (t < 7)%nat -> (i' < M s)%nat -> (j' < M s)%nat ->
          (j' < j0 \/ (j' = j0 /\ i' < i0))%nat ->
          get3 (fst acc) t i' j' = FB t i' j')
    /\ (forall t i', (t < 7)%nat -> (i' < M s)%nat ->
          (0 < j0 \/ i' < i0)%nat -> get2 (snd acc) t i' = Fbc t i')).
  assert (Hfinal : InvAt (M s) 0%nat (getB s)).
  { unfold getB, Compute_d_d1, Compute_d_d1p, Compute_d_d2.
    apply (for_range_inv_idx (fun j0 acc => InvAt j0 0%nat acc)).
    { unfold InvAt. cbn [fst snd].
      split; [ auto with shapes | ]. split; [ auto with shapes | ].
      split; intros; lia. }
    intros j0 acc Hj0 Hacc.
    destruct (Mode2Field s (column j0 (Modes s))) as [[pj uj] vj] eqn:Hmj.
    assert (Hstep : forall acc', InvAt j0 (M s) acc' -> InvAt (S j0) 0%nat acc').
    { intros acc' [Hs3 [Hs2 [HvB Hvb]]].
      split; [ exact Hs3 | ]. split; [ exact Hs2 | ]. split.
      - intros t i' j' Ht Hi' Hj' HD. apply HvB; auto. lia.
      - intros t i' Ht Hi' HD. apply Hvb; auto. }
    apply Hstep.
    apply (for_range_inv_idx (fun i0 acc' => InvAt j0 i0 acc')); [ exact Hacc | ].
    intros i0 [B3 B2] Hi0 [Hs3 [Hs2 [HvB Hvb]]].
    destruct (Mode2Field s (column i0 (Modes s))) as [[pi ui] vi] eqn:Hmi.
    cbn [fst snd] in *.
    split; [ cbn [fst]; auto 20 with shapes | ].
    split; [ cbn [snd]; auto 20 with shapes | ].
    cbn [fst snd]. split.
    - intros t i' j' Ht Hi' Hj' HD.
      destruct (Nat.eq_dec j' j0) as [-> | Hnj];
        [ destruct (Nat.eq_dec i' i0) as [-> | Hni] | ].
      + unfold FB, mp, mu, mv. rewrite Hmi, Hmj. cbn [fst snd].
        do 7 (destruct t as [ | t ];
              [ repeat rewrite get3_set3_other by congruence;
                apply (get3_set3_same 7 (M s) (M s)); auto 20 with shapes; lia | ]).
        lia.
      + rewrite !get3_set3_other by congruence. apply HvB; auto. lia.
      + rewrite !get3_set3_other by congruence. apply HvB; auto. lia.
    - intros t i' Ht Hi' HD.
      destruct (Nat.eq_dec i' i0) as [-> | Hni].
      + unfold Fbc, mp, mu, mv. rewrite Hmi. cbn [fst snd].
        do 7 (destruct t as [ | t ];
              [ repeat rewrite get2_set2_other by congruence;
                apply (get2_set2_same 7 (M s)); auto 20 with shapes; lia | ]).
        lia.
      + rewrite !get2_set2_other by congruence. apply Hvb; auto. lia. }
  destruct Hfinal as [_ [_ [HB Hb]]].
  assert (HB' : forall t, (t < 7)%nat -> get3 (fst (getB s)) t i j = FB t i j)
    by (intros t Ht; apply HB; auto; lia).
  assert (Hb' : forall t, (t < 7)%nat -> get2 (snd (getB s)) t i = Fbc t i)
    by (intros t Ht; apply Hb; auto; lia).
  pose proof (HB' 0%nat ltac:(lia)) as H0. pose proof (HB' 1%nat ltac:(lia)) as H1.
  pose proof (HB' 2%nat ltac:(lia)) as H2. pose proof (HB' 3%nat ltac:(lia)) as H3.
  pose proof (HB' 4%nat ltac:(lia)) as H4. pose proof (HB' 5%nat ltac:(lia)) as H5.
  pose proof (HB' 6%nat ltac:(lia)) as H6.
  pose proof (Hb' 0%nat ltac:(lia)) as K0. pose proof (Hb' 1%nat ltac:(lia)) as K1.
  pose proof (Hb' 4%nat ltac:(lia)) as K4. pose proof (Hb' 5%nat ltac:(lia)) as K5.
  pose proof (Hb' 6%nat ltac:(lia)) as K6.
  clear HB Hb HB' Hb'.
  cbv beta iota delta [FB Fbc mp mu mv] in H0, H1, H2, H3, H4, H5, H6, K0, K1, K4, K5, K6.
  clear FB Fbc InvAt mp mu mv.
  destruct (Mode2Field s (column i (Modes s))) as [[pi ui] vi].
  destruct (Mode2Field s (column j (Modes s))) as [[pj uj] vj].
  cbn [fst snd] in *. cbv zeta.
  repeat (split; [ assumption | ]). assumption.
Qed.

Lemma get4_set4_same (n m k l t a b c : nat) (x : R) (T : tensor4) :
  shape4 n m k l T -> (t < n)%nat -> (a < m)%nat -> (b < k)%nat -> (c < l)%nat ->
  get4 (set4 t a b c x T) t a b c = x.
Proof.
  intros [Hl Hr] Ht Ha Hb Hc. unfold get4, set4.
  rewrite nth_upd_in_range by lia.
  apply (get3_set3_same m k l); [ | exact Ha | exact Hb | exact Hc ].
  rewrite Forall_forall in Hr. apply Hr. apply nth_In. lia.
Qed.

Lemma get4_set4_other (t a b c t' a' b' c' : nat) (x : R) (T : tensor4) :
  (t, a, b, c) <> (t', a', b', c') ->
  get4 (set4 t a b c x T) t' a' b' c' = get4 T t' a' b' c'.
Proof.
  intros Hne. unfold get4, set4.
  destruct (Nat.eq_dec t t') as [<- | Ht].
  - rewrite nth_upd_same by (destruct a; reflexivity).
    apply get3_set3_other. congruence.
  - rewrite nth_upd_other by exact Ht. reflexivity.
Qed.

(** Entry [(t, k, i, j)] of [Aeqs] is written once, in pass [j] of the
    outer, [k] of the middle and [i] of the inner loop; entry [(t, k, i)]
    of [Abc] in every pass of the outer loop with the same value.  In
    [Aeqs[t, k, i, j]] mode [j] is differentiated ([d/dxc] for t = 0, 2 and
    [d/dyc] for t = 1, 3), mode [i] gives the factor in front (its
    x-velocity for t = 0, 1, its y-velocity for t = 2, 3) and mode [k] the
    factor behind; the slots 0 and 1 of [Abc] have the boundary profile in
    the place of mode [j]. *)
Theorem getA_table (s : CustomedEqs) (k i j : nat) :
  (k < M s)%nat -> (i < M s)%nat -> (j < M s)%nat ->
  let '(pi, ui, vi) := Mode2Field s (column i (Modes s)) in
  let '(pj, uj, vj) := Mode2Field s (column j (Modes s)) in
  let '(pk, uk, vk) := Mode2Field s (column k (Modes s)) in
  let Aeqs := fst (getA s) in
  let Abc := snd (getA s) in
  get4 Aeqs 0 k i j
  = isum s (ui .* Compute_d_dxc s uj .* uk .+ ui .* Compute_d_dxc s vj .* vk)%G
  /\ get4 Aeqs 1 k i j
     = isum s (ui .* Compute_d_dyc s uj .* uk .+ ui .* Compute_d_dyc s vj .* vk)%G
  /\ get4 Aeqs 2 k i j
     = isum s (vi .* Compute_d_dxc s uj .* uk .+ vi .* Compute_d_dxc s vj .* vk)%G
  /\ get4 Aeqs 3 k i j
     = isum s (vi .* Compute_d_dyc s uj .* uk .+ vi .* Compute_d_dyc s vj .* vk)%G
  /\ get3 Abc 0 k i = isum s (ui .* Compute_d_dxc s (uBC s) .* uk)%G
  /\ get3 Abc 1 k i = isum s (ui .* Compute_d_dyc s (uBC s) .* uk)%G.
Proof.
  intros Hk Hi Hj.
  pose (mu := fun i => snd (fst (Mode2Field s (column i (Modes s))))).
  pose (mv := fun i => snd (Mode2Field s (column i (Modes s)))).
  pose (FA := fun (t k i j : nat) =>
    match t with
    | 0%nat => isum s (mu i .* Compute_d_dxc s (mu j) .* mu k
                       .+ mu i .* Compute_d_dxc s (mv j) .* mv k)%G
    | 1%nat => isum s (mu i .* Compute_d_dyc s (mu j) .* mu k
                       .+ mu i .* Compute_d_dyc s (mv j) .* mv k)%G
    | 2%nat => isum s (mv i .* Compute_d_dxc s (mu j) .* mu k
                       .+ mv i .* Compute_d_dxc s (mv j) .* mv k)%G
    | _ => isum s (mv i .* Compute_d_dyc s (mu j) .* mu k
                   .+ mv i .* Compute_d_dyc s (mv j) .* mv k)%G
    end).
  pose (Fbc := fun (t k i : nat) =>
    match t with
    | 0%nat => isum s (mu i .* Compute_d_dxc s (uBC s) .* mu k)%G
    | 1%nat => isum s (mu i .* Compute_d_dyc s (uBC s) .* mu k)%G
    | 2%nat => isum s (mv i .* Compute_d_dxc s (uBC s) .* mu k)%G
    | _ => isum s (mv i .* Compute_d_dyc s (uBC s) .* mu k)%G
    end).
  pose (InvAt := fun (j0 k0 i0 : nat) (acc : tensor4 * tensor3) =>
    shape4 4 (M s) (M s) (M s) (fst acc) /\ shape3 4 (M s) (M s) (snd acc)
    /\ (forall t k' i' j', (t < 4)%nat -> (k' < M s)%nat -> (i' < M s)%nat ->
          (j' < M s)%nat ->
          (j' < j0 \/ (j' = j0 /\ (k' < k0 \/ (k' = k0 /\ i' < i0))))%nat ->
          get4 (fst acc) t k' i' j' = FA t k' i' j')
    /\ (forall t k' i', (t < 4)%nat -> (k' < M s)%nat -> (i' < M s)%nat ->
          (0 < j0 \/ k' < k0 \/ (k' = k0 /\ i' < i0))%nat ->
          get3 (snd acc) t k' i' = Fbc t k' i')).
  assert (Hfinal : InvAt (M s) 0%nat 0%nat (getA s)).
  { unfold getA, Compute_d_d1.
    apply (for_range_inv_idx (fun j0 acc => InvAt j0 0%nat 0%nat acc)).
    { unfold InvAt. cbn [fst snd].
      split; [ auto with shapes | ]. split; [ auto with shapes | ].
      split; intros; lia. }
    intros j0 acc Hj0 Hacc.
    destruct (Mode2Field s (column j0 (Modes s))) as [[pj uj] vj] eqn:Hmj.
    assert (Hstepj : forall acc', InvAt j0 (M s) 0%nat acc' ->
                                  InvAt (S j0) 0%nat 0%nat acc').
    { intros acc' [Hs4 [Hs3 [HvA Hvb]]].
      split; [ exact Hs4 | ]. split; [ exact Hs3 | ]. split.
      - intros t k' i' j' Ht Hk' Hi' Hj' HD. apply HvA; auto. lia.
      - intros t k' i' Ht Hk' Hi' HD. apply Hvb; auto. }
    apply Hstepj.
    apply (for_range_inv_idx (fun k0 acc' => InvAt j0 k0 0%nat acc'));
      [ exact Hacc | ].
    intros k0 acc0 Hk0 Hacc0.
    destruct (Mode2Field s (column k0 (Modes s))) as [[pk uk] vk] eqn:Hmk.
    assert (Hstepk : forall acc', InvAt j0 k0 (M s) acc' ->
                                  InvAt j0 (S k0) 0%nat acc').
    { intros acc' [Hs4 [Hs3 [HvA Hvb]]].
      split; [ exact Hs4 | ]. split; [ exact Hs3 | ]. split.
      - intros t k' i' j' Ht Hk' Hi' Hj' HD. apply HvA; auto. lia.
      - intros t k' i' Ht Hk' Hi' HD. apply Hvb; auto. lia. }
    apply Hstepk.
    apply (for_range_inv_idx (fun i0 acc' => InvAt j0 k0 i0 acc'));
      [ exact Hacc0 | ].
    intros i0 [A4 A3] Hi0 [Hs4 [Hs3 [HvA Hvb]]].
    destruct (Mode2Field s (column i0 (Modes s))) as [[pi ui] vi] eqn:Hmi.
    cbn [fst snd] in *.
    split; [ cbn [fst]; auto 20 with shapes | ].
    split; [ cbn [snd]; auto 20 with shapes | ].
    cbn [fst snd]. split.
    - intros t k' i' j' Ht Hk' Hi' Hj' HD.
      destruct (Nat.eq_dec j' j0) as [-> | Hnj];
        [ destruct (Nat.eq_dec k' k0) as [-> | Hnk];
          [ destruct (Nat.eq_dec i' i0) as [-> | Hni] | ] | ].
      + unfold FA, mu, mv. rewrite Hmi, Hmj, Hmk. cbn [fst snd].
        do 4 (destruct t as [ | t ];
              [ repeat rewrite get4_set4_other by congruence;
                apply (get4_set4_same 4 (M s) (M s) (M s));
                auto 20 with shapes; lia | ]).
        lia.
      + rewrite !get4_set4_other by congruence. apply HvA; auto. lia.
      + rewrite !get4_set4_other by congruence. apply HvA; auto. lia.
      + rewrite !get4_set4_other by congruence. apply HvA; auto. lia.
    - intros t k' i' Ht Hk' Hi' HD.
      destruct (Nat.eq_dec k' k0) as [-> | Hnk];
        [ destruct (Nat.eq_dec i' i0) as [-> | Hni] | ].
      + unfold Fbc, mu, mv. rewrite Hmi, Hmk. cbn [fst snd].
        do 4 (destruct t as [ | t ];
              [ repeat rewrite get3_set3_other by congruence;
                apply (get3_set3_same 4 (M s) (M s)); auto 20 with shapes; lia | ]).
        lia.
      + rewrite !get3_set3_other by congruence. apply Hvb; auto. lia.
      + rewrite !get3_set3_other by congruence. apply Hvb; auto. lia. }
  destruct Hfinal as [_ [_ [HA Hb]]].
  assert (HA' : forall t, (t < 4)%nat -> get4 (fst (getA s)) t k i j = FA t k i j)
    by (intros t Ht; apply HA; auto; lia).
  assert (Hb' : forall t, (t < 4)%nat -> get3 (snd (getA s)) t k i = Fbc t k i)
    by (intros t Ht; apply Hb; auto; lia).
  pose proof (HA' 0%nat ltac:(lia)) as H0. pose proof (HA' 1%nat ltac:(lia)) as H1.
  pose proof (HA' 2%nat ltac:(lia)) as H2. pose proof (HA' 3%nat ltac:(lia)) as H3.
  pose proof (Hb' 0%nat ltac:(lia)) as K0. pose proof (Hb' 1%nat ltac:(lia)) as K1.
  clear HA Hb HA' Hb'.
  cbv beta iota delta [FA Fbc mu mv] in H0, H1, H2, H3, K0, K1.
  clear FA Fbc InvAt mu mv.
  destruct (Mode2Field s (column i (Modes s))) as [[pi ui] vi].
  destruct (Mode2Field s (column j (Modes s))) as [[pj uj] vj].
  destruct (Mode2Field s (column k (Modes s))) as [[pk uk] vk].
  cbn [fst snd] in *. cbv zeta.
  repeat (split; [ assumption | ]). assumption.
Qed.

Lemma getB_table_witness :
  (0 < M cavity3)%nat
  /\ let '(p0, u0, v0) := Mode2Field cavity3 (column 0 (Modes cavity3)) in
     get3 (fst (getB cavity3)) 5 0 0
     = - isum cavity3 (Compute_d_dyc2 cavity3 u0 .* u0
                       .+ Compute_d_dyc2 cavity3 v0 .* v0)%G.
Proof.
  assert (H : (0 < M cavity3)%nat) by exact (le_n 1).
  split; [ exact H | ].
  pose proof (getB_table cavity3 0 0 H H) as T. revert T.
  destruct (Mode2Field cavity3 (column 0 (Modes cavity3))) as [[p0 u0] v0].
  cbv zeta. intros T. exact (proj1 (proj2 (proj2 (proj2 (proj2 (proj2 T)))))).
Defined.

Lemma getA_table_witness :
  (0 < M cavity3)%nat
  /\ let '(p0, u0, v0) := Mode2Field cavity3 (column 0 (Modes cavity3)) in
     get4 (fst (getA cavity3)) 0 0 0 0
     = isum cavity3 (u0 .* Compute_d_dxc cavity3 u0 .* u0
                     .+ u0 .* Compute_d_dxc cavity3 v0 .* v0)%G.
Proof.
  assert (H : (0 < M cavity3)%nat) by exact (le_n 1).
  split; [ exact H | ].
  pose proof (getA_table cavity3 0 0 0 H H H) as T. revert T.
  destruct (Mode2Field cavity3 (column 0 (Modes cavity3))) as [[p0 u0] v0].
  cbv zeta. intros T. exact (proj1 T).
Defined.

(** ** Fields that vanish *)

Create HintDb zeros.

Lemma nth_zero_row (row : vec) (j : nat) :
  Forall (fun x => x = 0) row -> nth j row 0 = 0.
Proof.
  intros H. destruct (Nat.lt_ge_cases j (length row)) as [Hj | Hj].
  - rewrite Forall_forall in H. apply H, nth_In. exact Hj.
  - apply nth_overflow. exact Hj.
Qed.

Lemma column_zero (j : nat) (g : grid) :
  all_zero g -> Forall (fun x => x = 0) (column j g).
Proof.
  intros H. unfold column. apply Forall_forall. intros x Hx.
  apply in_map_iff in Hx as [row [<- Hrow]]. apply nth_zero_row.
  unfold all_zero in H. rewrite Forall_forall in H. apply H. exact Hrow.
Qed.

Lemma dot_zero_r (a z : vec) : Forall (fun x => x = 0) z -> dot a z = 0.
Proof.
  intros H. unfold dot. apply fold_left_Rplus_zeros.
  apply zip_with_Forall. intros x y _ Hy.
  rewrite Forall_forall in H. rewrite (H y Hy). lra.
Qed.

Lemma all_zero_matmul_r (a z : grid) : all_zero z -> all_zero (matmul a z).
Proof.
  intros H. unfold matmul, all_zero. apply Forall_forall. intros row Hrow.
  apply in_map_iff in Hrow as [r [<- _]]. apply Forall_forall. intros x Hx.
  apply in_map_iff in Hx as [j [<- _]]. apply dot_zero_r, column_zero, H.
Qed.

Lemma all_zero_transpose (z : grid) : all_zero z -> all_zero (transpose z).
Proof.
  intros H. unfold transpose, all_zero. apply Forall_forall. intros row Hrow.
  apply in_map_iff in Hrow as [j [<- _]]. apply column_zero, H.
Qed.

Lemma all_zero_dxc (s : CustomedEqs) (z : grid) :
  all_zero z -> all_zero (Compute_d_dxc s z).
Proof. apply all_zero_matmul_r. Qed.

Lemma all_zero_dyc (s : CustomedEqs) (z : grid) :
  all_zero z -> all_zero (Compute_d_dyc s z).
Proof.
  intros H. unfold Compute_d_dyc.
  apply all_zero_transpose, all_zero_matmul_r, all_zero_transpose, H.
Qed.

Lemma all_zero_dxc2 (s : CustomedEqs) (z : grid) :
  all_zero z -> all_zero (Compute_d_dxc2 s z).
Proof. intros H. unfold Compute_d_dxc2. apply all_zero_dxc, all_zero_dxc, H. Qed.

Lemma all_zero_dyc2 (s : CustomedEqs) (z : grid) :
  all_zero z -> all_zero (Compute_d_dyc2 s z).
Proof. intros H. unfold Compute_d_dyc2. apply all_zero_dyc, all_zero_dyc, H. Qed.

Lemma all_zero_dxcyc (s : CustomedEqs) (z : grid) :
  all_zero z -> all_zero (Compute_d_dxcyc s z).
Proof. intros H. unfold Compute_d_dxcyc. apply all_zero_dyc, all_zero_dxc, H. Qed.

Lemma all_zero_emap2_l (f : R -> R -> R) (a b : grid) :
  (forall y, f 0 y = 0) -> all_zero a -> all_zero (emap2 f a b).
Proof.
  intros Hf H. unfold emap2, all_zero. apply zip_with_Forall. intros r r' Hr _.
  apply zip_with_Forall. intros x y Hx _.
  unfold all_zero in H. rewrite Forall_forall in H.
  pose proof (H r Hr) as Hrow. rewrite Forall_forall in Hrow.
  rewrite (Hrow x Hx). apply Hf.
Qed.

Lemma all_zero_emap2_r (f : R -> R -> R) (a b : grid) :
  (forall x, f x 0 = 0) -> all_zero b -> all_zero (emap2 f a b).
Proof.
  intros Hf H. unfold emap2, all_zero. apply zip_with_Forall. intros r r' _ Hr.
  apply zip_with_Forall. intros x y _ Hy.
  unfold all_zero in H. rewrite Forall_forall in H.
  pose proof (H r' Hr) as Hrow. rewrite Forall_forall in Hrow.
  rewrite (Hrow y Hy). apply Hf.
Qed.

Lemma all_zero_emap2 (f : R -> R -> R) (a b : grid) :
  f 0 0 = 0 -> all_zero a -> all_zero b -> all_zero (emap2 f a b).
Proof.
  intros Hf Ha Hb. unfold emap2, all_zero. apply zip_with_Forall.
  intros r r' Hr Hr'. apply zip_with_Forall. intros x y Hx Hy.
  unfold all_zero in Ha, Hb. rewrite Forall_forall in Ha, Hb.
  pose proof (Ha r Hr) as Hrow. pose proof (Hb r' Hr') as Hrow'.
  rewrite Forall_forall in Hrow, Hrow'.
  rewrite (Hrow x Hx), (Hrow' y Hy). exact Hf.
Qed.

Lemma all_zero_emap (f : R -> R) (z : grid) :
  f 0 = 0 -> all_zero z -> all_zero (emap f z).
Proof.
  intros Hf H. unfold emap, all_zero. apply Forall_forall. intros row Hrow.
  apply in_map_iff in Hrow as [r [<- Hr]]. apply Forall_forall. intros x Hx.
  apply in_map_iff in Hx as [y [<- Hy]].
  unfold all_zero in H. rewrite Forall_forall in H.
  pose proof (H r Hr) as Hr0. rewrite Forall_forall in Hr0.
  rewrite (Hr0 y Hy). exact Hf.
Qed.

Lemma all_zero_gmul_l (a b : grid) : all_zero a -> all_zero (a .* b)%G.
Proof. apply all_zero_emap2_l. intros y. lra. Qed.

Lemma all_zero_gmul_r (a b : grid) : all_zero b -> all_zero (a .* b)%G.
Proof. apply all_zero_emap2_r. intros y. lra. Qed.

Lemma all_zero_gadd (a b : grid) : all_zero a -> all_zero b -> all_zero (a .+ b)%G.
Proof. apply all_zero_emap2. lra. Qed.

Lemma all_zero_gsub (a b : grid) : all_zero a -> all_zero b -> all_zero (a .- b)%G.
Proof. apply all_zero_emap2. lra. Qed.

Lemma all_zero_gtimes (a : grid) (c : R) : all_zero a -> all_zero (gtimes a c).
Proof. apply all_zero_emap. lra. Qed.

Lemma all_zero_gscale0 (a : grid) : all_zero (0 *: a)%G.
Proof.
  unfold gscale, emap, all_zero. apply Forall_forall. intros row Hrow.
  apply in_map_iff in Hrow as [r [<- _]]. apply Forall_forall. intros x Hx.
  apply in_map_iff in Hx as [y [<- _]]. lra.
Qed.

Lemma all_zero_zeros2 (n m : nat) : all_zero (zeros2 n m).
Proof. apply Forall_repeat, Forall_repeat. reflexivity. Qed.

#[export] Hint Resolve all_zero_dxc all_zero_dyc all_zero_dxc2 all_zero_dyc2
  all_zero_dxcyc all_zero_gmul_l all_zero_gmul_r all_zero_gadd all_zero_gsub
  all_zero_gtimes all_zero_gscale0 all_zero_zeros2 : zeros.

Lemma isum_all_zero (s : CustomedEqs) (g : grid) : all_zero g -> isum s g = 0.
Proof. intros H. unfold isum. apply sum_all_zero. apply all_zero_gmul_r, H. Qed.

Lemma opp_isum_all_zero (s : CustomedEqs) (g : grid) :
  all_zero g -> - isum s g = 0.
Proof. intros H. rewrite isum_all_zero by exact H. lra. Qed.

Lemma all_zero_set2 (a b : nat) (x : R) (g : grid) :
  x = 0 -> all_zero g -> all_zero (set2 a b x g).
Proof.
  intros Hx H. unfold set2, set1. apply upd_Forall; [ | exact H ].
  intros row Hrow. apply upd_Forall; [ | exact Hrow ]. intros _ _. exact Hx.
Qed.

Lemma all_zero_set3 (t a b : nat) (x : R) (T : tensor3) :
  x = 0 -> Forall all_zero T -> Forall all_zero (set3 t a b x T).
Proof.
  intros Hx H. unfold set3. apply upd_Forall; [ | exact H ].
  intros g Hg. apply all_zero_set2; assumption.
Qed.

(** Without a boundary profile there are no boundary terms: when [uBC]
    vanishes (a cavity whose walls are all at rest), every entry of [Abc]
    and of [Bbc] is zero. *)
Theorem no_boundary_profile (s : CustomedEqs) :
  all_zero (uBC s) ->
  Forall all_zero (snd (getA s)) /\ all_zero (snd (getB s)).
Proof.
  intros Hz. split.
  - unfold getA, Compute_d_d1.
    apply (for_range_inv (fun acc => Forall all_zero (snd acc))).
    { cbn [snd]. apply Forall_repeat, all_zero_zeros2. }
    intros j acc _ Hacc.
    destruct (Mode2Field s (column j (Modes s))) as [[pj uj] vj].
    apply (for_range_inv (fun acc => Forall all_zero (snd acc))); [ exact Hacc | ].
    intros k acc0 _ Hacc0.
    destruct (Mode2Field s (column k (Modes s))) as [[pk uk] vk].
    apply (for_range_inv (fun acc => Forall all_zero (snd acc))); [ exact Hacc0 | ].
    intros i [A4 A3] _ HA3.
    destruct (Mode2Field s (column i (Modes s))) as [[pi ui] vi].
    cbn [snd] in *.
    repeat (apply all_zero_set3; [ apply isum_all_zero; auto with zeros | ]).
    exact HA3.
  - unfold getB, Compute_d_d1, Compute_d_d1p, Compute_d_d2.
    apply (for_range_inv (fun acc => all_zero (snd acc))).
    { cbn [snd]. apply all_zero_zeros2. }
    intros j acc _ Hacc.
    destruct (Mode2Field s (column j (Modes s))) as [[pj uj] vj].
    apply (for_range_inv (fun acc => all_zero (snd acc))); [ exact Hacc | ].
    intros i [B3 B2] _ HB2.
    destruct (Mode2Field s (column i (Modes s))) as [[pi ui] vi].
    cbn [snd] in *.
    repeat (apply all_zero_set2;
            [ first [ apply isum_all_zero | apply opp_isum_all_zero ];
              auto with zeros | ]).
    exact HB2.
Qed.

Lemma no_boundary_profile_witness :
  all_zero (uBC cavity3_at_rest)
  /\ Forall all_zero (snd (getA cavity3_at_rest))
  /\ all_zero (snd (getB cavity3_at_rest)).
Proof.
  assert (Hz : all_zero (uBC cavity3_at_rest)).
  { cbv - [Rplus Rmult Rminus Rdiv Ropp Rinv IZR].
    repeat constructor; lra. }
  split; [ exact Hz | ]. exact (no_boundary_profile cavity3_at_rest Hz).
Defined.

(** ** The relaxation for a flow without vorticity *)

Lemma vmax_zeros (l : vec) : Forall (fun x => x = 0) l -> vmax l = 0.
Proof.
  unfold vmax. intros H. destruct l as [ | h t ]; [ reflexivity | ].
  inversion H as [ | ? ? Hh Ht ]; subst. clear H.
  induction Ht as [ | x t Hx _ IH ]; cbn [fold_left]; [ reflexivity | ].
  subst x. rewrite Rmax_left by lra. exact IH.
Qed.

Lemma absmax_all_zero (g : grid) : all_zero g -> absmax g = 0.
Proof.
  intros H. unfold absmax. apply vmax_zeros.
  apply Forall_forall. intros x Hx. apply in_map_iff in Hx as [y [<- Hy]].
  pose proof (Forall_concat_of _ g H) as Hc. rewrite Forall_forall in Hc.
  rewrite (Hc y Hy). apply Rabs_R0.
Qed.

Lemma relax_dpsi_all_zero (self : CustomedEqs) (J11 J12 J21 J22 : R)
  (omegai psi : grid) :
  all_zero omegai -> all_zero psi ->
  all_zero (relax_dpsi self J11 J12 J21 J22 omegai psi).
Proof.
  intros Ho Hp. unfold relax_dpsi, Compute_d_d2. auto 10 with zeros.
Qed.

(** For a flow without vorticity the relaxation of the stream function
    stops in its first pass: started from zero it finds the update zero,
    prints the progress line of pass 0 with the value 0 and leaves the
    stream function zero everywhere.  The update has at least one entry:
    NumPy's [max] raises on an empty array. *)
Theorem relax_zero_vorticity (self : CustomedEqs) (J11 J12 J21 J22 : R)
  (omegai : grid) (dt : R) (budget : nat) (psi : grid) (s : CustomedEqs) :
  all_zero omegai -> all_zero psi ->
  concat (relax_dpsi self J11 J12 J21 J22 omegai psi) <> [] ->
  exists psi',
    relax self J11 J12 J21 J22 omegai dt (S budget) 0%N psi s
    = mkRes s [PrintRelax 0%N 0] (inr psi')
    /\ psi' = relax_step self J11 J12 J21 J22 omegai dt psi
    /\ all_zero psi'.
Proof.
  intros Ho Hp _.
  pose proof (relax_dpsi_all_zero self J11 J12 J21 J22 omegai psi Ho Hp) as Hd.
  exists (relax_step self J11 J12 J21 J22 omegai dt psi).
  split; [ | split; [ reflexivity | ] ].
  - cbn [relax]. rewrite (absmax_all_zero _ Hd).
    change ((0 mod 10000 =? 0)%N) with true. cbv iota.
    assert (Hlt : Rltb 0 1E-8 = true).
    { unfold Rltb. destruct (Rlt_dec 0 1E-8) as [ _ | Hn ]; [ reflexivity | ].
      exfalso. apply Hn. lra. }
    unfold bind, emit, ret. cbn [val obj out]. rewrite Hlt.
    cbn [val obj out app]. reflexivity.
  - unfold relax_step. auto with zeros.
Qed.

Lemma relax_zero_vorticity_witness :
  exists psi',
    relax cavity3 2 0 0 2 (zeros2 3 3) (1 / 8) (S relax_budget) 0%N (zeros2 3 3) cavity3
    = mkRes cavity3 [PrintRelax 0%N 0] (inr psi')
    /\ all_zero psi'.
Proof.
  assert (Hne : concat (relax_dpsi cavity3 2 0 0 2 (zeros2 3 3) (zeros2 3 3)) <> []).
  { cbv - [Rplus Rmult Rminus Rdiv Ropp Rinv IZR pow]. discriminate. }
  destruct (relax_zero_vorticity cavity3 2 0 0 2 (zeros2 3 3) (1 / 8) relax_budget
              (zeros2 3 3) cavity3 (all_zero_zeros2 3 3) (all_zero_zeros2 3 3) Hne)
    as [psi' [Hrun [_ Hz]]].
  exists psi'. split; [ exact Hrun | exact Hz ].
Defined.

(** ** The data loss of the surrogate: [loss_NN] *)

Lemma standardise_row (o mu sd : vec) :
  length o = length sd -> length mu = length sd ->
  Forall (fun x => x <> 0) sd ->
  zip_with Rdiv (zip_with Rplus (zip_with Rmult o sd) mu) sd
  = zip_with Rplus o (zip_with Rdiv mu sd).
Proof.
  revert o mu. induction sd as [ | x sd IH ]; intros [ | a o ] [ | m mu ] Ho Hm Hnz;
    cbn [length zip_with] in *; try discriminate; try reflexivity.
  inversion Hnz as [ | ? ? Hx Hrest ]; subst.
  f_equal; [ field; exact Hx | apply IH; auto; lia ].
Qed.

(** [loss_NN] works in standardised units: the labels are divided by the
    standard deviations of the projections, and what is compared with them
    is the raw output of the network shifted by mean/std, the
    de-normalisation of [u_net] followed by the division cancelling to
    that. *)
Theorem loss_NN_standardised (unet : grid -> grid) (lossfun : grid -> grid -> R)
  (net : CustomedNet) (xlabel ylabel : grid) (mu sd : vec) :
  net_proj_mean net = [mu] -> net_proj_std net = [sd] ->
  length mu = length sd -> Forall (fun x => x <> 0) sd ->
  Forall (fun row => length row = length sd) (unet (scale_input net xlabel)) ->
  loss_NN unet lossfun net xlabel ylabel
  = lossfun (map (fun y => zip_with Rdiv y sd) ylabel)
            (map (fun o => zip_with Rplus o (zip_with Rdiv mu sd))
                 (unet (scale_input net xlabel))).
Proof.
  intros Hmu Hsd Hl Hnz Hout. unfold loss_NN, u_net. rewrite Hmu, Hsd.
  cbn [bcast_row]. f_equal. rewrite !map_map. apply map_ext_in.
  intros o Ho. rewrite Forall_forall in Hout.
  apply standardise_row; [ apply Hout; exact Ho | exact Hl | exact Hnz ].
Qed.

Lemma loss_NN_standardised_witness :
  let net := CustomedNet_init cavity3 in
  let unet := fun x : grid => map (fun _ : vec => [0]) x in
  let lossfun := fun a b : grid => get2 a 0 0 - get2 b 0 0 in
  loss_NN unet lossfun net [[200; 90]] [[1]] = 1 / (1 / 2) - (0 + 3 / 2 / (1 / 2)).
Proof.
  intros net unet lossfun.
  assert (Hnz : Forall (fun x => x <> 0) [1 / 2]) by (repeat constructor; lra).
  assert (Hout : Forall (fun row => length row = length [1 / 2])
                   (unet (scale_input net [[200; 90]]))).
  { apply Forall_forall. intros row Hrow. unfold unet in Hrow.
    apply in_map_iff in Hrow as [r [<- _]]. reflexivity. }
  rewrite (loss_NN_standardised unet lossfun net [[200; 90]] [[1]] [3 / 2] [1 / 2]
             eq_refl eq_refl eq_refl Hnz Hout).
  reflexivity.
Defined.

(** * The relaxation, the solver and the Jacobian, spelled out *)

(** ** Shapes of products, transposes and derivatives *)

Create HintDb gridshapes.

Lemma shape2_matmul (a b : grid) : shape2 (length a) (ncols b) (matmul a b).
Proof.
  split; [ unfold matmul; apply length_map | apply matmul_row_lengths ].
Qed.

Lemma shape2_transpose (m : grid) : shape2 (ncols m) (length m) (transpose m).
Proof.
  split; [ apply length_transpose | ].
  unfold transpose. apply Forall_forall. intros row Hrow.
  apply in_map_iff in Hrow as [j [<- _]]. apply length_column.
Qed.

Lemma ncols_shape2 (n m : nat) (g : grid) :
  shape2 n m g -> (0 < n)%nat -> ncols g = m.
Proof.
  intros [Hl Hr] Hn. unfold ncols.
  destruct g as [ | row rest ]; [ simpl in Hl; lia | ].
  inversion Hr; subst. assumption.
Qed.

Lemma shape2_emap2 (f : R -> R -> R) (n m : nat) (a b : grid) :
  shape2 n m a -> shape2 n m b -> shape2 n m (emap2 f a b).
Proof.
  intros [Hla Hra] [Hlb Hrb]. split.
  - rewrite length_emap2. lia.
  - unfold emap2. apply zip_with_Forall. intros x y Hx Hy.
    rewrite Forall_forall in Hra, Hrb. unfold shape1 in *.
    rewrite length_zip_with, (Hra x Hx), (Hrb y Hy). lia.
Qed.

Lemma shape2_emap (f : R -> R) (n m : nat) (a : grid) :
  shape2 n m a -> shape2 n m (emap f a).
Proof.
  intros [Hl Hr]. split; [ rewrite length_emap; exact Hl | ].
  unfold emap. apply Forall_forall. intros row Hrow.
  apply in_map_iff in Hrow as [r [<- Hin]]. unfold shape1. rewrite length_map.
  rewrite Forall_forall in Hr. apply Hr. exact Hin.
Qed.

Lemma get2_emap2_shape (f : R -> R -> R) (n m : nat) (g g' : grid) (a b : nat) :
  shape2 n m g -> shape2 n m g' -> (a < n)%nat -> (b < m)%nat ->
  get2 (emap2 f g g') a b = f (get2 g a b) (get2 g' a b).
Proof.
  intros Hg Hg' Ha Hb. apply get2_emap2.
  - destruct Hg as [Hl _]. lia.
  - destruct Hg' as [Hl _]. lia.
  - rewrite (shape2_nth n m) by assumption. exact Hb.
  - rewrite (shape2_nth n m) by assumption. exact Hb.
Qed.

Lemma get2_emap_shape (f : R -> R) (n m : nat) (g : grid) (a b : nat) :
  shape2 n m g -> (a < n)%nat -> (b < m)%nat ->
  get2 (emap f g) a b = f (get2 g a b).
Proof.
  intros Hg Ha Hb. apply get2_emap.
  - destruct Hg as [Hl _]. lia.
  - rewrite (shape2_nth n m) by assumption. exact Hb.
Qed.

Lemma shape2_dxc (s : CustomedEqs) (Nx Ny : nat) (X : grid) :
  (0 < Nx)%nat -> shape2 Nx Nx (dx s) -> shape2 Nx Ny X ->
  shape2 Nx Ny (matmul (dx s) X).
Proof.
  intros HNx Hdx HX. pose proof (shape2_matmul (dx s) X) as H.
  rewrite (ncols_shape2 Nx Ny X HX HNx) in H.
  destruct Hdx as [Hl _]. rewrite Hl in H. exact H.
Qed.

Lemma shape2_dyc (s : CustomedEqs) (Nx Ny : nat) (X : grid) :
  (0 < Nx)%nat -> (0 < Ny)%nat -> shape2 Ny Ny (dy s) -> shape2 Nx Ny X ->
  shape2 Nx Ny (transpose (matmul (dy s) (transpose X))).
Proof.
  intros HNx HNy Hdy HX.
  assert (H1 : shape2 Ny Nx (transpose X)).
  { pose proof (shape2_transpose X) as H.
    rewrite (ncols_shape2 Nx Ny X HX HNx) in H.
    destruct HX as [Hl _]. rewrite Hl in H. exact H. }
  assert (H2 : shape2 Ny Nx (matmul (dy s) (transpose X))).
  { pose proof (shape2_matmul (dy s) (transpose X)) as H.
    rewrite (ncols_shape2 Ny Nx _ H1 HNy) in H.
    destruct Hdy as [Hl _]. rewrite Hl in H. exact H. }
  pose proof (shape2_transpose (matmul (dy s) (transpose X))) as H.
  rewrite (ncols_shape2 Ny Nx _ H2 HNy) in H.
  destruct H2 as [Hl _]. rewrite Hl in H. exact H.
Qed.

Lemma shape2_gtimes (n m : nat) (g : grid) (c : R) :
  shape2 n m g -> shape2 n m (gtimes g c).
Proof. apply shape2_emap. Qed.

Lemma shape2_gadd (n m : nat) (a b : grid) :
  shape2 n m a -> shape2 n m b -> shape2 n m (a .+ b)%G.
Proof. apply shape2_emap2. Qed.

Lemma shape2_gsub (n m : nat) (a b : grid) :
  shape2 n m a -> shape2 n m b -> shape2 n m (a .- b)%G.
Proof. apply shape2_emap2. Qed.

Lemma shape2_gmul (n m : nat) (a b : grid) :
  shape2 n m a -> shape2 n m b -> shape2 n m (a .* b)%G.
Proof. apply shape2_emap2. Qed.

#[export] Hint Resolve shape2_dxc shape2_dyc shape2_gtimes shape2_gadd
  shape2_gsub shape2_gmul shape2_Interior_of : gridshapes.

(** The vorticity of a case has the shape of the fields. *)
Lemma case_setup_omega_shape (self : CustomedEqs) (alpha phi_pred : grid)
  (J : grid * grid * grid * grid) (icase Nx Ny : nat) :
  FieldShape self = (Nx, Ny) -> (0 < Nx)%nat -> (0 < Ny)%nat ->
  shape2 Nx Nx (dx self) -> shape2 Ny Ny (dy self) -> shape2 Nx Ny (uBC self) ->
  shape2 Nx Ny (c_omega (case_setup self alpha phi_pred J icase)).
Proof.
  intros HFS HNx HNy Hdx Hdy HuBC.
  pose proof (Mode2Field_shape self (nth icase phi_pred [])) as Hsh.
  unfold case_setup. destruct J as [[[J11 J12] J21] J22].
  destruct (Mode2Field self (nth icase phi_pred [])) as [[p u] v].
  rewrite HFS in Hsh. cbn [fst snd] in Hsh. destruct Hsh as [_ [Hu Hv]].
  unfold Compute_d_d1, Compute_d_dxc, Compute_d_dyc, getGrid. cbn [c_omega].
  auto 10 with gridshapes.
Qed.

(** ** C7: the relaxation of the stream function *)

(** C7.  In one case of [GetPredFields] the stream function starts from
    [0*omega] and is iterated by [psi <- psi + dpsi*dt] with
    [dt = 0.5*min(hx,hy)^2].  The update [dpsi] is the Laplacian of [psi]
    in the computational coordinates,
    [psi_xc2*(J11^2+J21^2) + psi_yc2*(J12^2+J22^2)
     + psi_xcyc*(2*J11*J12+2*J21*J22)]
    with the second derivatives taken by the matrices [dx] and [dy] of the
    object and the Jacobian of this case, minus [omega], times the mask
    [Interior]: at an interior point the new value is
    [psi + (Laplacian(psi) - omega)*dt], at a boundary point the value is
    left as it is.  The loop stops after the first pass at which the
    largest magnitude of [dpsi] is below 1e-8; if no pass within the budget
    of 10^8 meets it, the iterate after 10^8 passes is returned: either way
    the case ends normally, the only lines printed are the progress lines
    of the loop, and the result is written and appended. *)
Theorem stream_function_relaxation (self : CustomedEqs) (alpha phi_pred : grid)
  (J : grid * grid * grid * grid) (filename : string) (icase : nat)
  (Fields : tensor4) (s : CustomedEqs) :
  Interior self = Interior_of (FieldShape self) ->
  let c := case_setup self alpha phi_pred J icase in
  let j11 := get2 (fst (fst (fst J))) icase 0 in
  let j12 := get2 (snd (fst (fst J))) icase 0 in
  let j21 := get2 (snd (fst J)) icase 0 in
  let j22 := get2 (snd J) icase 0 in
  let psi_xc2 := fun psi => matmul (dx self) (matmul (dx self) psi) in
  let psi_yc2 := fun psi =>
    transpose (matmul (dy self)
                 (transpose (transpose (matmul (dy self) (transpose psi))))) in
  let psi_xcyc := fun psi =>
    transpose (matmul (dy self) (transpose (matmul (dx self) psi))) in
  let laplacian := fun psi =>
    (gtimes (psi_xc2 psi) (j11 ^ 2 + j21 ^ 2)
     .+ gtimes (psi_yc2 psi) (j12 ^ 2 + j22 ^ 2)
     .+ gtimes (psi_xcyc psi) (2 * j11 * j12 + 2 * j21 * j22))%G in
  let dpsi := fun psi => ((laplacian psi .- c_omega c) .* Interior self)%G in
  let step := fun psi => (psi .+ gtimes (dpsi psi) (c_dt c))%G in
  let iter := fix iter (k : nat) (psi : grid) : grid :=
    match k with O => psi | S k' => iter k' (step psi) end in
  let converged := fun j =>
    Rltb (absmax (dpsi (iter j (0 *: c_omega c)%G))) 1E-8 in
  c_dt c = 0.5 * Rmin (c_hx c) (c_hy c) ^ 2
  /\ c_hx c = Rabs (get2 (c_xp c) 0 0 - get2 (c_xp c) 1 0)
  /\ c_hy c = Rabs (get2 (c_yp c) 0 0 - get2 (c_yp c) 0 1)
  /\ relax_budget = N.to_nat 100000000
  /\ (forall psi a b, boundary_point (FieldShape self) a b -> get2 (dpsi psi) a b = 0)
  /\ (forall Nx Ny psi a b,
        FieldShape self = (Nx, Ny) -> (0 < Nx)%nat -> (0 < Ny)%nat ->
        shape2 Nx Nx (dx self) -> shape2 Ny Ny (dy self) ->
        shape2 Nx Ny (uBC self) -> shape2 Nx Ny psi ->
        (interior_point (Nx, Ny) a b ->
           get2 (step psi) a b
           = get2 psi a b
             + (get2 (laplacian psi) a b - get2 (c_omega c) a b) * c_dt c)
        /\ (boundary_point (Nx, Ny) a b -> get2 (step psi) a b = get2 psi a b))
  /\ exists (k : nat) (log : list event),
       pred_case self alpha phi_pred J filename icase Fields s
       = mkRes s
           (log ++ [WritePlt filename icase (snd (FieldShape self)) (fst (FieldShape self))
                      (plt_lines (fst (FieldShape self)) (snd (FieldShape self)) c
                                 (iter k (0 *: c_omega c)%G))])
           (inr (Fields ++ [[c_xp c; c_yp c; c_p c; c_u c; c_v c; c_omega c;
                             iter k (0 *: c_omega c)%G]]))
       /\ (0 < k <= relax_budget)%nat
       /\ (forall j, (S j < k)%nat -> converged j = false)
       /\ (k < relax_budget -> converged (k - 1)%nat = true)%nat
       /\ ((forall j, (j < relax_budget)%nat -> converged j = false) -> k = relax_budget)
       /\ Forall is_progress log.
Proof.
  intros HI c j11 j12 j21 j22 psi_xc2 psi_yc2 psi_xcyc laplacian dpsi step iter
    converged.
  assert (HJ : c_J11 c = j11 /\ c_J12 c = j12 /\ c_J21 c = j21 /\ c_J22 c = j22).
  { unfold c, case_setup, j11, j12, j21, j22. destruct J as [[[J11 J12] J21] J22].
    destruct (Mode2Field self (nth icase phi_pred [])) as [[p u] v].
    unfold Compute_d_d1, getGrid. cbn [c_J11 c_J12 c_J21 c_J22 fst snd]. auto. }
  destruct HJ as [HJ11 [HJ12 [HJ21 HJ22]]].
  assert (Hdpsi : forall psi,
            relax_dpsi self (c_J11 c) (c_J12 c) (c_J21 c) (c_J22 c) (c_omega c) psi
            = dpsi psi).
  { intros psi. rewrite HJ11, HJ12, HJ21, HJ22. reflexivity. }
  assert (Hstep : forall psi,
            relax_step self (c_J11 c) (c_J12 c) (c_J21 c) (c_J22 c) (c_omega c)
                       (c_dt c) psi
            = step psi).
  { intros psi. unfold relax_step. rewrite Hdpsi. reflexivity. }
  assert (Hiter : forall k psi,
            relax_iter self (c_J11 c) (c_J12 c) (c_J21 c) (c_J22 c) (c_omega c)
                       (c_dt c) k psi
            = iter k psi).
  { induction k as [ | k IH ]; intros psi; [ reflexivity | ].
    cbn [relax_iter]. rewrite Hstep. apply IH. }
  assert (Hconv : forall j,
            relax_converged self (c_J11 c) (c_J12 c) (c_J21 c) (c_J22 c) (c_omega c)
                            (c_dt c) (0 *: c_omega c)%G j
            = converged j).
  { intros j. unfold relax_converged. rewrite Hiter, Hdpsi. reflexivity. }
  assert (Hmask : forall psi a b, boundary_point (FieldShape self) a b ->
                    get2 (dpsi psi) a b = 0).
  { intros psi a b Hbd. rewrite <- Hdpsi. apply relax_dpsi_masked. rewrite HI.
    apply Interior_of_boundary. exact Hbd. }
  destruct (case_setup_step self alpha phi_pred J icase) as [Hdt [Hhx Hhy]].
  split; [ exact Hdt | ]. split; [ exact Hhx | ]. split; [ exact Hhy | ].
  split; [ reflexivity | ]. split; [ exact Hmask | ]. split.
  { intros Nx Ny psi a b HFS HNx HNy Hdx Hdy HuBC Hpsi.
    pose proof (case_setup_omega_shape self alpha phi_pred J icase Nx Ny
                  HFS HNx HNy Hdx Hdy HuBC) as Hom. fold c in Hom.
    assert (HIsh : shape2 Nx Ny (Interior self)).
    { rewrite HI, HFS. apply shape2_Interior_of. }
    assert (Hlap : shape2 Nx Ny (laplacian psi)).
    { unfold laplacian, psi_xc2, psi_yc2, psi_xcyc. auto 12 with gridshapes. }
    assert (Hd : shape2 Nx Ny (dpsi psi)).
    { unfold dpsi. auto with gridshapes. }
    assert (Hval : forall a b, (a < Nx)%nat -> (b < Ny)%nat ->
              get2 (step psi) a b
              = get2 psi a b
                + (get2 (laplacian psi) a b - get2 (c_omega c) a b)
                  * get2 (Interior self) a b * c_dt c).
    { intros a' b' Ha Hb. unfold step, gadd.
      rewrite (get2_emap2_shape _ Nx Ny) by (auto with gridshapes).
      unfold gtimes at 1. rewrite (get2_emap_shape _ Nx Ny) by assumption.
      unfold dpsi, gmul, gsub.
      rewrite (get2_emap2_shape _ Nx Ny) by (auto with gridshapes).
      rewrite (get2_emap2_shape _ Nx Ny) by assumption.
      reflexivity. }
    split.
    - intros Hint.
      pose proof (Interior_of_interior (Nx, Ny) a b Hint) as H1.
      destruct Hint as [Ha1 [Ha2 [Hb1 Hb2]]]. cbn [fst snd] in *.
      rewrite Hval by lia. rewrite HI, HFS, H1. ring.
    - intros Hbd.
      pose proof (Interior_of_boundary (Nx, Ny) a b Hbd) as H0.
      destruct (boundary_point_outside Nx Ny a b Hbd) as [Ha Hb].
      rewrite Hval by assumption. rewrite HI, HFS, H0. ring. }
  destruct (relax_run self (c_J11 c) (c_J12 c) (c_J21 c) (c_J22 c) (c_omega c)
              (c_dt c) relax_budget 0%N (0 *: c_omega c)%G s)
    as [k [log [Hrun [Hk [Hpos [Hbefore [Hstop Hlog]]]]]]].
  exists k, log.
  assert (Hbudget : (0 < relax_budget)%nat).
  { unfold relax_budget. change (0 < Pos.to_nat 100000000)%nat. apply Pos2Nat.is_pos. }
  split.
  - unfold pred_case. fold c. unfold bind. rewrite Hrun. cbn [val obj out].
    destruct (FieldShape self) as [Nx Ny]. cbn [val obj out emit ret fst snd].
    rewrite app_nil_r, Hiter. reflexivity.
  - split; [ split; [ apply Hpos; exact Hbudget | exact Hk ] | ].
    split; [ intros j Hj; rewrite <- Hconv; apply Hbefore; exact Hj | ].
    split; [ intros Hlt; rewrite <- Hconv; apply Hstop; exact Hlt | ].
    split; [ | exact Hlog ].
    intros Hnone. destruct (Nat.eq_dec k relax_budget) as [Heq | Hne]; [ exact Heq | ].
    assert (Hlt : (k < relax_budget)%nat) by lia.
    specialize (Hstop Hlt). rewrite Hconv, Hnone in Hstop; [ discriminate | lia ].
Qed.

Lemma stream_function_relaxation_witness :
  Interior cavity3 = Interior_of (FieldShape cavity3)
  /\ let c := case_setup cavity3 [[200; 90]] [[0; 3 / 5; 4 / 5]]
                (getJac cos sin [[200; 90]]) 0 in
     c_dt c = 0.5 * Rmin (c_hx c) (c_hy c) ^ 2
     /\ c_hx c = Rabs (get2 (c_xp c) 0 0 - get2 (c_xp c) 1 0)
     /\ c_hy c = Rabs (get2 (c_yp c) 0 0 - get2 (c_yp c) 0 1)
     /\ (interior_point (3%nat, 3%nat) 1 1 /\ boundary_point (3%nat, 3%nat) 0 2)
     /\ get2 (relax_step cavity3 (c_J11 c) (c_J12 c) (c_J21 c) (c_J22 c)
                (c_omega c) (c_dt c) (zeros2 3 3)) 0 2
        = get2 (zeros2 3 3) 0 2.
Proof.
  split; [ reflexivity | ].
  pose proof (stream_function_relaxation cavity3 [[200; 90]] [[0; 3 / 5; 4 / 5]]
                (getJac cos sin [[200; 90]]) EmptyString 0 [] cavity3 eq_refl) as H.
  cbv zeta in H. destruct H as [H1 [H2 [H3 [_ [_ [H6 _]]]]]].
  assert (Hint : interior_point (3%nat, 3%nat) 1 1)
    by (unfold interior_point; cbn [fst snd]; lia).
  assert (Hbd : boundary_point (3%nat, 3%nat) 0 2)
    by (unfold boundary_point; cbn [fst snd]; lia).
  assert (Hsq : shape2 3 3 cheb3)
    by (split; [ reflexivity | repeat constructor ]).
  assert (HuBC : shape2 3 3 (uBC cavity3))
    by (split; [ reflexivity | repeat constructor ]).
  assert (Hz : shape2 3 3 (zeros2 3 3))
    by (split; [ reflexivity | repeat constructor ]).
  cbv zeta. split; [ exact H1 | ]. split; [ exact H2 | ]. split; [ exact H3 | ].
  split; [ split; assumption | ].
  exact (proj2 (H6 3%nat 3%nat (zeros2 3 3) 0%nat 2%nat eq_refl
                   (Nat.lt_0_succ 2) (Nat.lt_0_succ 2) Hsq Hsq HuBC Hz) Hbd).
Defined.

(** ** C1 and C4: what [POD_Gfsolve] stores, prints and starts from *)

Lemma firstn_2_row (row : vec) :
  (2 <= length row)%nat -> firstn 2 row = [nth 0 row 0; nth 1 row 0].
Proof.
  destruct row as [ | a [ | b t ] ]; simpl; intros H; try lia. reflexivity.
Qed.

(** [alpha[i:i+1,0:2]] is the one-row array of the first two entries of
    row [i]. *)
Lemma alpha_row_explicit (alpha : grid) (i : nat) :
  (i < length alpha)%nat -> (2 <= length (nth i alpha []))%nat ->
  alpha_row alpha i = [[nth 0 (nth i alpha []) 0; nth 1 (nth i alpha []) 0]].
Proof.
  intros Hi Hw. rewrite (alpha_row_in_range alpha i Hi).
  rewrite (firstn_2_row _ Hw). reflexivity.
Qed.

Lemma assemble_source_column (s : CustomedEqs) (alphai : grid) :
  as_column (squeeze_column (snd (assemble s alphai))) = snd (assemble s alphai).
Proof.
  unfold assemble. destruct (getABCoef cos sin alphai) as [A B]. cbn [snd].
  rewrite squeeze_column_as_column. reflexivity.
Qed.

(** The normalized start of the root-finder, as a vector. *)
Lemma normalized_start (guess : grid) (mu sd : vec) :
  squeeze_row (emap2 Rdiv (guess .- [mu])%G [sd])
  = zip_with Rdiv (zip_with Rminus (squeeze_row guess) mu) sd.
Proof.
  unfold gsub, emap2, squeeze_row.
  destruct guess as [ | g rest ]; [ reflexivity | ].
  cbn [zip_with nth]. destruct rest; reflexivity.
Qed.

Lemma squeeze_row_slice (l : grid) (i : nat) :
  squeeze_row (slice_rows i (i + 1) l) = nth i l [].
Proof.
  unfold squeeze_row, slice_rows. replace (i + 1 - i)%nat with 1%nat by lia.
  rewrite nth_firstn. cbn [Nat.ltb Nat.leb]. rewrite nth_skipn.
  rewrite Nat.add_0_r. reflexivity.
Qed.

Lemma tensors_ready_init_reduced (s : CustomedEqs) : tensors_ready (init_reduced s).
Proof.
  unfold tensors_ready, init_reduced.
  pose proof (getB_shapes s) as [HB3 HB2].
  pose proof (getA_shapes (with_reduced (getB s) (Aeqs s, Abc s) s)) as [HA4 HA3].
  simpl in *. auto.
Qed.

Lemma solver_ready_init_reduced (s : CustomedEqs) :
  solver_ready s -> solver_ready (init_reduced s).
Proof. intros H. exact H. Qed.

(** C1.  For every query batch [POD_Gfsolve] ends normally and returns one
    row per case.  Case [i] is solved at the parameters
    [(alpha[i,0], alpha[i,1])] by a single call of the root-finder, started
    from the supplied guess of row [i] (or the nearest training sample),
    normalized as [(guess - mean)/std].  Whatever the norm [err] of the
    residual at the result [lamdasol] is, the row stored for the case is
    [lamdasol*std + mean], entry by entry: nothing is discarded, replaced
    or retried.  When [err] exceeds 1e-6 the line of case [i] with the two
    parameter values and [err] is printed, and a line of case [i] is in the
    output exactly when [err] exceeds 1e-6.  The returned array carries no
    mark of its own; but [err] is the norm of the residual of the reduced
    equations at the stored row, so the failure of a case can be read off
    the output and can be recomputed from the row that is returned. *)
Theorem POD_Gfsolve_keeps_unconverged (fsolve : (vec -> vec) -> vec -> vec)
  (s : CustomedEqs) (alpha : grid) (lamda_init : option grid) :
  (0 < M s)%nat -> shape2 1 (M s) (proj_mean s) -> shape2 1 (M s) (proj_std s) ->
  Forall (fun row => (2 <= length row)%nat) alpha ->
  exists log lamda mu sd,
    POD_Gfsolve fsolve alpha lamda_init s = mkRes s log (inr lamda)
    /\ length lamda = length alpha
    /\ proj_mean s = [mu] /\ proj_std s = [sd]
    /\ forall i, (i < length alpha)%nat ->
         let re := nth 0 (nth i alpha []) 0 in
         let ang := nth 1 (nth i alpha []) 0 in
         let alphai := [[re; ang]] in
         let Ai := fst (fst (assemble s alphai)) in
         let Bi := snd (fst (assemble s alphai)) in
         let sourcei := snd (assemble s alphai) in
         let guess :=
           match lamda_init with
           | Some l => nth i l []
           | None => squeeze_row (initial_guess s alphai i None)
           end in
         let x0 := zip_with Rdiv (zip_with Rminus guess mu) sd in
         let F := fun x => eqs s x Ai Bi sourcei in
         let lamdasol := fsolve F x0 in
         let err := norm2 (F lamdasol) in
         nth i lamda [] = zip_with Rplus (zip_with Rmult lamdasol sd) mu
         /\ (err > 1E-6 -> In (PrintCase i re ang err) log)
         /\ (reported log i <-> err > 1E-6)
         /\ (length lamdasol = M s ->
             err = norm2 (spec_residual Ai Bi (squeeze_column sourcei)
                                        (nth i lamda []))).
Proof.
  intros HM Hmean Hstd Hcols.
  destruct (POD_Gfsolve_run fsolve s alpha lamda_init)
    as [log [lamda [Hrun [Hlen [Hrows Hlog]]]]].
  destruct (shape2_one_row _ _ Hmean) as [mu [Hmu Hmul]].
  destruct (shape2_one_row _ _ Hstd) as [sd [Hsd Hsdl]].
  exists log, lamda, mu, sd.
  split; [ exact Hrun | ]. split; [ exact Hlen | ].
  split; [ exact Hmu | ]. split; [ exact Hsd | ].
  intros i Hi re ang alphai Ai Bi sourcei guess x0 F lamdasol err.
  assert (Hw : (2 <= length (nth i alpha []))%nat).
  { rewrite Forall_forall in Hcols. apply Hcols. apply nth_In. exact Hi. }
  pose proof (alpha_row_explicit alpha i Hi Hw) as Hrow. fold re ang alphai in Hrow.
  assert (Hx0 : squeeze_row
                  (emap2 Rdiv (initial_guess s alphai i lamda_init .- proj_mean s)%G
                         (proj_std s)) = x0).
  { rewrite Hmu, Hsd, normalized_start. unfold x0, guess.
    destruct lamda_init as [ l | ]; [ | reflexivity ].
    cbn [initial_guess]. rewrite squeeze_row_slice. reflexivity. }
  pose proof (solve_case_unfold fsolve s alpha lamda_init i) as Hcase.
  cbv zeta in Hcase. rewrite Hrow, Hx0 in Hcase.
  fold Ai Bi sourcei in Hcase. fold F in Hcase. fold lamdasol in Hcase.
  fold err in Hcase.
  assert (Hstored : nth i lamda [] = zip_with Rplus (zip_with Rmult lamdasol sd) mu).
  { rewrite (Hrows i Hi), Hcase. cbn [fst snd].
    rewrite (denormalize_rows s lamdasol mu sd Hmu Hsd). reflexivity. }
  split; [ exact Hstored | ]. split; [ | split ].
  - intros Herr. apply Hlog. exists i. rewrite Hcase. cbn [fst snd].
    split; [ exact Hi | ]. split; [ exact Herr | reflexivity ].
  - split.
    + intros [a0 [a1 [r He]]]. apply Hlog in He as [j [Hj [Hgt Heq]]].
      injection Heq as <- _ _ _. rewrite Hcase in Hgt. exact Hgt.
    + intros Herr. exists re, ang, err.
      apply Hlog. exists i. rewrite Hcase. cbn [fst snd].
      split; [ exact Hi | ]. split; [ exact Herr | reflexivity ].
  - intros Hsol. unfold err, F.
    replace (eqs s lamdasol Ai Bi sourcei)
      with (eqs s lamdasol Ai Bi (as_column (squeeze_column sourcei)))
      by (f_equal; apply assemble_source_column).
    rewrite (eqs_formula s lamdasol Ai Bi (squeeze_column sourcei) HM Hmean Hstd Hsol).
    rewrite (Hrows i Hi), Hcase. reflexivity.
Qed.

Lemma POD_Gfsolve_keeps_unconverged_witness :
  let s := init_reduced cavity3 in
  ((0 < M s)%nat /\ Forall (fun row => (2 <= length row)%nat) [[200; 90]])
  /\ exists log lamda mu sd,
       POD_Gfsolve (fun _ x => x) [[200; 90]] None s = mkRes s log (inr lamda)
       /\ length lamda = 1%nat
       /\ proj_mean s = [mu] /\ proj_std s = [sd].
Proof.
  intros s.
  assert (HM : (0 < M s)%nat) by exact (le_n 1).
  assert (Hmean : shape2 1 (M s) (proj_mean s)).
  { split; [ reflexivity | constructor; [ reflexivity | constructor ] ]. }
  assert (Hstd : shape2 1 (M s) (proj_std s)).
  { split; [ reflexivity | constructor; [ reflexivity | constructor ] ]. }
  assert (Hcols : Forall (fun row => (2 <= length row)%nat) [[200; 90]]).
  { constructor; [ exact (le_n 2) | constructor ]. }
  split; [ split; assumption | ].
  destruct (POD_Gfsolve_keeps_unconverged (fun _ x => x) s [[200; 90]] None
              HM Hmean Hstd Hcols)
    as [log [lamda [mu [sd [Hrun [Hlen [Hmu [Hsd _]]]]]]]].
  exists log, lamda, mu, sd. auto.
Defined.

(** C4.  Without an external initial guess, for every query point
    [(re, ang) = (alpha[i,0], alpha[i,1])] the root-finder starts from the
    projection coefficients (column [ind] of the first M rows of
    [projections]) of the training sample [ind] whose parameter row [p] has
    the least distance
    [sqrt(((re - p0)/(ub0 - lb0))^2 + ((ang - p1)/(ub1 - lb1))^2)]
    to the query, [lb] and [ub] being the two rows of the design-space box
    (the first such sample on a tie).  The guess is normalized as
    [(guess - mean)/std]; the row returned is the solution de-normalized as
    [sol*std + mean] with the same statistics.  The box has a non-zero
    extent in both coordinates, the training parameters have two columns
    and the reduced tensors are built: otherwise the code fails before or
    in the lookup. *)
Theorem POD_Gfsolve_nearest_neighbour (fsolve : (vec -> vec) -> vec -> vec)
  (s : CustomedEqs) (alpha : grid) (lb ub : vec) :
  solver_ready s -> tensors_ready s ->
  design_space s = [lb; ub] -> length lb = 2%nat -> length ub = 2%nat ->
  nth 0 ub 0 <> nth 0 lb 0 -> nth 1 ub 0 <> nth 1 lb 0 ->
  Forall (fun p => length p = 2%nat) (parameters s) ->
  Forall (fun row => (2 <= length row)%nat) alpha ->
  exists log lamda mu sd,
    POD_Gfsolve fsolve alpha None s = mkRes s log (inr lamda)
    /\ proj_mean s = [mu] /\ proj_std s = [sd]
    /\ forall i, (i < length alpha)%nat ->
         let re := nth 0 (nth i alpha []) 0 in
         let ang := nth 1 (nth i alpha []) 0 in
         let dist := fun p : vec =>
           sqrt (((re - nth 0 p 0) / (nth 0 ub 0 - nth 0 lb 0)) ^ 2
                 + ((ang - nth 1 p 0) / (nth 1 ub 0 - nth 1 lb 0)) ^ 2) in
         let alphai := [[re; ang]] in
         let F := fun x => eqs s x (fst (fst (assemble s alphai)))
                               (snd (fst (assemble s alphai))) (snd (assemble s alphai)) in
         exists ind,
           (ind < length (parameters s))%nat
           /\ (forall j, (j < length (parameters s))%nat ->
                 dist (nth ind (parameters s) []) <= dist (nth j (parameters s) []))
           /\ (forall j, (j < ind)%nat ->
                 dist (nth ind (parameters s) []) < dist (nth j (parameters s) []))
           /\ let guess := map (fun row => nth ind row 0)
                               (firstn (M s) (projections s)) in
              let x0 := zip_with Rdiv (zip_with Rminus guess mu) sd in
              initial_guess s alphai i None = [guess]
              /\ nth i lamda []
                 = zip_with Rplus (zip_with Rmult (fsolve F x0) sd) mu.
Proof.
  intros Hready _ Hbox Hlb Hub _ _ Hpar Hcols.
  destruct (POD_Gfsolve_run fsolve s alpha None)
    as [log [lamda [Hrun [Hlen [Hrows _]]]]].
  pose proof Hready as [Hne [HM [Hproj [Hmean Hstd]]]].
  destruct (shape2_one_row _ _ Hmean) as [mu [Hmu Hmul]].
  destruct (shape2_one_row _ _ Hstd) as [sd [Hsd Hsdl]].
  exists log, lamda, mu, sd.
  split; [ exact Hrun | ]. split; [ exact Hmu | ]. split; [ exact Hsd | ].
  intros i Hi re ang dist alphai F.
  assert (Hw : (2 <= length (nth i alpha []))%nat).
  { rewrite Forall_forall in Hcols. apply Hcols. apply nth_In. exact Hi. }
  pose proof (alpha_row_explicit alpha i Hi Hw) as Hrow. fold re ang alphai in Hrow.
  set (dis := distances s alphai).
  assert (Hdis : dis = map dist (parameters s)).
  { unfold dis, distances, norm_axis1. rewrite map_map. rewrite Hbox.
    unfold squeeze_row, slice_rows. cbn [Nat.sub skipn firstn nth].
    apply map_ext_in. intros p Hp.
    rewrite Forall_forall in Hpar. pose proof (Hpar p Hp) as Hpl.
    destruct p as [ | p0 [ | p1 [ | ? ? ] ] ]; try discriminate.
    destruct lb as [ | l0 [ | l1 [ | ? ? ] ] ]; try discriminate.
    destruct ub as [ | u0 [ | u1 [ | ? ? ] ] ]; try discriminate.
    unfold dist, alphai, norm2. cbn [zip_with map fold_left nth].
    f_equal. ring. }
  assert (Hdlen : length dis = length (parameters s)).
  { rewrite Hdis. apply length_map. }
  assert (Hdne : dis <> []).
  { intros H. rewrite H in Hdlen. simpl in Hdlen.
    destruct (parameters s); [ congruence | simpl in Hdlen; lia ]. }
  destruct (argmin_first dis Hdne) as [Hlt [Hmin Hfirst]].
  set (ind := first_index (vmin dis) dis) in *.
  assert (Hnth : forall j, (j < length (parameters s))%nat ->
                   nth j dis 0 = dist (nth j (parameters s) [])).
  { intros j Hj. rewrite Hdis.
    rewrite (nth_indep _ 0 (dist [])) by (rewrite length_map; exact Hj).
    apply map_nth. }
  exists ind.
  split; [ lia | ]. split; [ | split ].
  - intros j Hj. rewrite <- !Hnth by lia. apply Hmin. lia.
  - intros j Hj. rewrite <- !Hnth by lia. apply Hfirst. exact Hj.
  - intros guess x0.
    assert (Hguess : initial_guess s alphai i None = [guess]).
    { unfold initial_guess. fold dis. fold ind. apply nearest_guess; [ exact Hready | lia ]. }
    split; [ exact Hguess | ].
    pose proof (solve_case_unfold fsolve s alpha None i) as Hcase.
    cbv zeta in Hcase. rewrite Hrow in Hcase. fold F in Hcase.
    rewrite (Hrows i Hi), Hcase. cbn [fst snd].
    unfold denormalize. rewrite Hguess, Hmu, Hsd. reflexivity.
Qed.

Lemma POD_Gfsolve_nearest_neighbour_witness :
  let s := init_reduced cavity3 in
  (solver_ready s /\ tensors_ready s
   /\ design_space s = [[100; 60]; [500; 120]]
   /\ nth 0 [500; 120] 0 <> nth 0 [100; 60] 0
   /\ nth 1 [500; 120] 0 <> nth 1 [100; 60] 0)
  /\ exists log lamda mu sd,
       POD_Gfsolve (fun _ x => x) [[200; 90]] None s = mkRes s log (inr lamda)
       /\ proj_mean s = [mu] /\ proj_std s = [sd].
Proof.
  intros s.
  assert (Hready : solver_ready s)
    by exact (solver_ready_init_reduced cavity3 solver_ready_cavity3).
  assert (Htens : tensors_ready s) by exact (tensors_ready_init_reduced cavity3).
  assert (H0 : nth 0 [500; 120] 0 <> nth 0 [100; 60] 0) by (cbn [nth]; lra).
  assert (H1 : nth 1 [500; 120] 0 <> nth 1 [100; 60] 0) by (cbn [nth]; lra).
  assert (Hpar : Forall (fun p => length p = 2%nat) (parameters s))
    by (repeat constructor).
  assert (Hcols : Forall (fun row => (2 <= length row)%nat) [[200; 90]])
    by (constructor; [ exact (le_n 2) | constructor ]).
  split;
    [ split; [ exact Hready | ]; split; [ exact Htens | ];
      split; [ reflexivity | ]; split; assumption | ].
  destruct (POD_Gfsolve_nearest_neighbour (fun _ x => x) s [[200; 90]]
              [100; 60] [500; 120] Hready Htens eq_refl eq_refl eq_refl
              H0 H1 Hpar Hcols)
    as [log [lamda [mu [sd [Hrun [Hmu [Hsd _]]]]]]].
  exists log, lamda, mu, sd. split; [ exact Hrun | split; [ exact Hmu | exact Hsd ] ].
Defined.

(** ** C5: the Jacobian at 90 degrees, in binary64 *)


Lemma Rabs_le_both (a b : R) : Rabs a <= b -> - b <= a <= b.
Proof. unfold Rabs. destruct (Rcase_abs a); lra. Qed.

Lemma binary64_frac (m : Z) (k : nat) :
  (Z.abs m < 2 ^ 53)%Z -> (k <= 1074)%nat -> binary64 (IZR m / 2 ^ k).
Proof. intros Hm Hk. exists m, k. split; [ exact Hm | left; auto ]. Qed.

Lemma binary64_int (m : Z) :
  (Z.abs m < 2 ^ 53)%Z -> binary64 (IZR m).
Proof.
  intros Hm. exists m, 0%nat. split; [ exact Hm | right ].
  split; [ lia | simpl; lra ].
Qed.

Lemma binary64_opp (d : R) : binary64 d -> binary64 (- d).
Proof.
  intros [m [k [Hm H]]]. exists (- m)%Z, k.
  split; [ lia | ]. rewrite opp_IZR.
  destruct H as [[Hk ->] | [Hk ->]]; [ left | right ]; split; auto; lra.
Qed.

(** An operation whose exact result is a binary64 number returns it. *)
Lemma rounds_exact (x d : R) : binary64 x -> rounds x d -> d = x.
Proof.
  intros Hx [_ Hmin]. specialize (Hmin x Hx).
  replace (x - x) with 0 in Hmin by ring. rewrite Rabs_R0 in Hmin.
  pose proof (Rabs_pos (x - d)) as Hpos.
  assert (H0 : Rabs (x - d) = 0) by lra.
  destruct (Req_dec (x - d) 0) as [He | Hne]; [ lra | ].
  apply Rabs_no_R0 in Hne. contradiction.
Qed.

Lemma rounds_refl (x : R) : binary64 x -> rounds x x.
Proof.
  intros Hx. split; [ exact Hx | ]. intros d' _.
  replace (x - x) with 0 by ring. rewrite Rabs_R0. apply Rabs_pos.
Qed.

(** Rounding to nearest is monotone against binary64 bounds. *)
Lemma rounds_le (x d B : R) : rounds x d -> binary64 B -> x <= B -> d <= B.
Proof.
  intros [_ Hmin] HB Hx. specialize (Hmin B HB).
  unfold Rabs in Hmin.
  destruct (Rcase_abs (x - d)); destruct (Rcase_abs (x - B)); lra.
Qed.

Lemma rounds_ge (x d B : R) : rounds x d -> binary64 B -> B <= x -> B <= d.
Proof.
  intros [_ Hmin] HB Hx. specialize (Hmin B HB).
  unfold Rabs in Hmin.
  destruct (Rcase_abs (x - d)); destruct (Rcase_abs (x - B)); lra.
Qed.

Lemma rounds_within (x d B : R) :
  rounds x d -> binary64 B -> Rabs (x - d) <= Rabs (x - B).
Proof. intros [_ Hmin] HB. apply Hmin. exact HB. Qed.

Lemma pow2_IZR (k : nat) : 2 ^ k = IZR (2 ^ Z.of_nat k).
Proof. apply pow_IZR. Qed.

Lemma pow2_pos (k : nat) : 0 < 2 ^ k.
Proof. apply pow_lt. lra. Qed.

(** Below 1 the nearest binary64 number is [1 - 2^-53]. *)
Lemma binary64_below_1 (d : R) : binary64 d -> d < 1 -> d <= 1 - / 2 ^ 53.
Proof.
  intros [m [k [Hm H]]] Hd.
  assert (H53 : 0 < / 2 ^ 53) by (apply Rinv_0_lt_compat, pow2_pos).
  assert (Hsmall : / 2 ^ 53 <= 1 / 2) by lra.
  destruct H as [[Hk ->] | [Hk ->]].
  - destruct (Nat.le_gt_cases k 53) as [Hk53 | Hk53].
    + (* d = (m * 2^(53-k)) / 2^53 *)
      assert (Hsplit : 2 ^ 53 = 2 ^ k * 2 ^ (53 - k)).
      { rewrite <- pow_add. f_equal. lia. }
      pose proof (pow2_pos k) as Hkpos. pose proof (pow2_pos (53 - k)) as Hrpos.
      assert (Hd' : IZR m / 2 ^ k = IZR (m * 2 ^ Z.of_nat (53 - k)) / 2 ^ 53).
      { rewrite mult_IZR, <- pow2_IZR, Hsplit. field. lra. }
      rewrite Hd' in *.
      assert (Hlt : IZR (m * 2 ^ Z.of_nat (53 - k)) < IZR (2 ^ 53)).
      { apply Rmult_lt_reg_r with (/ 2 ^ 53); [ exact H53 | ].
        replace (IZR (2 ^ 53) * / 2 ^ 53) with 1 by (simpl; lra).
        exact Hd. }
      apply lt_IZR in Hlt.
      assert (Hle : IZR (m * 2 ^ Z.of_nat (53 - k)) <= IZR (2 ^ 53 - 1))
        by (apply IZR_le; lia).
      rewrite minus_IZR in Hle.
      replace (IZR (2 ^ 53)) with (2 ^ 53) in Hle by (simpl; lra).
      unfold Rdiv. apply Rmult_le_reg_r with (2 ^ 53); [ apply pow2_pos | ].
      rewrite Rmult_assoc, Rinv_l by (pose proof (pow2_pos 53); lra).
      rewrite Rmult_minus_distr_r, Rinv_l by (pose proof (pow2_pos 53); lra).
      lra.
    + (* |d| < 2^53 / 2^54 *)
      assert (Hpow : 2 ^ 54 <= 2 ^ k) by (apply Rle_pow; [ lra | lia ]).
      assert (Hm' : IZR m < 2 ^ 53).
      { replace (2 ^ 53) with (IZR (2 ^ 53)) by (simpl; lra). apply IZR_lt. lia. }
      pose proof (pow2_pos k) as Hkpos.
      assert (Hq : IZR m / 2 ^ k <= 1 / 2).
      { unfold Rdiv. apply Rmult_le_reg_r with (2 ^ k); [ exact Hkpos | ].
        rewrite Rmult_assoc, Rinv_l by lra. lra. }
      lra.
  - (* an integer below 1 is at most 0 *)
    rewrite pow2_IZR, <- mult_IZR in *.
    assert (Hlt : (m * 2 ^ Z.of_nat k < 1)%Z) by (apply lt_IZR; exact Hd).
    assert (Hle : IZR (m * 2 ^ Z.of_nat k) <= IZR 0) by (apply IZR_le; lia).
    lra.
Qed.

(** A real number within [2^-54] below 1 rounds to 1. *)
Lemma rounds_near_1 (x d : R) : 1 - / 2 ^ 54 < x <= 1 -> rounds x d -> d = 1.
Proof.
  intros Hx Hr.
  assert (H1 : binary64 1) by (apply (binary64_int 1); lia).
  pose proof (rounds_le x d 1 Hr H1 (proj2 Hx)) as Hle.
  destruct (Req_dec d 1) as [He | Hne]; [ exact He | ].
  exfalso. assert (Hlt : d < 1) by lra.
  pose proof (binary64_below_1 d (proj1 Hr) Hlt) as Hgap.
  pose proof (rounds_within x d 1 Hr H1) as Hmin.
  unfold Rabs in Hmin.
  destruct (Rcase_abs (x - d)); destruct (Rcase_abs (x - 1)); lra.
Qed.

(** Every real number has a nearest binary64 number. *)
Lemma argmin_nat (f : nat -> R) (n : nat) :
  exists i, (i <= n)%nat /\ forall j, (j <= n)%nat -> f i <= f j.
Proof.
  induction n as [ | n [i [Hi Hmin]] ].
  - exists 0%nat. split; [ lia | ]. intros j Hj.
    replace j with 0%nat by lia. lra.
  - destruct (Rle_dec (f i) (f (S n))) as [Hle | Hgt].
    + exists i. split; [ lia | ]. intros j Hj.
      destruct (Nat.eq_dec j (S n)) as [-> | Hne]; [ exact Hle | apply Hmin; lia ].
    + exists (S n). split; [ lia | ]. intros j Hj.
      destruct (Nat.eq_dec j (S n)) as [-> | Hne]; [ lra | ].
      specialize (Hmin j ltac:(lia)). lra.
Qed.

Lemma argmin_nat2 (f : nat -> nat -> R) (a b : nat) :
  exists i j, (i <= a)%nat /\ (j <= b)%nat
    /\ forall i' j', (i' <= a)%nat -> (j' <= b)%nat -> f i j <= f i' j'.
Proof.
  induction a as [ | a [i [j [Hi [Hj Hmin]]]] ].
  - destruct (argmin_nat (f 0%nat) b) as [j [Hj Hmin]].
    exists 0%nat, j. split; [ lia | ]. split; [ exact Hj | ].
    intros i' j' Hi' Hj'. replace i' with 0%nat by lia. apply Hmin. exact Hj'.
  - destruct (argmin_nat (f (S a)) b) as [j2 [Hj2 Hmin2]].
    destruct (Rle_dec (f i j) (f (S a) j2)) as [Hle | Hgt].
    + exists i, j. split; [ lia | ]. split; [ exact Hj | ].
      intros i' j' Hi' Hj'.
      destruct (Nat.eq_dec i' (S a)) as [-> | Hne].
      * specialize (Hmin2 j' Hj'). lra.
      * apply Hmin; lia.
    + exists (S a), j2. split; [ lia | ]. split; [ exact Hj2 | ].
      intros i' j' Hi' Hj'.
      destruct (Nat.eq_dec i' (S a)) as [-> | Hne].
      * apply Hmin2. exact Hj'.
      * specialize (Hmin i' j' ltac:(lia) Hj'). lra.
Qed.

Lemma rounds_exists (x : R) : exists d, rounds x d.
Proof.
  remember (Z.to_nat (2 ^ 53 - 1)) as N eqn:HNdef.
  assert (HN : Z.of_nat N = (2 ^ 53 - 1)%Z).
  { subst N. apply Z2Nat.id. lia. }
  clear HNdef.
  set (mant := fun i : nat => (Z.of_nat i - Z.of_nat N)%Z).
  assert (Hmant : forall i, (i <= 2 * N)%nat -> (Z.abs (mant i) < 2 ^ 53)%Z).
  { intros i Hi. unfold mant. lia. }
  assert (Hindex : forall m, (Z.abs m < 2 ^ 53)%Z ->
                     exists i, (i <= 2 * N)%nat /\ mant i = m).
  { intros m Hm. exists (Z.to_nat (m + Z.of_nat N)). unfold mant.
    split; [ lia | ]. rewrite Z2Nat.id by lia. lia. }
  destruct (argmin_nat2 (fun i k => Rabs (x - IZR (mant i) / 2 ^ k)) (2 * N) 1074)
    as [i1 [k1 [Hi1 [Hk1 Hmin1]]]].
  destruct (argmin_nat2 (fun i k => Rabs (x - IZR (mant i) * 2 ^ k)) (2 * N) 971)
    as [i2 [k2 [Hi2 [Hk2 Hmin2]]]].
  assert (Hall : forall d m k,
            (Z.abs m < 2 ^ 53)%Z ->
            ((k <= 1074)%nat /\ d = IZR m / 2 ^ k) \/ ((k <= 971)%nat /\ d = IZR m * 2 ^ k) ->
            Rabs (x - IZR (mant i1) / 2 ^ k1) <= Rabs (x - d)
            /\ Rabs (x - IZR (mant i2) * 2 ^ k2) <= Rabs (x - d)
            \/ Rabs (x - IZR (mant i1) / 2 ^ k1) <= Rabs (x - d)
            \/ Rabs (x - IZR (mant i2) * 2 ^ k2) <= Rabs (x - d)).
  { intros d m k Hm H. destruct (Hindex m Hm) as [i [Hi <-]].
    destruct H as [[Hk ->] | [Hk ->]].
    - right. left. apply (Hmin1 i k Hi Hk).
    - right. right. apply (Hmin2 i k Hi Hk). }
  destruct (Rle_dec (Rabs (x - IZR (mant i1) / 2 ^ k1))
                    (Rabs (x - IZR (mant i2) * 2 ^ k2))) as [Hle | Hgt].
  - exists (IZR (mant i1) / 2 ^ k1). split.
    + exists (mant i1), k1. split; [ apply Hmant; exact Hi1 | left; auto ].
    + intros d' [m [k [Hm H]]].
      destruct (Hall d' m k Hm H) as [[H1 _] | [H1 | H2]]; lra.
  - exists (IZR (mant i2) * 2 ^ k2). split.
    + exists (mant i2), k2. split; [ apply Hmant; exact Hi2 | right; auto ].
    + intros d' [m [k [Hm H]]].
      destruct (Hall d' m k Hm H) as [[_ H2] | [H1 | H2]]; lra.
Qed.

(** *** The angle of 90 degrees in binary64 *)

Lemma binary64_half : binary64 (1 / 2).
Proof.
  replace (1 / 2) with (IZR 1 / 2 ^ 1) by (simpl; lra).
  apply binary64_frac; lia.
Qed.

(** The literal [3.14159265359] is within 1e-16 of a binary64 number. *)
Lemma PI_CODE_near_binary64 :
  binary64 (7074237752028906 / 2 ^ 51)
  /\ binary64 (7074237752028906 / 2 ^ 52)
  /\ Rabs (PI_CODE - 7074237752028906 / 2 ^ 51) <= 0.0000000000000001.
Proof.
  split; [ apply (binary64_frac 7074237752028906 51); lia | ].
  split; [ apply (binary64_frac 7074237752028906 52); lia | ].
  unfold PI_CODE. apply Rabs_le. split; lra.
Qed.

Lemma Theta64_offset (th : R) :
  Theta64 th ->
  exists d, th = PI / 2 + d /\ 0.00000000000004 < d < 0.0000000000002.
Proof.
  intros [h [p [[a [b [Ha [Hb [Hb0 Hh]]]]] [Hp Hth]]]].
  cbn [lit F64Backend] in Ha, Hb, Hp. unfold f64_lit in *.
  assert (H90 : binary64 90) by (apply (binary64_int 90); lia).
  assert (H180 : binary64 180) by (apply (binary64_int 180); lia).
  apply (rounds_exact 90 a H90) in Ha. apply (rounds_exact 180 b H180) in Hb.
  subst a b.
  replace (90 / 180) with (1 / 2) in Hh by lra.
  apply (rounds_exact (1 / 2) h binary64_half) in Hh. subst h.
  destruct PI_CODE_near_binary64 as [Hd0 [Hd1 Hnear]].
  pose proof (rounds_within PI_CODE p _ Hp Hd0) as Hp'.
  pose proof (rounds_within (1 / 2 * p) th _ Hth Hd1) as Hth'.
  pose proof PI_CODE_above as Habove.
  exists (th - PI / 2). split; [ ring | ].
  assert (Hp2 : Rabs (PI_CODE - p) <= 0.0000000000000001)
    by (eapply Rle_trans; [ exact Hp' | exact Hnear ]).
  apply Rabs_le_both in Hnear. apply Rabs_le_both in Hp2.
  assert (Hth2 : Rabs (1 / 2 * p - th) <= 0.0000000000000001).
  { eapply Rle_trans; [ exact Hth' | ]. apply Rabs_le.
    replace (7074237752028906 / 2 ^ 52) with (1 / 2 * (7074237752028906 / 2 ^ 51))
      by (simpl; lra).
    split; lra. }
  apply Rabs_le_both in Hth2.
  split; lra.
Qed.

Lemma Theta64_exists : exists th, Theta64 th.
Proof.
  destruct (rounds_exists PI_CODE) as [p Hp].
  destruct (rounds_exists (1 / 2 * p)) as [th Hth].
  exists th. exists (1 / 2), p. split; [ | split; [ exact Hp | exact Hth ] ].
  exists 90, 180.
  split; [ apply rounds_refl, (binary64_int 90); lia | ].
  split; [ apply rounds_refl, (binary64_int 180); lia | ].
  split; [ lra | ].
  replace (90 / 180) with (1 / 2) by lra. apply rounds_refl, binary64_half.
Qed.

Lemma binary64_1 : binary64 1.
Proof. apply (binary64_int 1). lia. Qed.

Lemma binary64_0 : binary64 0.
Proof. apply (binary64_int 0). lia. Qed.

Lemma binary64_2 : binary64 2.
Proof. apply (binary64_int 2). lia. Qed.

(** The sine of the angle rounds to 1, and its cosine to a number between
    [-2^-42] and 0. *)
Lemma sin64_Theta (b : R) : sin64 Theta64 b <-> b = 1.
Proof.
  assert (Hnear : forall th, Theta64 th -> 1 - / 2 ^ 54 < sin th <= 1).
  { intros th Hth. destruct (Theta64_offset th Hth) as [d [-> Hd]].
    rewrite <- cos_sin. destruct (cos_near_1 d) as [Hl Hu]; [ lra | ].
    assert (Hdd : d * d < 0.00000000000000000000000004) by nra.
    split; [ | exact Hu ]. lra. }
  split.
  - intros [th [Hth Hb]]. apply (rounds_near_1 (sin th)); [ apply Hnear, Hth | exact Hb ].
  - intros ->. destruct Theta64_exists as [th Hth].
    destruct (rounds_exists (sin th)) as [b Hb].
    exists th. split; [ exact Hth | ].
    rewrite <- (rounds_near_1 (sin th) b (Hnear th Hth) Hb). exact Hb.
Qed.

Lemma cos64_Theta :
  (exists c, cos64 Theta64 c)
  /\ forall c, cos64 Theta64 c -> binary64 c /\ - / 2 ^ 42 <= c <= 0.
Proof.
  split.
  - destruct Theta64_exists as [th Hth].
    destruct (rounds_exists (cos th)) as [c Hc]. exists c, th. auto.
  - intros c [th [Hth Hc]]. split; [ exact (proj1 Hc) | ].
    destruct (Theta64_offset th Hth) as [d [-> Hd]].
    assert (Hcos : cos (PI / 2 + d) = - sin d).
    { pose proof (sin_cos d) as H. lra. }
    rewrite Hcos in Hc.
    pose proof PI_bounds as HPI.
    assert (Hs0 : 0 < sin d) by (apply sin_gt_0; lra).
    assert (Hsd : sin d < d) by (apply sin_lt_x; lra).
    assert (HB : binary64 (- / 2 ^ 42)).
    { replace (- / 2 ^ 42) with (IZR (-1) / 2 ^ 42) by (simpl; lra).
      apply binary64_frac; lia. }
    split.
    + apply (rounds_ge (- sin d) c); [ exact Hc | exact HB | lra ].
    + apply (rounds_le (- sin d) c); [ exact Hc | exact binary64_0 | lra ].
Qed.

(** [getJac] at 90 degrees in binary64 arithmetic. *)
Lemma getJac64_angle90 :
  exists j11 j12 j21 j22 : f64,
    getJac cos64 sin64 [[lit 200; lit 90]] = ([[j11]], [[j12]], [[j21]], [[j22]])
    /\ (forall d, j11 d <-> d = 2)
    /\ (forall d, j12 d <-> d = 0)
    /\ (exists d, j21 d) /\ (forall d, j21 d -> 0 <= d <= / 2 ^ 41)
    /\ (forall d, j22 d <-> d = 2).
Proof.
  eexists; eexists; eexists; eexists.
  split; [ unfold getJac, Theta_of, emap, slice_cols; cbn [map firstn skipn Nat.sub];
           fold Theta64; reflexivity | ].
  cbn [lit add mul div neg F64Backend]. unfold f64_lit.
  assert (Hinv : 1 / xCoef = 2) by (unfold xCoef; field).
  assert (Hinvy : 1 / yCoef = 2) by (unfold yCoef; field).
  assert (Hx : xCoef = 1 / 2) by reflexivity.
  destruct Theta64_exists as [th0 Hth0].
  rewrite Hinv, Hinvy, Hx.
  split; [ | split; [ | split; [ | split ] ] ].
  - (* Jac11 = 1/xCoef*(Theta*0+1) *)
    intros d. split.
    + intros [a [b [Ha [[u [v [[t [z [Ht [Hz Hu]]]] [Hv Hb]]]] Hd]]]].
      apply (rounds_exact 2 a binary64_2) in Ha.
      apply (rounds_exact 0 z binary64_0) in Hz. subst a z.
      replace (t * 0) with 0 in Hu by ring.
      apply (rounds_exact 0 u binary64_0) in Hu.
      apply (rounds_exact 1 v binary64_1) in Hv. subst u v.
      replace (0 + 1) with 1 in Hb by ring.
      apply (rounds_exact 1 b binary64_1) in Hb. subst b.
      replace (2 * 1) with 2 in Hd by ring.
      apply (rounds_exact 2 d binary64_2) in Hd. exact Hd.
    + intros ->. exists 2, 1. split; [ apply rounds_refl, binary64_2 | ].
      split.
      * exists 0, 1. split.
        -- exists th0, 0. split; [ exact Hth0 | ].
           split; [ apply rounds_refl, binary64_0 | ].
           replace (th0 * 0) with 0 by ring. apply rounds_refl, binary64_0.
        -- split; [ apply rounds_refl, binary64_1 | ].
           replace (0 + 1) with 1 by ring. apply rounds_refl, binary64_1.
      * replace (2 * 1) with 2 by ring. apply rounds_refl, binary64_2.
  - (* Jac12 = 0.0*Theta *)
    intros d. split.
    + intros [a [b [Ha [Hb Hd]]]].
      apply (rounds_exact 0 a binary64_0) in Ha. subst a.
      replace (0 * b) with 0 in Hd by ring.
      apply (rounds_exact 0 d binary64_0) in Hd. exact Hd.
    + intros ->. exists 0, th0. split; [ apply rounds_refl, binary64_0 | ].
      split; [ exact Hth0 | ].
      replace (0 * th0) with 0 by ring. apply rounds_refl, binary64_0.
  - (* Jac21 has a value *)
    destruct (proj1 cos64_Theta) as [c Hc].
    destruct (proj2 cos64_Theta c Hc) as [Hcb _].
    destruct (rounds_exists (- c / 1 / (1 / 2))) as [d Hd].
    exists d, (- c), (1 / 2). split.
    + exists (- c), 1. split; [ exists c; split; [ exact Hc | ] | ].
      * apply rounds_refl, binary64_opp, Hcb.
      * split; [ apply sin64_Theta; reflexivity | ]. split; [ lra | ].
        replace (- c / 1) with (- c) by field.
        apply rounds_refl, binary64_opp, Hcb.
    + split; [ apply rounds_refl, binary64_half | ]. split; [ lra | ].
      replace (- c / (1 / 2)) with (- c / 1 / (1 / 2)) by field. exact Hd.
  - (* Jac21 = -cos(Theta)/sin(Theta)/xCoef *)
    intros d [q [h [[n [s [[c [Hc Hn]] [Hs [Hs0 Hq]]]]] [Hh [Hh0 Hd]]]]].
    destruct (proj2 cos64_Theta c Hc) as [Hcb Hcr].
    apply (rounds_exact (- c) n (binary64_opp c Hcb)) in Hn. subst n.
    apply sin64_Theta in Hs. subst s.
    replace (- c / 1) with (- c) in Hq by field.
    apply (rounds_exact (- c) q (binary64_opp c Hcb)) in Hq. subst q.
    apply (rounds_exact (1 / 2) h binary64_half) in Hh. subst h.
    assert (HB : binary64 (/ 2 ^ 41)).
    { replace (/ 2 ^ 41) with (IZR 1 / 2 ^ 41) by (simpl; lra).
      apply binary64_frac; lia. }
    split.
    + apply (rounds_ge (- c / (1 / 2)) d); [ exact Hd | exact binary64_0 | lra ].
    + apply (rounds_le (- c / (1 / 2)) d); [ exact Hd | exact HB | lra ].
  - (* Jac22 = 1/yCoef/sin(Theta) *)
    intros d. split.
    + intros [a [b [Ha [Hb [Hb0 Hd]]]]].
      apply (rounds_exact 2 a binary64_2) in Ha. subst a.
      apply sin64_Theta in Hb. subst b.
      replace (2 / 1) with 2 in Hd by field.
      apply (rounds_exact 2 d binary64_2) in Hd. exact Hd.
    + intros ->. exists 2, 1. split; [ apply rounds_refl, binary64_2 | ].
      split; [ apply sin64_Theta; reflexivity | ]. split; [ lra | ].
      replace (2 / 1) with 2 by field. apply rounds_refl, binary64_2.
Qed.

(** C5.  For [alpha = [[200, 90]]] [getJac] returns Jac11 = 2, Jac12 = 0,
    Jac21 approximately 0 and Jac22 = 2.  In the binary64 arithmetic of the
    code (every operation rounded to nearest, [np.cos] and [np.sin]
    returning a nearest binary64 number) Jac11, Jac12 and Jac22 are exactly
    2, 0 and 2, and Jac21 lies between 0 and 2^-41: the angle in radians,
    [90/180*3.14159265359], is a little more than pi/2, its sine is within
    2^-54 of 1 and rounds to 1.  Over the real numbers, without rounding,
    Jac11 = 2 and Jac12 = 0 exactly, Jac21 is positive and below 4e-13 and
    Jac22 is 2 up to 1e-25. *)
Theorem getJac_Re200_angle90 :
  (exists j11 j12 j21 j22 : f64,
     getJac cos64 sin64 [[lit 200; lit 90]] = ([[j11]], [[j12]], [[j21]], [[j22]])
     /\ (forall d, j11 d <-> d = 2)
     /\ (forall d, j12 d <-> d = 0)
     /\ (exists d, j21 d) /\ (forall d, j21 d -> 0 <= d <= / 2 ^ 41)
     /\ (forall d, j22 d <-> d = 2))
  /\ (exists j21 j22 : R,
        getJac cos sin [[200; 90]] = ([[2]], [[0]], [[j21]], [[j22]])
        /\ 0 < j21 < 0.0000000000004
        /\ 2 <= j22 < 2 + 0.0000000000000000000000001).
Proof.
  split.
  { destruct getJac64_angle90
      as [j11 [j12 [j21 [j22 [HJ [H11 [H12 [H21e [H21 H22]]]]]]]]].
    exists j11, j12, j21, j22. repeat (split; [ assumption | ]). assumption. }
  rewrite getJac_row.
  destruct Theta_90_offset as [d [Hth Hd]].
  rewrite Hth.
  assert (Hs : sin (PI / 2 + d) = cos d) by (symmetry; apply cos_sin).
  assert (Hc : cos (PI / 2 + d) = - sin d).
  { pose proof (sin_cos d) as H. lra. }
  rewrite Hs, Hc.
  pose proof PI_bounds as HPI.
  assert (Hs0 : 0 < sin d) by (apply sin_gt_0; lra).
  assert (Hsd : sin d < d) by (apply sin_lt_x; lra).
  destruct (cos_near_1 d) as [Hcl Hcu]; [ lra | ].
  assert (Hdd : d * d < 0.0000000000000000000000000225) by nra.
  assert (Hcpos : 0 < cos d) by lra.
  eexists; eexists; split; [ reflexivity | ].
  unfold xCoef, yCoef.
  assert (Hinv : / cos d < 1 + 0.00000000000000000000000003).
  { rewrite <- (Rinv_inv (1 + 0.00000000000000000000000003)).
    apply Rinv_lt_contravar.
    - apply Rmult_lt_0_compat; [ apply Rinv_0_lt_compat; lra | lra ].
    - apply Rmult_lt_reg_r with (1 + 0.00000000000000000000000003); [ lra | ].
      rewrite Rinv_l by lra. nra. }
  assert (Hinv1 : 1 <= / cos d).
  { rewrite <- Rinv_1. apply Rinv_le_contravar; lra. }
  split.
  - replace (- - sin d / cos d / (1 / 2)) with (2 * sin d * / cos d) by (field; lra).
    split; [ | nra ].
    apply Rmult_lt_0_compat; [ lra | apply Rinv_0_lt_compat; lra ].
  - replace (1 / (1 / 2) / cos d) with (2 * / cos d) by (field; lra).
    lra.
Qed.

